(** * InkWeaver: session storage and the model-fallback stream

    A shallow embedding of the two service modules of the InkWeaver
    writing assistant and of the part of the [App] component that feeds a
    streamed answer into the chat transcript:

    - [storageService]: [getSessions], [saveSession], [deleteSession],
      [getSessionById] over the browser's [localStorage];
    - [geminiService]: [getFriendlyErrorMessage], [processStream],
      [streamResponse];
    - [App]: [processResponse] from the placeholder message on, with the
      two callbacks it hands to [streamResponse].

    Conventions.  A JavaScript string is a [string]; the patterns searched
    for are ASCII, so byte-wise search agrees with the search on UTF-16
    code units.  [updatedAt] is produced by [Date.now()] and is an integer
    number of milliseconds, a [Z].  A value that may be [null] or
    [undefined] is an [option].  A call that may throw returns a
    [completion].  [console.error] and [console.warn] only log and are left
    out. *)

From Stdlib Require Import ZArith QArith String Ascii List.
From Ceres Require Import Ceres.
From stdpp Require Import base option list gmap strings pretty sorting.

Local Open Scope string_scope.
Local Open Scope Z_scope.

(* ================================================================== *)
(** * Part I: the program *)
(* ================================================================== *)

(** ** JavaScript values the services rely on *)

Module JS.

(** What the code observes of a thrown value [error]: [error.toString()],
    [typeof error === 'object'], the text [JSON.stringify(error)]
    contributes to a string concatenation, and [error.message].  A thrown
    value is not [null] or [undefined]: the client library and the runtime
    throw objects. *)
Record Error := {
  toString : string;
  isObject : bool;
  stringify : string;
  message : option string
}.

(** The outcome of a call: a value, or a thrown error. *)
Inductive completion (A : Type) : Type :=
| Return (a : A)
| Throw (e : Error).
Arguments Return {A} a.
Arguments Throw {A} e.

Definition bind {A B} (c : completion A) (k : A -> completion B) : completion B :=
  match c with
  | Return a => k a
  | Throw e => Throw e
  end.

(** [try { body } catch (e) { handler(e) }] *)
Definition try_catch {A} (body : completion A) (handler : Error -> completion A)
  : completion A :=
  match body with
  | Return a => Return a
  | Throw e => handler e
  end.

(** Truthiness of a string: every string but the empty one. *)
Definition truthy (s : string) : bool :=
  match s with
  | EmptyString => false
  | String _ _ => true
  end.

(** Truthiness of [string | null | undefined]. *)
Definition truthy_opt (o : option string) : bool :=
  match o with
  | Some s => truthy s
  | None => false
  end.

(** [s.includes(sub)]: [sub] occurs in [s] at some position. *)
Fixpoint includes (s sub : string) : bool :=
  String.prefix sub s ||
  match s with
  | EmptyString => false
  | String _ s' => includes s' sub
  end.

(** [arr.findIndex(p)]: the first index whose element satisfies [p], or
    [-1]. *)
Definition findIndex {A} (p : A -> Prop) `{forall x, Decision (p x)} (l : list A) : Z :=
  match list_find p l with
  | Some (i, _) => Z.of_nat i
  | None => -1
  end.

(** [arr.find(p)]: the first element that satisfies [p], or [undefined]. *)
Definition find {A} (p : A -> Prop) `{forall x, Decision (p x)} (l : list A) : option A :=
  snd <$> list_find p l.

(** [arr.sort(cmp)].  The sort of the language is stable; a stable sort
    has one result, the one insertion from the right computes.  [x] stood
    before every element of [l]: it moves behind [y] only when
    [cmp x y > 0]. *)
Fixpoint sort_insert {A} (cmp : A -> A -> Z) (x : A) (l : list A) : list A :=
  match l with
  | [] => [x]
  | y :: l' => if 0 <? cmp x y then y :: sort_insert cmp x l' else x :: l
  end.

Definition sort {A} (cmp : A -> A -> Z) (l : list A) : list A :=
  foldr (sort_insert cmp) [] l.

End JS.

#[global] Instance completion_ret : MRet JS.completion := @JS.Return.
#[global] Instance completion_bind : MBind JS.completion :=
  fun A B k c => JS.bind c k.

(** ** types.ts *)

Inductive Role := USER | MODEL | SYSTEM.

Inductive AppMode := CHAT | STORY | RESEARCH | CHARACTER.

#[global] Instance Role_eq_dec : EqDecision Role.
Proof. solve_decision. Defined.
#[global] Instance AppMode_eq_dec : EqDecision AppMode.
Proof. solve_decision. Defined.

Module Source.
Record t := { uri : string; title : string }.
End Source.

Module Message.
Record t := {
  id : string;
  role : Role;
  content : string;
  isStreaming : option bool;
  isError : option bool;
  groundingSources : option (list Source.t)
}.
End Message.

Module StorySettings.
Record t := {
  genre : string;
  tone : string;
  pov : string;
  creativityLevel : Q
}.
End StorySettings.

Module ChatSession.
Record t := {
  id : string;
  title : string;
  messages : list Message.t;
  mode : AppMode;
  settings : StorySettings.t;
  updatedAt : Z;
  preview : string
}.
End ChatSession.

(** ** services/storageService.ts *)

(** [localStorage]: string values under string keys.  Writing succeeds
    (the quota is not reached). *)
Module LocalStorage.
Definition t := gmap string string.
Definition getItem (key : string) (ls : t) : option string := ls !! key.
Definition setItem (key value : string) (ls : t) : t := <[key := value]> ls.
End LocalStorage.

Module Storage.
Section WithJSON.

(** [JSON.parse] at the type the module reads it at, [ChatSession[]], and
    [JSON.stringify] on that type.  [JSON.parse] throws a [SyntaxError]
    on a text that is not JSON. *)
Variable JSON_parse : string -> JS.completion (list ChatSession.t).
Variable JSON_stringify : list ChatSession.t -> string.

Definition STORAGE_KEY : string := "inkweaver_sessions".

Definition getSessions (ls : LocalStorage.t) : JS.completion (list ChatSession.t) :=
  JS.try_catch
    (let stored := LocalStorage.getItem STORAGE_KEY ls in
     match stored with
     | Some text => if JS.truthy text then JSON_parse text else mret []
     | None => mret []
     end)
    (fun e => mret []).

(** The body of [saveSession] between the read and the sort. *)
Definition upsert (session : ChatSession.t) (sessions : list ChatSession.t)
  : list ChatSession.t :=
  let index :=
    JS.findIndex (fun s => ChatSession.id s = ChatSession.id session) sessions in
  if 0 <=? index then <[Z.to_nat index := session]> sessions
  else session :: sessions.

(** The comparison [(a, b) => b.updatedAt - a.updatedAt]. *)
Definition newest_first (a b : ChatSession.t) : Z :=
  ChatSession.updatedAt b - ChatSession.updatedAt a.

Definition saveSession (session : ChatSession.t) (ls : LocalStorage.t)
  : JS.completion (list ChatSession.t * LocalStorage.t) :=
  sessions ← getSessions ls;
  let sessions := upsert session sessions in
  let sessions := JS.sort newest_first sessions in
  let trimmed := take 50 sessions in
  mret (trimmed, LocalStorage.setItem STORAGE_KEY (JSON_stringify trimmed) ls).

Definition deleteSession (sessionId : string) (ls : LocalStorage.t)
  : JS.completion (list ChatSession.t * LocalStorage.t) :=
  sessions ← getSessions ls;
  let newSessions := filter (fun s => ChatSession.id s ≠ sessionId) sessions in
  mret (newSessions, LocalStorage.setItem STORAGE_KEY (JSON_stringify newSessions) ls).

Definition getSessionById (sessionId : string) (ls : LocalStorage.t)
  : JS.completion (option ChatSession.t) :=
  sessions ← getSessions ls;
  mret (JS.find (fun s => ChatSession.id s = sessionId) sessions).

End WithJSON.
End Storage.

(** ** services/geminiService.ts *)

Module Web.
(** [c.web] of a grounding chunk; either field may be missing. *)
Record t := { uri : option string; title : option string }.
End Web.

Module Chunk.
(** What [processStream] reads of a streamed chunk: [chunk.text] and
    [chunk.candidates?.[0]?.groundingMetadata?.groundingChunks], each
    element of which has an optional [web]. *)
Record t := {
  text : option string;
  groundingChunks : option (list (option Web.t))
}.
End Chunk.

Module Stream.
(** The answer of one model: the chunks it yields and, if the request or
    the iteration fails, the error thrown after them.  A failure of
    [ai.chats.create] or of [sendMessageStream] is a failure after no
    chunk. *)
Record t := { chunks : list Chunk.t; failure : option JS.Error }.
End Stream.

Module Gemini.

Definition newline : string := String (ascii_of_nat 10) EmptyString.

Definition getFriendlyErrorMessage (error : JS.Error) : string :=
  let msg :=
    JS.toString error ++ (if JS.isObject error then JS.stringify error else "") in
  if JS.includes msg "process is not defined" then
    "[System Error: Configuration failed. The API Key was not injected correctly during build. Please check vite.config.ts.]"
  else if JS.includes msg "403" || JS.includes msg "PERMISSION_DENIED" then
    "[System Error: Access Denied. Your API key may not have access to the selected model. Check your project permissions.]"
  else if JS.includes msg "429" || JS.includes msg "RESOURCE_EXHAUSTED" then
    "[System Error: Quota Exceeded. You are strictly rate-limited.]"
  else if JS.includes msg "Safety" then
    "[System: The generated content triggered safety filters. Please adjust the prompt.]"
  else if JS.includes msg "API_KEY" then
    "[System Error: Invalid API Key. Please check your Vercel Environment Variables.]"
  else
    "[System Error: "
    ++ (if JS.truthy_opt (JS.message error) then default "" (JS.message error)
        else "An unexpected error occurred.")
    ++ "]".

(** [.map(c => c.web).filter(w => w && w.uri && w.title)], at the type
    [{ uri: string; title: string }] the callback receives. *)
Definition web_source (w : option Web.t) : option Source.t :=
  match w with
  | Some {| Web.uri := Some u; Web.title := Some t |} =>
      if JS.truthy u && JS.truthy t
      then Some {| Source.uri := u; Source.title := t |}
      else None
  | _ => None
  end.

(** [errStr] and [isRecoverable] of the [catch] block of [streamResponse]. *)
Definition errStr (error : JS.Error) : string :=
  JS.toString error ++ JS.stringify error.

Definition isRecoverable (error : JS.Error) : bool :=
  JS.includes (errStr error) "403" ||
  JS.includes (errStr error) "429" ||
  JS.includes (errStr error) "503" ||
  JS.includes (errStr error) "not found" ||
  JS.includes (errStr error) "PERMISSION_DENIED" ||
  JS.includes (errStr error) "RESOURCE_EXHAUSTED".

Definition modelsToTry : list string :=
  ["gemini-3-pro-preview"; "gemini-3-flash-preview"; "gemini-2.5-flash-latest"].

(** [getFriendlyErrorMessage(null)] dereferences [null]. *)
Definition null_dereference : JS.Error :=
  {| JS.toString := "TypeError: Cannot read properties of null (reading 'toString')";
     JS.isObject := true;
     JS.stringify := "{}";
     JS.message := Some "Cannot read properties of null (reading 'toString')" |}.

Section Callbacks.

(** The state the two callbacks act on. *)
Context {St : Type}.
Variable onChunk : string -> St -> St.
Variable onSources : option (list Source.t -> St -> St).

(** One turn of the [for await] loop of [processStream]. *)
Definition processChunk (st : St) (chunk : Chunk.t) : St :=
  let st :=
    if JS.truthy_opt (Chunk.text chunk)
    then onChunk (default "" (Chunk.text chunk)) st
    else st in
  match Chunk.groundingChunks chunk with
  | Some groundingChunks =>
      let sources := omap web_source groundingChunks in
      match onSources with
      | Some callback =>
          if (0 <? length sources)%nat then callback sources st else st
      | None => st
      end
  | None => st
  end.

(** The callbacks have run on every chunk that arrived when the
    iteration throws. *)
Definition processStream (stream : Stream.t) (st : St) : JS.completion unit * St :=
  let st := foldl processChunk st (Stream.chunks stream) in
  match Stream.failure stream with
  | None => (JS.Return tt, st)
  | Some error => (JS.Throw error, st)
  end.

(** [getAI()]: building the client.  It throws when [process] is not
    defined or the client refuses the key it is given. *)
Variable getAI : JS.completion unit.

(** The remote service behind the client.  System instruction,
    temperature, tools, history and message are the same for every model
    of one call, so within a call the stream depends on the model name
    only. *)
Variable ai : string -> Stream.t.

(** The state of a call: the models a chat was created for, oldest
    first, and the state of the callbacks. *)
Definition World : Type := list string * St.

(** The [for (const modelName of modelsToTry)] loop and the code after
    it. *)
Fixpoint tryModels (models : list string) (lastError : option JS.Error)
    (w : World) : JS.completion unit * World :=
  match models with
  | [] =>
      match lastError with
      | Some error =>
          (JS.Return tt,
           (w.1, onChunk (newline ++ newline ++ getFriendlyErrorMessage error) w.2))
      | None => (JS.Throw null_dereference, w)
      end
  | modelName :: rest =>
      let attempted := (w.1 ++ [modelName])%list in
      match processStream (ai modelName) w.2 with
      | (JS.Return _, st) => (JS.Return tt, (attempted, st))
      | (JS.Throw error, st) =>
          if negb (isRecoverable error) then
            (JS.Return tt,
             (attempted,
              onChunk (newline ++ newline ++ getFriendlyErrorMessage error) st))
          else tryModels rest (Some error) (attempted, st)
      end
  end.

(** [getAI()] is called before the loop, outside its [try]. *)
Definition streamResponse (st : St) : JS.completion unit * World :=
  match getAI with
  | JS.Throw error => (JS.Throw error, ([], st))
  | JS.Return _ => tryModels modelsToTry None ([], st)
  end.

End Callbacks.

End Gemini.

(** ** App.tsx: the part of [processResponse] that receives the stream *)

Module App.

Definition set_content (content : string) (m : Message.t) : Message.t :=
  {| Message.id := Message.id m;
     Message.role := Message.role m;
     Message.content := content;
     Message.isStreaming := Message.isStreaming m;
     Message.isError := Message.isError m;
     Message.groundingSources := Message.groundingSources m |}.

Definition set_groundingSources (sources : list Source.t) (m : Message.t)
  : Message.t :=
  {| Message.id := Message.id m;
     Message.role := Message.role m;
     Message.content := Message.content m;
     Message.isStreaming := Message.isStreaming m;
     Message.isError := Message.isError m;
     Message.groundingSources := Some sources |}.

Definition set_isStreaming (b : bool) (m : Message.t) : Message.t :=
  {| Message.id := Message.id m;
     Message.role := Message.role m;
     Message.content := Message.content m;
     Message.isStreaming := Some b;
     Message.isError := Message.isError m;
     Message.groundingSources := Message.groundingSources m |}.

Definition set_failed (m : Message.t) : Message.t :=
  {| Message.id := Message.id m;
     Message.role := Message.role m;
     Message.content :=
       Message.content m ++ Gemini.newline ++ Gemini.newline ++
       "[System Error: An unexpected error occurred. Please check console.]";
     Message.isStreaming := Message.isStreaming m;
     Message.isError := Some true;
     Message.groundingSources := Message.groundingSources m |}.

(** [prev.map(m => m.id === botMsgId ? f(m) : m)] *)
Definition update_bot (botMsgId : string) (f : Message.t -> Message.t)
    (prev : list Message.t) : list Message.t :=
  (fun m => if decide (Message.id m = botMsgId) then f m else m) <$> prev.

(** The state of the component that [processResponse] writes.  A state
    update is applied when it is requested. *)
Record State := { messages : list Message.t; isLoading : bool }.

Definition setMessages (update : list Message.t -> list Message.t) (st : State)
  : State :=
  {| messages := update (messages st); isLoading := isLoading st |}.

Definition setIsLoading (loading : bool) (st : State) : State :=
  {| messages := messages st; isLoading := loading |}.

(** The two local variables of the [try] block. *)
Record Locals := { accumulatedText : string; collectedSources : list Source.t }.

(** What the callbacks act on: the local variables they close over and the
    state of the component. *)
Definition Streaming : Type := Locals * State.

Definition onChunk (botMsgId : string) (textChunk : string) (st : Streaming)
  : Streaming :=
  let accumulatedText := accumulatedText st.1 ++ textChunk in
  ({| accumulatedText := accumulatedText;
      collectedSources := collectedSources st.1 |},
   setMessages (update_bot botMsgId (set_content accumulatedText)) st.2).

Definition onSources (botMsgId : string) (sources : list Source.t) (st : Streaming)
  : Streaming :=
  let newSources :=
    List.filter
      (fun s =>
         negb (existsb (fun existing => String.eqb (Source.uri existing) (Source.uri s))
                 (collectedSources st.1)))
      sources in
  let collectedSources := (collectedSources st.1 ++ newSources)%list in
  ({| accumulatedText := accumulatedText st.1;
      collectedSources := collectedSources |},
   setMessages (update_bot botMsgId (set_groundingSources collectedSources)) st.2).

(** [processResponse] from the placeholder on; [now] is the value of
    [Date.now()].  The title request that may be started before runs in
    the background and touches neither [messages] nor [isLoading]. *)
Definition processResponse (getAI : JS.completion unit) (ai : string -> Stream.t)
    (now : Z) (st : State) : State :=
  let botMsgId := pretty (now + 1) in
  let botMsgPlaceholder :=
    {| Message.id := botMsgId;
       Message.role := MODEL;
       Message.content := "";
       Message.isStreaming := Some true;
       Message.isError := None;
       Message.groundingSources := None |} in
  let st := setMessages (fun prev => prev ++ [botMsgPlaceholder])%list st in
  let st := setIsLoading true st in
  let locals := {| accumulatedText := ""; collectedSources := [] |} in
  let '(outcome, (_, (_, st))) :=
    Gemini.streamResponse (onChunk botMsgId) (Some (onSources botMsgId)) getAI ai
      (locals, st) in
  let st :=
    match outcome with
    | JS.Return _ => st
    | JS.Throw _ => setMessages (update_bot botMsgId set_failed) st
    end in
  let st := setIsLoading false st in
  setMessages (update_bot botMsgId (set_isStreaming false)) st.

End App.

(** ** services/geminiService.ts: the two requests that are not streamed *)

Module GeminiText.

(** [replace] with the global pattern for the double quote and the empty
    replacement: the text without its double quotes. *)
Fixpoint remove_quotes (s : string) : string :=
  match s with
  | EmptyString => EmptyString
  | String c s' =>
      if Ascii.eqb c (ascii_of_nat 34) then remove_quotes s'
      else String c (remove_quotes s')
  end.

(** [a || b] where [a] is a string or [undefined]. *)
Definition or_else (a : option string) (b : string) : string :=
  if JS.truthy_opt a then default "" a else b.

End GeminiText.

Module GenerateTitle.
Section Request.

(** [String.prototype.trim]. *)
Variable trim : string -> string.

(** [getAI()], as in [streamResponse]. *)
Variable getAI : JS.completion unit.

(** [ai.models.generateContent]: for a model, [response.text] of the
    answer, or the error thrown.  The contents sent are the same for every
    model of one call. *)
Variable generateContent : string -> JS.completion (option string).

Definition modelsToTry : list string :=
  ["gemini-3-flash-preview"; "gemini-2.5-flash-latest"].

(** The [for (const model of modelsToTry)] loop and the [return] after
    it. *)
Fixpoint tryModels (models : list string) : JS.completion string :=
  match models with
  | [] => mret "New Story"
  | model :: rest =>
      JS.try_catch
        (response ← generateContent model;
         mret (GeminiText.or_else
                 ((fun text => trim (GeminiText.remove_quotes text)) <$> response)
                 "Untitled Story"))
        (fun e => tryModels rest)
  end.

Definition generateTitle : JS.completion string :=
  _ ← getAI; tryModels modelsToTry.

End Request.
End GenerateTitle.

Module GenerateCharacterAttribute.
Section Request.

Variable trim : string -> string.
Variable getAI : JS.completion unit.

(** [ai.models.generateContent] on the prompt built from the profile, the
    field and the genre, which is the same for every model of one call. *)
Variable generateContent : string -> JS.completion (option string).

Definition modelsToTry : list string :=
  ["gemini-3-flash-preview"; "gemini-2.5-flash-latest"].

(** The loop and the [return] after it.  The [catch] block returns when
    the model is [modelsToTry[modelsToTry.length - 1]]. *)
Fixpoint tryModels (models : list string) : JS.completion string :=
  match models with
  | [] => mret "Could not generate content. Please try again later."
  | model :: rest =>
      JS.try_catch
        (response ← generateContent model;
         mret (GeminiText.or_else (trim <$> response) ""))
        (fun e =>
           if decide (Some model = last modelsToTry)
           then mret (Gemini.getFriendlyErrorMessage e)
           else tryModels rest)
  end.

Definition generateCharacterAttribute : JS.completion string :=
  _ ← getAI; tryModels modelsToTry.

End Request.
End GenerateCharacterAttribute.

(** ** types.ts: character profiles *)

Module CharacterProfile.

Record t := {
  id : string;
  name : string;
  role : string;
  age : string;
  appearance : string;
  backstory : string;
  personality : string;
  goals : string;
  relationships : string;
  notes : string
}.

(** [keyof CharacterProfile] *)
Inductive key :=
| key_id | key_name | key_role | key_age | key_appearance | key_backstory
| key_personality | key_goals | key_relationships | key_notes.

(** [c[k]] *)
Definition get (k : key) (c : t) : string :=
  match k with
  | key_id => id c
  | key_name => name c
  | key_role => role c
  | key_age => age c
  | key_appearance => appearance c
  | key_backstory => backstory c
  | key_personality => personality c
  | key_goals => goals c
  | key_relationships => relationships c
  | key_notes => notes c
  end.

(** [{ ...c, [k]: v }] *)
Definition set (k : key) (v : string) (c : t) : t :=
  {| id := if k is key_id then v else id c;
     name := if k is key_name then v else name c;
     role := if k is key_role then v else role c;
     age := if k is key_age then v else age c;
     appearance := if k is key_appearance then v else appearance c;
     backstory := if k is key_backstory then v else backstory c;
     personality := if k is key_personality then v else personality c;
     goals := if k is key_goals then v else goals c;
     relationships := if k is key_relationships then v else relationships c;
     notes := if k is key_notes then v else notes c |}.

End CharacterProfile.

#[global] Instance CharacterProfile_key_eq_dec : EqDecision CharacterProfile.key.
Proof. solve_decision. Defined.

(** ** components/CharacterBuilder.tsx *)

Module CharacterBuilder.

Definition EMPTY_CHAR : CharacterProfile.t :=
  {| CharacterProfile.id := "";
     CharacterProfile.name := "";
     CharacterProfile.role := "Protagonist";
     CharacterProfile.age := "";
     CharacterProfile.appearance := "";
     CharacterProfile.backstory := "";
     CharacterProfile.personality := "";
     CharacterProfile.goals := "";
     CharacterProfile.relationships := "";
     CharacterProfile.notes := "" |}.

(** The state of the component.  A state update is applied when it is
    requested. *)
Record State := {
  characters : list CharacterProfile.t;
  activeCharId : option string;
  formData : CharacterProfile.t;
  loadingField : option CharacterProfile.key
}.

(** The state the component is mounted with. *)
Definition mounted : State :=
  {| characters := []; activeCharId := None; formData := EMPTY_CHAR;
     loadingField := None |}.

Definition setCharacters
    (update : list CharacterProfile.t -> list CharacterProfile.t) (st : State)
  : State :=
  {| characters := update (characters st); activeCharId := activeCharId st;
     formData := formData st; loadingField := loadingField st |}.

Definition setActiveCharId (id : option string) (st : State) : State :=
  {| characters := characters st; activeCharId := id;
     formData := formData st; loadingField := loadingField st |}.

Definition setFormData (update : CharacterProfile.t -> CharacterProfile.t)
    (st : State) : State :=
  {| characters := characters st; activeCharId := activeCharId st;
     formData := update (formData st); loadingField := loadingField st |}.

Definition setLoadingField (field : option CharacterProfile.key) (st : State)
  : State :=
  {| characters := characters st; activeCharId := activeCharId st;
     formData := formData st; loadingField := field |}.

Definition selectCharacter (char : CharacterProfile.t) (st : State) : State :=
  let st := setActiveCharId (Some (CharacterProfile.id char)) st in
  setFormData (fun _ => char) st.

(** [now] is the value of [Date.now()]. *)
Definition createNew (now : Z) (st : State) : State :=
  let newChar :=
    CharacterProfile.set CharacterProfile.key_name "New Character"
      (CharacterProfile.set CharacterProfile.key_id (pretty now) EMPTY_CHAR) in
  let st := setCharacters (fun prev => prev ++ [newChar])%list st in
  selectCharacter newChar st.

(** [prev.map(c => c.id === activeCharId ? formData : c)] *)
Definition replace_active (activeCharId : option string)
    (formData : CharacterProfile.t) (prev : list CharacterProfile.t)
  : list CharacterProfile.t :=
  (fun c => if decide (Some (CharacterProfile.id c) = activeCharId)
            then formData else c) <$> prev.

Definition saveCurrent (st : State) : State :=
  if negb (JS.truthy_opt (activeCharId st)) then st
  else setCharacters (replace_active (activeCharId st) (formData st)) st.

Definition deleteCurrent (now : Z) (st : State) : State :=
  if negb (JS.truthy_opt (activeCharId st)) then st
  else
    let newList :=
      filter (fun c => Some (CharacterProfile.id c) ≠ activeCharId st)
        (characters st) in
    let st := setCharacters (fun _ => newList) st in
    match newList with
    | first :: _ => selectCharacter first st
    | [] => createNew now st
    end.

Definition handleChange (field : CharacterProfile.key) (value : string)
    (st : State) : State :=
  setFormData (CharacterProfile.set field value) st.

(** The effect that runs when [formData.name] or [formData.role]
    changed. *)
Definition syncBasics (st : State) : State :=
  if JS.truthy_opt (activeCharId st)
  then setCharacters (replace_active (activeCharId st) (formData st)) st
  else st.

(** The update of the form in [generateContent]:
    [prev => ({ ...prev, [field]: prev[field] ? prev[field] + '\n\n' + result : result })]. *)
Definition with_result (field : CharacterProfile.key) (result : string)
    (prev : CharacterProfile.t) : CharacterProfile.t :=
  CharacterProfile.set field
    (if JS.truthy (CharacterProfile.get field prev)
     then CharacterProfile.get field prev
          ++ Gemini.newline ++ Gemini.newline ++ result
     else result)
    prev.

(** [generateContent]; [attribute] is the outcome of
    [generateCharacterAttribute(field, formData, settings.genre)]. *)
Definition generateContent (attribute : JS.completion string)
    (field : CharacterProfile.key) (st : State) : JS.completion unit * State :=
  match loadingField st with
  | Some _ => (JS.Return tt, st)
  | None =>
      let st := setLoadingField (Some field) st in
      match attribute with
      | JS.Return result =>
          let st := setFormData (with_result field result) st in
          (JS.Return tt, setLoadingField None st)
      | JS.Throw error => (JS.Throw error, setLoadingField None st)
      end
  end.

Section WithJSON.

(** [JSON.parse] and [JSON.stringify] at the type [CharacterProfile[]]. *)
Variable JSON_parse : string -> JS.completion (list CharacterProfile.t).
Variable JSON_stringify : list CharacterProfile.t -> string.

Definition STORAGE_KEY : string := "inkweaver_characters".

(** The effect that runs once the component is mounted. *)
Definition loadEffect (now : Z) (ls : LocalStorage.t) (st : State) : State :=
  let saved := LocalStorage.getItem STORAGE_KEY ls in
  if JS.truthy_opt saved then
    match JSON_parse (default "" saved) with
    | JS.Return parsed =>
        let st := setCharacters (fun _ => parsed) st in
        match parsed with
        | first :: _ => selectCharacter first st
        | [] => createNew now st
        end
    | JS.Throw _ => createNew now st
    end
  else createNew now st.

(** The effect that runs when [characters] changed. *)
Definition saveEffect (st : State) (ls : LocalStorage.t) : LocalStorage.t :=
  if (0 <? length (characters st))%nat
  then LocalStorage.setItem STORAGE_KEY (JSON_stringify (characters st)) ls
  else ls.

End WithJSON.
End CharacterBuilder.

(** ** App.tsx: sessions, sending and regenerating *)

Module AppFlow.

Definition INITIAL_MESSAGE : Message.t :=
  {| Message.id := "init";
     Message.role := MODEL;
     Message.content :=
       "Greetings. I am InkWeaver. What story shall we craft today? "
       ++ Gemini.newline ++ Gemini.newline
       ++ "I can help you brainstorm plot twists, research fandom tropes, or simply write the next chapter of your masterpiece.";
     Message.isStreaming := None;
     Message.isError := None;
     Message.groundingSources := None |}.

(** The state of the component, without the install prompt.  A state
    update is applied when it is requested. *)
Record State := {
  sessions : list ChatSession.t;
  currentSessionId : option string;
  messages : list Message.t;
  inputText : string;
  isLoading : bool;
  mode : AppMode;
  showSettings : bool;
  showMobileHistory : bool;
  settings : StorySettings.t
}.

Definition setSessions (update : list ChatSession.t -> list ChatSession.t)
    (st : State) : State :=
  {| sessions := update (sessions st); currentSessionId := currentSessionId st;
     messages := messages st; inputText := inputText st; isLoading := isLoading st;
     mode := mode st; showSettings := showSettings st;
     showMobileHistory := showMobileHistory st; settings := settings st |}.

Definition setCurrentSessionId (id : option string) (st : State) : State :=
  {| sessions := sessions st; currentSessionId := id;
     messages := messages st; inputText := inputText st; isLoading := isLoading st;
     mode := mode st; showSettings := showSettings st;
     showMobileHistory := showMobileHistory st; settings := settings st |}.

Definition setMessages (update : list Message.t -> list Message.t) (st : State)
  : State :=
  {| sessions := sessions st; currentSessionId := currentSessionId st;
     messages := update (messages st); inputText := inputText st;
     isLoading := isLoading st; mode := mode st; showSettings := showSettings st;
     showMobileHistory := showMobileHistory st; settings := settings st |}.

Definition setInputText (text : string) (st : State) : State :=
  {| sessions := sessions st; currentSessionId := currentSessionId st;
     messages := messages st; inputText := text; isLoading := isLoading st;
     mode := mode st; showSettings := showSettings st;
     showMobileHistory := showMobileHistory st; settings := settings st |}.

Definition setIsLoading (loading : bool) (st : State) : State :=
  {| sessions := sessions st; currentSessionId := currentSessionId st;
     messages := messages st; inputText := inputText st; isLoading := loading;
     mode := mode st; showSettings := showSettings st;
     showMobileHistory := showMobileHistory st; settings := settings st |}.

Definition setMode (m : AppMode) (st : State) : State :=
  {| sessions := sessions st; currentSessionId := currentSessionId st;
     messages := messages st; inputText := inputText st; isLoading := isLoading st;
     mode := m; showSettings := showSettings st;
     showMobileHistory := showMobileHistory st; settings := settings st |}.

Definition setShowMobileHistory (shown : bool) (st : State) : State :=
  {| sessions := sessions st; currentSessionId := currentSessionId st;
     messages := messages st; inputText := inputText st; isLoading := isLoading st;
     mode := mode st; showSettings := showSettings st;
     showMobileHistory := shown; settings := settings st |}.

Definition setSettings (s : StorySettings.t) (st : State) : State :=
  {| sessions := sessions st; currentSessionId := currentSessionId st;
     messages := messages st; inputText := inputText st; isLoading := isLoading st;
     mode := mode st; showSettings := showSettings st;
     showMobileHistory := showMobileHistory st; settings := s |}.

(** [createNewChat]; [now] is the value of [Date.now()] and [narrow] that
    of [window.innerWidth < 768]. *)
Definition createNewChat (now : Z) (narrow : bool) (st : State) : State :=
  let st := setCurrentSessionId (Some (pretty now)) st in
  let st := setMessages (fun _ => [INITIAL_MESSAGE]) st in
  let st := setMode CHAT st in
  if narrow then setShowMobileHistory false st else st.

Definition loadSession (session : ChatSession.t) (narrow : bool) (st : State)
  : State :=
  let st := setCurrentSessionId (Some (ChatSession.id session)) st in
  let st := setMessages (fun _ => ChatSession.messages session) st in
  let st := setMode (ChatSession.mode session) st in
  let st := setSettings (ChatSession.settings session) st in
  if narrow then setShowMobileHistory false st else st.

(** [handleRegenerate]'s search for the last message of the user: the
    loop [for (let i = messages.length - 1; i >= 0; i--)], with [n] the
    number of indices still to visit. *)
Fixpoint lastUserMsgIndex (n : nat) (messages : list Message.t) : Z :=
  match n with
  | O => -1
  | S i =>
      match messages !! i with
      | Some m =>
          if decide (Message.role m = USER) then Z.of_nat i
          else lastUserMsgIndex i messages
      | None => lastUserMsgIndex i messages
      end
  end.

(** [m.role.toUpperCase()] *)
Definition role_upper (r : Role) : string :=
  match r with
  | USER => "USER"
  | MODEL => "MODEL"
  | SYSTEM => "SYSTEM"
  end.

(** The text and the file name of [downloadChat]. *)
Definition download_text (messages : list Message.t) : string :=
  String.concat (Gemini.newline ++ "---" ++ Gemini.newline)
    ((fun m =>
        role_upper (Message.role m) ++ ":" ++ Gemini.newline
        ++ Message.content m ++ Gemini.newline) <$> messages).

Definition download_name (currentSessionId : option string) : string :=
  "inkweaver-" ++ GeminiText.or_else currentSessionId "chat" ++ ".txt".

Section WithRuntime.

Variable JSON_parse : string -> JS.completion (list ChatSession.t).
Variable JSON_stringify : list ChatSession.t -> string.

(** [String.prototype.trim] and [s.substring(0, 60)]. *)
Variable trim : string -> string.
Variable substring_0_60 : string -> string.

(** [{ ...s, title }] *)
Definition set_title (title : string) (s : ChatSession.t) : ChatSession.t :=
  {| ChatSession.id := ChatSession.id s;
     ChatSession.title := title;
     ChatSession.messages := ChatSession.messages s;
     ChatSession.mode := ChatSession.mode s;
     ChatSession.settings := ChatSession.settings s;
     ChatSession.updatedAt := ChatSession.updatedAt s;
     ChatSession.preview := ChatSession.preview s |}.

(** The session the save effect builds from the state. *)
Definition updatedSession (now : Z) (id : string) (last : Message.t) (st : State)
  : ChatSession.t :=
  let currentSession :=
    JS.find (fun s => ChatSession.id s = id) (sessions st) in
  let title :=
    GeminiText.or_else (ChatSession.title <$> currentSession) "New Story Idea" in
  let preview := substring_0_60 (Message.content last) ++ "..." in
  {| ChatSession.id := id;
     ChatSession.title := title;
     ChatSession.messages := messages st;
     ChatSession.mode := mode st;
     ChatSession.settings := settings st;
     ChatSession.updatedAt := now;
     ChatSession.preview := preview |}.

(** The effect that runs when [messages] or [currentSessionId] changed. *)
Definition saveEffect (now : Z) (st : State) (ls : LocalStorage.t)
  : JS.completion (State * LocalStorage.t) :=
  if (1 <? length (messages st))%nat && JS.truthy_opt (currentSessionId st) then
    match last (messages st) with
    | Some lastMessage =>
        let session :=
          updatedSession now (default "" (currentSessionId st)) lastMessage st in
        '(newSessionList, ls) ←
          Storage.saveSession JSON_parse JSON_stringify session ls;
        mret (setSessions (fun _ => newSessionList) st, ls)
    | None => JS.Throw Gemini.null_dereference
    end
  else mret (st, ls).

(** The effect that runs once the component is mounted. *)
Definition loadEffect (st : State) (ls : LocalStorage.t) : JS.completion State :=
  loaded ← Storage.getSessions JSON_parse ls;
  mret (setSessions (fun _ => loaded) st).

Definition deleteChatSession (id : string) (now : Z) (narrow : bool) (st : State)
    (ls : LocalStorage.t) : JS.completion (State * LocalStorage.t) :=
  '(updated, ls) ← Storage.deleteSession JSON_parse JSON_stringify id ls;
  let st := setSessions (fun _ => updated) st in
  mret (if decide (currentSessionId st = Some id)
        then createNewChat now narrow st else st,
        ls).

(** What [processResponse] does when the title arrives: the callback of
    [generateTitle(userText).then], for the session id the call was made
    with. *)
Definition onTitle (currentSessionId : string) (title : string) (st : State)
    (ls : LocalStorage.t) : JS.completion (State * LocalStorage.t) :=
  let st :=
    setSessions
      (fun prev =>
         (fun s => if decide (ChatSession.id s = currentSessionId)
                   then set_title title s else s) <$> prev)
      st in
  stored ← Storage.getSessions JSON_parse ls;
  match JS.find (fun s => ChatSession.id s = currentSessionId) stored with
  | Some sessionToUpdate =>
      '(_, ls) ←
        Storage.saveSession JSON_parse JSON_stringify
          (set_title title sessionToUpdate) ls;
      mret (st, ls)
  | None => mret (st, ls)
  end.

(** [processResponse] on the whole state: the part modelled in [App]. *)
Definition processResponse (getAI : JS.completion unit) (ai : string -> Stream.t)
    (now : Z) (st : State) : State :=
  let done :=
    App.processResponse getAI ai now
      {| App.messages := messages st; App.isLoading := isLoading st |} in
  setIsLoading (App.isLoading done) (setMessages (fun _ => App.messages done) st).

(** [handleSend]; [Date.now()] gives [nowSession] for a new session id,
    [nowUser] for the id of the message and [nowBot] in
    [processResponse]. *)
Definition handleSend (getAI : JS.completion unit) (ai : string -> Stream.t)
    (nowSession nowUser nowBot : Z) (st : State) : State :=
  if negb (JS.truthy (trim (inputText st))) || isLoading st then st
  else
    let st0 := st in
    let st :=
      if negb (JS.truthy_opt (currentSessionId st0))
      then setCurrentSessionId (Some (pretty nowSession)) st
      else st in
    let userText := trim (inputText st0) in
    let st := setInputText "" st in
    let userMsg :=
      {| Message.id := pretty nowUser;
         Message.role := USER;
         Message.content := userText;
         Message.isStreaming := None;
         Message.isError := None;
         Message.groundingSources := None |} in
    let newHistory := (messages st0 ++ [userMsg])%list in
    let st := setMessages (fun _ => newHistory) st in
    processResponse getAI ai nowBot st.

Definition handleRegenerate (getAI : JS.completion unit) (ai : string -> Stream.t)
    (nowBot : Z) (st : State) : State :=
  if isLoading st || (length (messages st) <? 2)%nat then st
  else
    let index := lastUserMsgIndex (length (messages st)) (messages st) in
    if index =? -1 then st
    else
      let historyToKeep := take (Z.to_nat (index + 1)) (messages st) in
      let st := setMessages (fun _ => historyToKeep) st in
      processResponse getAI ai nowBot st.

End WithRuntime.
End AppFlow.

(* ================================================================== *)
(** * Part II: a concrete codec and sample data *)
(* ================================================================== *)

(** ** A concrete codec

    The storage functions are stated over any [JSON_parse] and
    [JSON_stringify].  To run them on concrete stores, [SexpCodec] gives
    one printer and parser for session lists, built on the S-expression
    library; it rejects the empty text, as [JSON.parse] does. *)

Module SexpCodec.

#[local] Instance Serialize_Role : Serialize Role :=
  fun r =>
    match r with
    | USER => Atom "user"
    | MODEL => Atom "model"
    | SYSTEM => Atom "system"
    end%sexp.

#[local] Instance Deserialize_Role : Deserialize Role :=
  Deser.match_con "Role" [("user", USER); ("model", MODEL); ("system", SYSTEM)] [].

#[local] Instance Serialize_AppMode : Serialize AppMode :=
  fun m =>
    match m with
    | CHAT => Atom "CHAT"
    | STORY => Atom "STORY"
    | RESEARCH => Atom "RESEARCH"
    | CHARACTER => Atom "CHARACTER"
    end%sexp.

#[local] Instance Deserialize_AppMode : Deserialize AppMode :=
  Deser.match_con "AppMode"
    [("CHAT", CHAT); ("STORY", STORY); ("RESEARCH", RESEARCH);
     ("CHARACTER", CHARACTER)] [].

#[local] Instance Serialize_Source : Serialize Source.t :=
  fun s => [Atom "source"; to_sexp (Source.uri s); to_sexp (Source.title s)]%sexp.

#[local] Instance Deserialize_Source : Deserialize Source.t :=
  Deser.match_con "Source" [] [("source", Deser.con2_ Source.Build_t)].

#[local] Instance Serialize_Message : Serialize Message.t :=
  fun m =>
    [Atom "message"; to_sexp (Message.id m); to_sexp (Message.role m);
     to_sexp (Message.content m);
     to_sexp (Message.isStreaming m, Message.isError m);
     to_sexp (Message.groundingSources m)]%sexp.

#[local] Instance Deserialize_Message : Deserialize Message.t :=
  Deser.match_con "Message" []
    [("message",
      Deser.con5_ (fun i r c (flags : option bool * option bool) g =>
                     Message.Build_t i r c flags.1 flags.2 g))].

#[local] Instance Serialize_Q : Serialize Q :=
  fun q => [Atom "number"; to_sexp (Qnum q); to_sexp (Zpos (Qden q))]%sexp.

#[local] Instance Deserialize_Q : Deserialize Q :=
  Deser.match_con "Q" []
    [("number", Deser.con2_ (fun n d : Z => Qmake n (Z.to_pos d)))].

#[local] Instance Serialize_StorySettings : Serialize StorySettings.t :=
  fun s =>
    [Atom "settings"; to_sexp (StorySettings.genre s); to_sexp (StorySettings.tone s);
     to_sexp (StorySettings.pov s); to_sexp (StorySettings.creativityLevel s)]%sexp.

#[local] Instance Deserialize_StorySettings : Deserialize StorySettings.t :=
  Deser.match_con "StorySettings" [] [("settings", Deser.con4_ StorySettings.Build_t)].

#[local] Instance Serialize_ChatSession : Serialize ChatSession.t :=
  fun s =>
    [Atom "session"; to_sexp (ChatSession.id s, ChatSession.title s);
     to_sexp (ChatSession.messages s);
     to_sexp (ChatSession.mode s, ChatSession.settings s);
     to_sexp (ChatSession.updatedAt s); to_sexp (ChatSession.preview s)]%sexp.

#[local] Instance Deserialize_ChatSession : Deserialize ChatSession.t :=
  Deser.match_con "ChatSession" []
    [("session",
      Deser.con5_ (fun (it : string * string) ms (md : AppMode * StorySettings.t) u p =>
                     ChatSession.Build_t it.1 it.2 ms md.1 md.2 u p))].

Definition stringify (sessions : list ChatSession.t) : string := to_string sessions.

Definition syntax_error : JS.Error :=
  {| JS.toString := "SyntaxError: Unexpected end of JSON input";
     JS.isObject := true;
     JS.stringify := "{}";
     JS.message := Some "Unexpected end of JSON input" |}.

Definition parse (text : string) : JS.completion (list ChatSession.t) :=
  match from_string text with
  | inr sessions => JS.Return sessions
  | inl _ => JS.Throw syntax_error
  end.

End SexpCodec.

(** ** Sample data *)

Module Sample.

Definition settings : StorySettings.t :=
  {| StorySettings.genre := "General Fiction";
     StorySettings.tone := "Neutral";
     StorySettings.pov := "Third Limited";
     StorySettings.creativityLevel := 1%Q |}.

Definition greeting : Message.t :=
  {| Message.id := "init"; Message.role := MODEL;
     Message.content := "Greetings. I am InkWeaver.";
     Message.isStreaming := None; Message.isError := None;
     Message.groundingSources := None |}.

Definition question : Message.t :=
  {| Message.id := "1700000000000"; Message.role := USER;
     Message.content := "A heist on a night train";
     Message.isStreaming := None; Message.isError := None;
     Message.groundingSources := None |}.

Definition session (id : string) (updatedAt : Z) : ChatSession.t :=
  {| ChatSession.id := id;
     ChatSession.title := "New Story Idea";
     ChatSession.messages := [greeting; question];
     ChatSession.mode := CHAT;
     ChatSession.settings := settings;
     ChatSession.updatedAt := updatedAt;
     ChatSession.preview := "A heist on a night train..." |}.

(** A store that holds the sessions [a], [b], [c], newest first. *)
Definition stored : list ChatSession.t :=
  [session "a" 30; session "b" 20; session "c" 10].

Definition store : LocalStorage.t :=
  LocalStorage.setItem Storage.STORAGE_KEY (SexpCodec.stringify stored) ∅.

(** A store written by something else: 60 sessions, oldest first. *)
Definition crowd : list ChatSession.t :=
  (fun n : nat => session (pretty n) (Z.of_nat n)) <$> seq 0 60.

Definition crowded_store : LocalStorage.t :=
  LocalStorage.setItem Storage.STORAGE_KEY (SexpCodec.stringify crowd) ∅.

(** Errors of the remote service: an overloaded model, a refused key that
    is also out of quota, and a malformed request. *)
Definition unavailable : JS.Error :=
  {| JS.toString := "ApiError: 503 The model is overloaded";
     JS.isObject := true;
     JS.stringify := "{}";
     JS.message := Some "503 The model is overloaded" |}.

Definition denied_and_exhausted : JS.Error :=
  {| JS.toString := "ApiError: 403 PERMISSION_DENIED after 429 RESOURCE_EXHAUSTED";
     JS.isObject := true;
     JS.stringify := "{}";
     JS.message := Some "403 PERMISSION_DENIED after 429 RESOURCE_EXHAUSTED" |}.

Definition bad_request : JS.Error :=
  {| JS.toString := "ApiError: 400 Invalid argument";
     JS.isObject := true;
     JS.stringify := "{}";
     JS.message := Some "400 Invalid argument" |}.

Definition process_undefined : JS.Error :=
  {| JS.toString := "ReferenceError: process is not defined";
     JS.isObject := true;
     JS.stringify := "{}";
     JS.message := Some "process is not defined" |}.

Definition text_chunk (text : string) : Chunk.t :=
  {| Chunk.text := Some text; Chunk.groundingChunks := None |}.

Definition source_chunk : Chunk.t :=
  {| Chunk.text := None;
     Chunk.groundingChunks :=
       Some [Some {| Web.uri := Some "https://example.org/trains";
                     Web.title := Some "Night trains" |};
             Some {| Web.uri := Some "https://example.org/untitled";
                     Web.title := None |};
             None] |}.

Definition story : Stream.t :=
  {| Stream.chunks :=
       [text_chunk "The train "; text_chunk ""; source_chunk; text_chunk "left at dusk."];
     Stream.failure := None |}.

Definition fails_with (error : JS.Error) : Stream.t :=
  {| Stream.chunks := []; Stream.failure := Some error |}.

(** The first model is overloaded, the second answers. *)
Definition second_answers (modelName : string) : Stream.t :=
  if decide (modelName = "gemini-3-pro-preview") then fails_with unavailable
  else story.

(** The first model is overloaded, the second rejects the request. *)
Definition second_rejects (modelName : string) : Stream.t :=
  if decide (modelName = "gemini-3-pro-preview") then fails_with unavailable
  else fails_with bad_request.

(** The transcript when the question has been sent. *)
Definition asked : App.State :=
  {| App.messages := [greeting; question]; App.isLoading := false |}.

End Sample.

(** ** A concrete runtime for the other functions

    [trim] and [substring(0, 60)] for texts whose characters are ASCII, and
    a printer and parser for lists of character profiles. *)

Module AsciiRuntime.

Definition is_space (c : ascii) : bool :=
  let n := nat_of_ascii c in
  ((9 <=? n) && (n <=? 13) || (n =? 32))%nat.

Fixpoint trimStart (s : string) : string :=
  match s with
  | EmptyString => EmptyString
  | String c s' => if is_space c then trimStart s' else s
  end.

Fixpoint trimEnd (s : string) : string :=
  match s with
  | EmptyString => EmptyString
  | String c s' =>
      match trimEnd s' with
      | EmptyString => if is_space c then EmptyString else String c EmptyString
      | rest => String c rest
      end
  end.

Definition trim (s : string) : string := trimEnd (trimStart s).

Definition substring_0_60 (s : string) : string := String.substring 0 60 s.

End AsciiRuntime.

Module SexpCharacters.

#[local] Instance Serialize_CharacterProfile : Serialize CharacterProfile.t :=
  fun c =>
    [Atom "character";
     to_sexp (CharacterProfile.id c, CharacterProfile.name c);
     to_sexp (CharacterProfile.role c, CharacterProfile.age c);
     to_sexp (CharacterProfile.appearance c, CharacterProfile.backstory c);
     to_sexp (CharacterProfile.personality c, CharacterProfile.goals c);
     to_sexp (CharacterProfile.relationships c, CharacterProfile.notes c)]%sexp.

#[local] Instance Deserialize_CharacterProfile : Deserialize CharacterProfile.t :=
  Deser.match_con "CharacterProfile" []
    [("character",
      Deser.con5_ (fun (a b c d e : string * string) =>
                     CharacterProfile.Build_t a.1 a.2 b.1 b.2 c.1 c.2 d.1 d.2 e.1 e.2))].

Definition stringify (characters : list CharacterProfile.t) : string :=
  to_string characters.

Definition parse (text : string) : JS.completion (list CharacterProfile.t) :=
  match from_string text with
  | inr characters => JS.Return characters
  | inl _ => JS.Throw SexpCodec.syntax_error
  end.

End SexpCharacters.

(** ** More sample data *)

Module Cast.

Definition hero : CharacterProfile.t :=
  {| CharacterProfile.id := "1700000000001";
     CharacterProfile.name := "Elara Vance";
     CharacterProfile.role := "Protagonist";
     CharacterProfile.age := "24";
     CharacterProfile.appearance := "Tall, with a scar over one brow";
     CharacterProfile.backstory := "";
     CharacterProfile.personality := "";
     CharacterProfile.goals := "";
     CharacterProfile.relationships := "";
     CharacterProfile.notes := "" |}.

Definition rival : CharacterProfile.t :=
  {| CharacterProfile.id := "1700000000002";
     CharacterProfile.name := "Corin Ashe";
     CharacterProfile.role := "Rival";
     CharacterProfile.age := "31";
     CharacterProfile.appearance := "";
     CharacterProfile.backstory := "";
     CharacterProfile.personality := "";
     CharacterProfile.goals := "";
     CharacterProfile.relationships := "";
     CharacterProfile.notes := "" |}.

(** The builder with two characters, the first being edited. *)
Definition editing : CharacterBuilder.State :=
  {| CharacterBuilder.characters := [hero; rival];
     CharacterBuilder.activeCharId := Some "1700000000001";
     CharacterBuilder.formData :=
       CharacterProfile.set CharacterProfile.key_age "25" hero;
     CharacterBuilder.loadingField := None |}.

(** Answers of the service to a request that is not streamed: the first
    model is overloaded and the second answers; both are overloaded. *)
Definition second_writes (text : option string) (modelName : string)
  : JS.completion (option string) :=
  if decide (modelName = "gemini-3-flash-preview") then JS.Throw Sample.unavailable
  else JS.Return text.

Definition both_fail (modelName : string) : JS.completion (option string) :=
  if decide (modelName = "gemini-3-flash-preview") then JS.Throw Sample.bad_request
  else JS.Throw Sample.unavailable.

(** The application with the sample transcript, a question typed. *)
Definition typing : AppFlow.State :=
  {| AppFlow.sessions := Sample.stored;
     AppFlow.currentSessionId := Some "b";
     AppFlow.messages := [Sample.greeting; Sample.question];
     AppFlow.inputText := "  And who is on the train? ";
     AppFlow.isLoading := false;
     AppFlow.mode := STORY;
     AppFlow.showSettings := false;
     AppFlow.showMobileHistory := true;
     AppFlow.settings := Sample.settings |}.

(** The same after the first answer. *)
Definition answer : Message.t :=
  {| Message.id := "1700000000501"; Message.role := MODEL;
     Message.content := "The train left at dusk.";
     Message.isStreaming := Some false; Message.isError := None;
     Message.groundingSources := None |}.

Definition answered : AppFlow.State :=
  {| AppFlow.sessions := Sample.stored;
     AppFlow.currentSessionId := Some "b";
     AppFlow.messages := [Sample.greeting; Sample.question; answer];
     AppFlow.inputText := "";
     AppFlow.isLoading := false;
     AppFlow.mode := STORY;
     AppFlow.showSettings := false;
     AppFlow.showMobileHistory := true;
     AppFlow.settings := Sample.settings |}.

(** Every model of the chain is overloaded after a first chunk. *)
Definition all_overloaded (modelName : string) : Stream.t :=
  {| Stream.chunks := [Sample.text_chunk "The "];
     Stream.failure := Some Sample.unavailable |}.

(** The second model answers with a title in double quotes. *)
Definition quoted (title : string) : string :=
  String (ascii_of_nat 34) title ++ String (ascii_of_nat 34) " ".

(** The application before the first message of a new conversation. *)
Definition fresh_start : AppFlow.State :=
  {| AppFlow.sessions := Sample.stored;
     AppFlow.currentSessionId := None;
     AppFlow.messages := [AppFlow.INITIAL_MESSAGE];
     AppFlow.inputText := "Begin.";
     AppFlow.isLoading := false;
     AppFlow.mode := CHAT;
     AppFlow.showSettings := false;
     AppFlow.showMobileHistory := false;
     AppFlow.settings := Sample.settings |}.

(** Sources that a stream reported. *)
Definition trains : Source.t :=
  {| Source.uri := "https://example.org/trains"; Source.title := "Night trains" |}.

Definition heists : Source.t :=
  {| Source.uri := "https://example.org/heists"; Source.title := "Great heists" |}.

End Cast.

(* ================================================================== *)
(** * Part III: the vocabulary of the properties *)
(* ================================================================== *)

Local Open Scope list_scope.
Local Open Scope Z_scope.

Module StorageTerms.

(** [newer a b]: [a] may stand before [b] in a list sorted newest
    first. *)
Definition newer (a b : ChatSession.t) : Prop :=
  ChatSession.updatedAt b ≤ ChatSession.updatedAt a.

Definition ids (sessions : list ChatSession.t) : list string :=
  ChatSession.id <$> sessions.

End StorageTerms.

Module ErrorTerms.

(** The text the checks of [getFriendlyErrorMessage] search. *)
Definition msg (error : JS.Error) : string :=
  JS.toString error +:+ (if JS.isObject error then JS.stringify error else "").

(** The checks in their order of priority, each with the patterns that
    trigger it and the message it yields. *)
Definition checks : list (list string * string) :=
  [ (["process is not defined"],
     "[System Error: Configuration failed. The API Key was not injected correctly during build. Please check vite.config.ts.]");
    (["403"; "PERMISSION_DENIED"],
     "[System Error: Access Denied. Your API key may not have access to the selected model. Check your project permissions.]");
    (["429"; "RESOURCE_EXHAUSTED"],
     "[System Error: Quota Exceeded. You are strictly rate-limited.]");
    (["Safety"],
     "[System: The generated content triggered safety filters. Please adjust the prompt.]");
    (["API_KEY"],
     "[System Error: Invalid API Key. Please check your Vercel Environment Variables.]") ].

Definition matches (text : string) (check : list string * string) : bool :=
  existsb (JS.includes text) check.1.

(** The first check, in the order of [checks], that the text triggers. *)
Definition first_match (text : string) : option (list string * string) :=
  List.find (matches text) checks.

(** The message when no check is triggered. *)
Definition generic (error : JS.Error) : string :=
  "[System Error: "
  +:+ match JS.message error with
      | Some (String c m) => String c m
      | _ => "An unexpected error occurred."
      end
  +:+ "]".

End ErrorTerms.

Module ChainTerms.

(** The patterns that make a failure recoverable. *)
Definition recoverable_marks : list string :=
  ["403"; "429"; "503"; "not found"; "PERMISSION_DENIED"; "RESOURCE_EXHAUSTED"].

(** What the [catch] block hands to [onChunk]. *)
Definition report (error : JS.Error) : string :=
  Gemini.newline +:+ Gemini.newline +:+ Gemini.getFriendlyErrorMessage error.

Section Callbacks.
Context {St : Type}.
Variable onChunk : string → St → St.
Variable onSources : option (list Source.t → St → St).
Variable ai : string → Stream.t.

(** The model fails with an error after which the loop goes on. *)
Definition retried (modelName : string) : Prop :=
  ∃ error, Stream.failure (ai modelName) = Some error ∧
           Gemini.isRecoverable error = true.

Definition retriedb (modelName : string) : bool :=
  match Stream.failure (ai modelName) with
  | Some error => Gemini.isRecoverable error
  | None => false
  end.

(** The models reached: each one as long as every one before it was
    retried. *)
Fixpoint chain (models : list string) : list string :=
  match models with
  | [] => []
  | modelName :: rest => modelName :: (if retriedb modelName then chain rest else [])
  end.

(** The state of the callbacks after the chunks of the given models, in
    order. *)
Definition delivered (st : St) (models : list string) : St :=
  foldl (λ st modelName,
           foldl (Gemini.processChunk onChunk onSources) st
             (Stream.chunks (ai modelName)))
    st models.

(** The value of [lastError] after the given models failed. *)
Definition last_error (lastError : option JS.Error) (models : list string)
  : option JS.Error :=
  foldl (λ lastError modelName,
           match Stream.failure (ai modelName) with
           | Some error => Some error
           | None => lastError
           end) lastError models.

End Callbacks.
End ChainTerms.

Module StreamTerms.

(** The text of a chunk that has a non-empty text. *)
Definition chunk_text (chunk : Chunk.t) : option string :=
  match Chunk.text chunk with
  | Some (String c text) => Some (String c text)
  | _ => None
  end.

(** The texts of the chunks that have one, in the order of arrival. *)
Definition texts (chunks : list Chunk.t) : list string := omap chunk_text chunks.

(** Concatenation of a list of strings. *)
Definition join (ts : list string) : string := foldr String.append "" ts.

(** A call of one of the two callbacks. *)
Inductive Call :=
| OnChunk (text : string)
| OnSources (sources : list Source.t).

(** Callbacks that only record that they were called. *)
Definition record_chunk (text : string) (log : list Call) : list Call :=
  log ++ [OnChunk text].

Definition record_sources (sources : list Source.t) (log : list Call) : list Call :=
  log ++ [OnSources sources].

Definition chunk_calls (log : list Call) : list string :=
  omap (λ call, match call with OnChunk text => Some text | OnSources _ => None end) log.

(** Making the recorded calls on given callbacks. *)
Definition replay {St} (onChunk : string → St → St)
    (onSources : option (list Source.t → St → St)) (log : list Call) (st : St) : St :=
  foldl (λ st call,
           match call with
           | OnChunk text => onChunk text st
           | OnSources sources =>
               match onSources with
               | Some callback => callback sources st
               | None => st
               end
           end) st log.

(** The calls [processStream] makes on a list of chunks. *)
Definition calls (chunks : list Chunk.t) : list Call :=
  foldl (Gemini.processChunk record_chunk (Some record_sources)) [] chunks.

(** The calls [streamResponse] makes from a point of its loop on: the
    calls for the chunks of each model reached, and the report of the error
    the loop ends on. *)
Fixpoint all_calls (ai : string → Stream.t) (models : list string)
    (lastError : option JS.Error) : list Call :=
  match models with
  | [] =>
      match lastError with
      | Some error => [OnChunk (ChainTerms.report error)]
      | None => []
      end
  | modelName :: rest =>
      calls (Stream.chunks (ai modelName)) ++
      match Stream.failure (ai modelName) with
      | None => []
      | Some error =>
          if Gemini.isRecoverable error then all_calls ai rest (Some error)
          else [OnChunk (ChainTerms.report error)]
      end
  end.

(** A message of the transcript before and after some calls of the
    callbacks, [ts] being the texts [onChunk] received and [text] the
    accumulated text: a message other than the placeholder is as it was,
    and the placeholder shows [text] once a text was received. *)
Definition follows (botMsgId : string) (ts : list string) (text : string)
    (before after : Message.t) : Prop :=
  Message.id after = Message.id before ∧
  Message.role after = Message.role before ∧
  Message.isStreaming after = Message.isStreaming before ∧
  (Message.id before ≠ botMsgId → after = before) ∧
  (Message.id before = botMsgId →
   Message.content after = match ts with [] => Message.content before | _ => text end).

Definition tracks (botMsgId : string) (start : App.Streaming) (ts : list string)
    (st : App.Streaming) : Prop :=
  App.accumulatedText st.1 = App.accumulatedText start.1 +:+ join ts ∧
  App.isLoading st.2 = App.isLoading start.2 ∧
  Forall2 (follows botMsgId ts (App.accumulatedText st.1))
    (App.messages start.2) (App.messages st.2).

End StreamTerms.

(** ** The character workshop *)

Module BuilderTerms.

Definition ids (characters : list CharacterProfile.t) : list string :=
  CharacterProfile.id <$> characters.

(** The form shows the active character, and that is one of the list. *)
Definition shown (st : CharacterBuilder.State) : Prop :=
  CharacterBuilder.activeCharId st
    = Some (CharacterProfile.id (CharacterBuilder.formData st)) ∧
  CharacterProfile.id (CharacterBuilder.formData st)
    ∈ ids (CharacterBuilder.characters st).

(** What happens to the component once it is mounted: a click on the
    entry [i] of the list, on one of the buttons, an input in a field, the
    effect that follows a change of the name or the role, and the steps of
    [generateContent], between which the other events can take place: the
    request, its answer, its failure. *)
Inductive Event :=
| Select (i : nat)
| CreateNew (now : Z)
| SaveCurrent
| DeleteCurrent (now : Z)
| Change (field : CharacterProfile.key) (value : string)
| SyncBasics
| Request (field : CharacterProfile.key)
| Answer (field : CharacterProfile.key) (result : string)
| Failure.

Definition step (event : Event) (st : CharacterBuilder.State)
  : CharacterBuilder.State :=
  match event with
  | Select i =>
      match CharacterBuilder.characters st !! i with
      | Some char => CharacterBuilder.selectCharacter char st
      | None => st
      end
  | CreateNew now => CharacterBuilder.createNew now st
  | SaveCurrent => CharacterBuilder.saveCurrent st
  | DeleteCurrent now => CharacterBuilder.deleteCurrent now st
  | Change field value => CharacterBuilder.handleChange field value st
  | SyncBasics => CharacterBuilder.syncBasics st
  | Request field =>
      match CharacterBuilder.loadingField st with
      | Some _ => st
      | None => CharacterBuilder.setLoadingField (Some field) st
      end
  | Answer field result =>
      CharacterBuilder.setLoadingField None
        (CharacterBuilder.setFormData (CharacterBuilder.with_result field result) st)
  | Failure => CharacterBuilder.setLoadingField None st
  end.

Definition run (events : list Event) (st : CharacterBuilder.State)
  : CharacterBuilder.State :=
  foldl (λ st event, step event st) st events.

(** The events that write the field [id] of the form; the markup of the
    component has none. *)
Definition writes_id (event : Event) : bool :=
  match event with
  | Change CharacterProfile.key_id _ | Answer CharacterProfile.key_id _ => true
  | _ => false
  end.

(** The clock gives [createNew] an id that no character of the list
    has. *)
Definition fresh (event : Event) (st : CharacterBuilder.State) : Prop :=
  match event with
  | CreateNew now => pretty now ∉ ids (CharacterBuilder.characters st)
  | _ => True
  end.

Fixpoint fresh_clock (events : list Event) (st : CharacterBuilder.State) : Prop :=
  match events with
  | [] => True
  | event :: rest => fresh event st ∧ fresh_clock rest (step event st)
  end.

End BuilderTerms.

(** ** The conversation and its sessions *)

Module AppTerms.

(** The id [processResponse] gives the message of the model. *)
Definition botMsgId (now : Z) : string := pretty (now + 1).

(** The message of the user that [handleSend] adds. *)
Definition userMsg (now : Z) (text : string) : Message.t :=
  {| Message.id := pretty now;
     Message.role := USER;
     Message.content := text;
     Message.isStreaming := None;
     Message.isError := None;
     Message.groundingSources := None |}.

(** The sessions with the one of the id [id], if there is one, under the
    title [title]. *)
Definition rename (id title : string) (sessions : list ChatSession.t)
  : list ChatSession.t :=
  (λ s, if decide (ChatSession.id s = id) then AppFlow.set_title title s else s)
    <$> sessions.

(** The state apart from [sessions]. *)
Definition same_view (a b : AppFlow.State) : Prop :=
  AppFlow.currentSessionId a = AppFlow.currentSessionId b ∧
  AppFlow.messages a = AppFlow.messages b ∧
  AppFlow.inputText a = AppFlow.inputText b ∧
  AppFlow.isLoading a = AppFlow.isLoading b ∧
  AppFlow.mode a = AppFlow.mode b ∧
  AppFlow.showSettings a = AppFlow.showSettings b ∧
  AppFlow.showMobileHistory a = AppFlow.showMobileHistory b ∧
  AppFlow.settings a = AppFlow.settings b.

End AppTerms.

(* ================================================================== *)
(** * Part IV: properties *)
(* ================================================================== *)

(** ** The JavaScript operations *)

Module JSFacts.

Lemma append_String c (s t : string) : String c s +:+ t = String c (s +:+ t).
Proof. reflexivity. Qed.

Lemma prefix_true_iff (sub s : string) :
  String.prefix sub s = true ↔ ∃ rest, s = sub +:+ rest.
Proof.
  revert s. induction sub as [|c sub IH]; intros s.
  - destruct s; split; eauto.
  - destruct s as [|d s]; simpl.
    + split; [discriminate | intros [rest Hrest]; discriminate].
    + destruct (Ascii.ascii_dec c d) as [->|Hne].
      * rewrite IH. split; intros [rest Hrest]; exists rest.
        -- by rewrite append_String, Hrest.
        -- rewrite append_String in Hrest. congruence.
      * split; [discriminate | intros [rest Hrest]].
        rewrite append_String in Hrest. congruence.
Qed.

Lemma includes_nil sub : JS.includes "" sub = String.prefix sub "" || false.
Proof. reflexivity. Qed.

Lemma includes_String c s sub :
  JS.includes (String c s) sub = String.prefix sub (String c s) || JS.includes s sub.
Proof. reflexivity. Qed.

(** [includes] finds [sub] exactly when the text splits around it. *)
Lemma includes_true_iff (s sub : string) :
  JS.includes s sub = true ↔ ∃ before after, s = before +:+ sub +:+ after.
Proof.
  induction s as [|c s IH].
  - rewrite includes_nil, orb_false_r, prefix_true_iff. split.
    + intros [rest Hrest]. by exists "", rest.
    + intros (before & after & Hs). destruct before; [|discriminate].
      by exists after.
  - rewrite includes_String, orb_true_iff, prefix_true_iff, IH. split.
    + intros [[rest Hrest] | (before & after & Hs)].
      * by exists "", rest.
      * exists (String c before), after. by rewrite append_String, Hs.
    + intros (before & after & Hs). destruct before as [|d before].
      * left. by exists after.
      * right. exists before, after. rewrite append_String in Hs. congruence.
Qed.

Section Sort.
Context {A : Type} (cmp : A → A → Z).

Lemma sort_insert_Permutation x l : JS.sort_insert cmp x l ≡ₚ x :: l.
Proof.
  induction l as [|y l IH]; simpl; [done|].
  case_match; [|done]. by rewrite IH, Permutation_swap.
Qed.

Lemma sort_Permutation l : JS.sort cmp l ≡ₚ l.
Proof.
  induction l as [|x l IH]; simpl; [done|].
  by rewrite sort_insert_Permutation, IH.
Qed.

Lemma sort_length l : length (JS.sort cmp l) = length l.
Proof. by rewrite sort_Permutation. Qed.

Lemma elem_of_sort x l : x ∈ JS.sort cmp l ↔ x ∈ l.
Proof. by rewrite sort_Permutation. Qed.

(** The sort is stable: it keeps the order of the elements that a
    predicate compatible with the comparison selects. *)
Lemma sort_insert_filter_tie (P : A → Prop) `{∀ x, Decision (P x)} x l :
  P x → (∀ y, P y → cmp x y ≤ 0) →
  filter P (JS.sort_insert cmp x l) = x :: filter P l.
Proof.
  intros HPx Htie. induction l as [|y l IH]; simpl.
  - by rewrite filter_cons_True.
  - case_match eqn:Hcmp.
    + apply Z.ltb_lt in Hcmp.
      rewrite !filter_cons_False by (intros HPy; specialize (Htie y HPy); lia).
      done.
    + by rewrite filter_cons_True.
Qed.

Lemma sort_insert_filter_other (P : A → Prop) `{∀ x, Decision (P x)} x l :
  ¬ P x → filter P (JS.sort_insert cmp x l) = filter P l.
Proof.
  intros HPx. induction l as [|y l IH]; simpl.
  - by rewrite filter_cons_False.
  - case_match.
    + destruct (decide (P y)).
      * by rewrite !filter_cons_True, IH.
      * by rewrite !filter_cons_False.
    + by rewrite filter_cons_False.
Qed.

Lemma sort_stable (P : A → Prop) `{∀ x, Decision (P x)} l :
  (∀ x y, P x → P y → cmp x y ≤ 0) →
  filter P (JS.sort cmp l) = filter P l.
Proof.
  intros Htie. induction l as [|x l IH]; simpl; [done|].
  destruct (decide (P x)).
  - rewrite sort_insert_filter_tie, filter_cons_True, IH; auto.
  - by rewrite sort_insert_filter_other, filter_cons_False, IH.
Qed.
End Sort.

Lemma filter_none {A} (P : A → Prop) `{∀ x, Decision (P x)} l :
  Forall (λ x, ¬ P x) l → filter P l = [].
Proof. induction 1; [done|]. by rewrite filter_cons_False. Qed.

Lemma filter_all {A} (P : A → Prop) `{∀ x, Decision (P x)} l :
  Forall P l → filter P l = l.
Proof. induction 1 as [|x l Hx Hl IH]; [done|]. by rewrite filter_cons_True, IH. Qed.

Lemma findIndex_found {A} (p : A → Prop) `{∀ x, Decision (p x)} l i x :
  list_find p l = Some (i, x) →
  JS.findIndex p l = Z.of_nat i ∧ ∃ l1 l2,
    l = l1 ++ x :: l2 ∧ length l1 = i ∧ p x ∧ Forall (λ y, ¬ p y) l1.
Proof.
  intros Hfind. split; [unfold JS.findIndex; by rewrite Hfind|].
  apply list_find_Some in Hfind as (Hlookup & Hp & Hfirst).
  exists (take i l), (drop (S i) l). split_and!.
  - by rewrite take_drop_middle.
  - rewrite length_take. apply lookup_lt_Some in Hlookup. lia.
  - done.
  - apply Forall_forall. intros y Hy.
    apply elem_of_take in Hy as (j & Hj & Hlt). by eapply Hfirst.
Qed.

Lemma findIndex_missing {A} (p : A → Prop) `{∀ x, Decision (p x)} l :
  list_find p l = None → JS.findIndex p l = -1 ∧ Forall (λ y, ¬ p y) l.
Proof.
  intros Hfind. split; [unfold JS.findIndex; by rewrite Hfind|].
  by apply list_find_None in Hfind.
Qed.

End JSFacts.

(** ** storageService *)

Module StorageFacts.
Import StorageTerms.

Lemma sort_insert_newest_first x l :
  StronglySorted newer l →
  StronglySorted newer (JS.sort_insert Storage.newest_first x l).
Proof.
  induction 1 as [|y l Hsorted IH Hall]; simpl.
  - repeat constructor.
  - unfold Storage.newest_first at 1. case_match eqn:Hcmp.
    + apply Z.ltb_lt in Hcmp. constructor; [done|].
      rewrite JSFacts.sort_insert_Permutation. constructor; [|done].
      unfold newer. lia.
    + apply Z.ltb_ge in Hcmp. constructor; [by constructor|].
      constructor; [unfold newer; lia|].
      eapply Forall_impl; [done|]. unfold newer. intros z Hz. lia.
Qed.

Lemma sort_newest_first l : StronglySorted newer (JS.sort Storage.newest_first l).
Proof.
  induction l as [|x l IH]; simpl; [constructor|].
  by apply sort_insert_newest_first.
Qed.

(** Sessions with the same [updatedAt] keep their order. *)
Lemma sort_newest_first_stable (time : Z) l :
  filter (λ x, ChatSession.updatedAt x = time) (JS.sort Storage.newest_first l) =
  filter (λ x, ChatSession.updatedAt x = time) l.
Proof.
  apply JSFacts.sort_stable. intros x y Hx Hy. unfold Storage.newest_first. lia.
Qed.

(** The two ways [upsert] goes: the first session with the id is
    overwritten in place, or the session is put in front. *)
Lemma upsert_cases session sessions :
  (∃ l1 old l2,
      sessions = l1 ++ old :: l2 ∧
      ChatSession.id old = ChatSession.id session ∧
      Forall (λ x, ChatSession.id x ≠ ChatSession.id session) l1 ∧
      Storage.upsert session sessions = l1 ++ session :: l2) ∨
  (Forall (λ x, ChatSession.id x ≠ ChatSession.id session) sessions ∧
   Storage.upsert session sessions = session :: sessions).
Proof.
  unfold Storage.upsert.
  destruct (list_find (λ s, ChatSession.id s = ChatSession.id session) sessions)
    as [[i old]|] eqn:Hfind.
  - left. apply JSFacts.findIndex_found in Hfind
      as (-> & l1 & l2 & -> & <- & Hid & Hfirst).
    exists l1, old, l2. split_and!; [done..|].
    replace (0 <=? Z.of_nat (length l1)) with true by (symmetry; apply Z.leb_le; lia).
    rewrite Nat2Z.id. by rewrite insert_app_r_alt, Nat.sub_diag.
  - right. apply JSFacts.findIndex_missing in Hfind as (-> & Hnone). done.
Qed.

Lemma upsert_length_le session sessions :
  (length (Storage.upsert session sessions) ≤ S (length sessions))%nat.
Proof.
  destruct (upsert_cases session sessions)
    as [(l1 & old & l2 & -> & _ & _ & ->) | (_ & ->)];
    rewrite ?length_app; simpl; lia.
Qed.

Lemma elem_of_upsert session sessions : session ∈ Storage.upsert session sessions.
Proof.
  destruct (upsert_cases session sessions)
    as [(l1 & old & l2 & _ & _ & _ & ->) | (_ & ->)]; set_solver.
Qed.

(** A predicate that no session with the id of [session] satisfies
    selects the same sessions before and after [upsert]. *)
Lemma upsert_filter_others (P : ChatSession.t → Prop) `{∀ x, Decision (P x)}
    session sessions :
  (∀ x, P x → ChatSession.id x ≠ ChatSession.id session) →
  filter P (Storage.upsert session sessions) = filter P sessions.
Proof.
  intros Hother.
  destruct (upsert_cases session sessions)
    as [(l1 & old & l2 & -> & Hold & _ & ->) | (_ & ->)].
  - rewrite !filter_app, !filter_cons_False; [done|..]; intros HP;
      by apply Hother in HP.
  - rewrite filter_cons_False; [done|]. intros HP. by apply Hother in HP.
Qed.

Lemma upsert_NoDup session sessions :
  NoDup (ids sessions) → NoDup (ids (Storage.upsert session sessions)).
Proof.
  unfold ids. intros Hnodup.
  destruct (upsert_cases session sessions)
    as [(l1 & old & l2 & -> & Hold & _ & ->) | (Hnone & ->)].
  - rewrite fmap_app, fmap_cons in *. by rewrite <- Hold.
  - rewrite fmap_cons. constructor; [|done].
    intros (x & Hx & Hin)%list_elem_of_fmap.
    rewrite Forall_forall in Hnone. by eapply Hnone.
Qed.

Section WithJSON.
Variable JSON_parse : string → JS.completion (list ChatSession.t).
Variable JSON_stringify : list ChatSession.t → string.

Local Abbreviation getSessions := (Storage.getSessions JSON_parse).
Local Abbreviation saveSession := (Storage.saveSession JSON_parse JSON_stringify).
Local Abbreviation deleteSession := (Storage.deleteSession JSON_parse JSON_stringify).
Local Abbreviation getSessionById := (Storage.getSessionById JSON_parse).

Lemma getSessions_returns ls : ∃ sessions, getSessions ls = JS.Return sessions.
Proof.
  unfold Storage.getSessions.
  destruct (LocalStorage.getItem Storage.STORAGE_KEY ls) as [text|]; simpl;
    [|by eexists].
  destruct (JS.truthy text); [|by eexists].
  destruct (JSON_parse text); by eexists.
Qed.

Lemma saveSession_unfold session ls sessions :
  getSessions ls = JS.Return sessions →
  saveSession session ls =
    JS.Return
      (take 50 (JS.sort Storage.newest_first (Storage.upsert session sessions)),
       LocalStorage.setItem Storage.STORAGE_KEY
         (JSON_stringify
            (take 50 (JS.sort Storage.newest_first (Storage.upsert session sessions))))
         ls).
Proof. intros Hget. unfold Storage.saveSession. by rewrite Hget. Qed.

(** Reading back what was written, for a text the parser accepts and
    that is not empty. *)
Lemma getSessions_setItem ls sessions :
  JS.truthy (JSON_stringify sessions) = true →
  JSON_parse (JSON_stringify sessions) = JS.Return sessions →
  getSessions
    (LocalStorage.setItem Storage.STORAGE_KEY (JSON_stringify sessions) ls)
  = JS.Return sessions.
Proof.
  intros Htruthy Hparse.
  unfold Storage.getSessions, LocalStorage.getItem, LocalStorage.setItem,
    LocalStorage.t.
  rewrite lookup_insert_eq. simpl. by rewrite Htruthy, Hparse.
Qed.

Lemma getSessions_absent ls :
  LocalStorage.getItem Storage.STORAGE_KEY ls = None → getSessions ls = JS.Return [].
Proof. intros Hget. unfold Storage.getSessions. by rewrite Hget. Qed.

Lemma getSessions_present ls text :
  LocalStorage.getItem Storage.STORAGE_KEY ls = Some text →
  getSessions ls =
    if JS.truthy text
    then JS.try_catch (JSON_parse text) (λ _, JS.Return [])
    else JS.Return [].
Proof.
  intros Hget. unfold Storage.getSessions. rewrite Hget. simpl.
  by destruct (JS.truthy text).
Qed.

(** C10.  [getSessions] never throws.  When nothing is stored under
    ['inkweaver_sessions'], or the stored text is not JSON, it returns the
    empty list; otherwise it returns the array the text parses to.  The
    empty text is not JSON ([JSON.parse] throws on it). *)
Theorem getSessions_never_throws ls :
  (∃ e, JSON_parse "" = JS.Throw e) →
  (∃ sessions, getSessions ls = JS.Return sessions) ∧
  (LocalStorage.getItem Storage.STORAGE_KEY ls = None →
   getSessions ls = JS.Return []) ∧
  (∀ text e,
     LocalStorage.getItem Storage.STORAGE_KEY ls = Some text →
     JSON_parse text = JS.Throw e →
     getSessions ls = JS.Return []) ∧
  (∀ text sessions,
     LocalStorage.getItem Storage.STORAGE_KEY ls = Some text →
     JSON_parse text = JS.Return sessions →
     getSessions ls = JS.Return sessions).
Proof.
  intros [e0 Hempty]. split_and!.
  - apply getSessions_returns.
  - apply getSessions_absent.
  - intros text e Hget Hparse. rewrite (getSessions_present _ _ Hget), Hparse.
    by destruct (JS.truthy text).
  - intros text sessions Hget Hparse. rewrite (getSessions_present _ _ Hget).
    destruct text as [|c text]; [congruence|]. simpl. by rewrite Hparse.
Qed.

(** C3.  Whatever was stored and whatever session is saved, [saveSession]
    returns a list of at most 50 sessions, and that list is what it writes
    under the storage key. *)
Theorem saveSession_at_most_50 session ls :
  ∃ trimmed,
    saveSession session ls =
      JS.Return
        (trimmed,
         LocalStorage.setItem Storage.STORAGE_KEY (JSON_stringify trimmed) ls) ∧
    LocalStorage.getItem Storage.STORAGE_KEY
      (LocalStorage.setItem Storage.STORAGE_KEY (JSON_stringify trimmed) ls)
      = Some (JSON_stringify trimmed) ∧
    (length trimmed ≤ 50)%nat.
Proof.
  destruct (getSessions_returns ls) as [sessions Hget].
  eexists. split_and!.
  - by apply saveSession_unfold.
  - unfold LocalStorage.getItem, LocalStorage.setItem, LocalStorage.t.
    apply lookup_insert_eq.
  - rewrite length_take. lia.
Qed.

(** C8.  The list [saveSession] returns and writes is sorted by
    [updatedAt], newest first.  It is the front of a rearrangement of the
    updated list, 50 long when that list is longer, and no session left out
    is newer than a session kept. *)
Theorem saveSession_newest_first session ls :
  ∃ sessions trimmed dropped,
    getSessions ls = JS.Return sessions ∧
    saveSession session ls =
      JS.Return
        (trimmed,
         LocalStorage.setItem Storage.STORAGE_KEY (JSON_stringify trimmed) ls) ∧
    StronglySorted newer trimmed ∧
    trimmed ++ dropped ≡ₚ Storage.upsert session sessions ∧
    length trimmed = (50 `min` length (Storage.upsert session sessions))%nat ∧
    (∀ kept gone,
       kept ∈ trimmed → gone ∈ dropped →
       ChatSession.updatedAt gone ≤ ChatSession.updatedAt kept).
Proof.
  destruct (getSessions_returns ls) as [sessions Hget].
  pose proof (sort_newest_first (Storage.upsert session sessions)) as Hsorted.
  rewrite <- (take_drop 50 (JS.sort _ _)) in Hsorted.
  apply StronglySorted_app in Hsorted as (Hacross & Hkept & _).
  exists sessions, (take 50 (JS.sort Storage.newest_first (Storage.upsert session sessions))),
    (drop 50 (JS.sort Storage.newest_first (Storage.upsert session sessions))).
  split_and!; [done | by apply saveSession_unfold | done | | | done].
  - by rewrite take_drop, JSFacts.sort_Permutation.
  - by rewrite length_take, JSFacts.sort_length.
Qed.

(** C9.  [saveSession] keeps ids unique.  If no two stored sessions share
    an id, no two sessions of the list it writes do: a stored session with
    the id of the saved one is overwritten in place, otherwise the saved
    session is added in front; the list is then sorted and cut. *)
Theorem saveSession_keeps_ids_unique session ls sessions :
  getSessions ls = JS.Return sessions →
  NoDup (ids sessions) →
  ∃ trimmed,
    saveSession session ls =
      JS.Return
        (trimmed,
         LocalStorage.setItem Storage.STORAGE_KEY (JSON_stringify trimmed) ls) ∧
    NoDup (ids trimmed) ∧
    trimmed = take 50 (JS.sort Storage.newest_first (Storage.upsert session sessions)) ∧
    length (filter (λ x, ChatSession.id x = ChatSession.id session)
              (Storage.upsert session sessions)) = 1%nat ∧
    ((∃ l1 old l2,
        sessions = l1 ++ old :: l2 ∧
        ChatSession.id old = ChatSession.id session ∧
        Storage.upsert session sessions = l1 ++ session :: l2) ∨
     ((ChatSession.id session ∉ ids sessions) ∧
      Storage.upsert session sessions = session :: sessions)).
Proof.
  intros Hget Hnodup. eexists. split_and!.
  - by apply saveSession_unfold.
  - unfold ids. rewrite fmap_take. eapply sublist_NoDup; [|apply sublist_take].
    rewrite JSFacts.sort_Permutation. by apply upsert_NoDup.
  - done.
  - apply upsert_NoDup with (session := session) in Hnodup.
    apply (NoDup_fmap_1 ChatSession.id) in Hnodup as Hnodup'.
    assert (filter (λ x, ChatSession.id x = ChatSession.id session)
              (Storage.upsert session sessions) ≡ₚ [session]) as ->; [|done].
    apply NoDup_Permutation.
    + by apply NoDup_filter.
    + apply NoDup_singleton.
    + intros x. rewrite list_elem_of_filter, list_elem_of_singleton. split.
      * intros [Hid Hx]. pose proof (elem_of_upsert session sessions) as Hs.
        apply list_elem_of_lookup in Hx as [i Hi].
        apply list_elem_of_lookup in Hs as [j Hj].
        assert (i = j) as ->; [|congruence].
        eapply NoDup_lookup; [exact Hnodup|unfold ids..].
        -- by rewrite list_lookup_fmap, Hi.
        -- rewrite list_lookup_fmap, Hj. simpl. by rewrite Hid.
      * intros ->. split; [done|apply elem_of_upsert].
  - destruct (upsert_cases session sessions)
      as [(l1 & old & l2 & Hsplit & Hold & _ & Hup) | (Hnone & Hup)].
    + left. by exists l1, old, l2.
    + right. split; [|done]. unfold ids.
      intros (x & Hx & Hin)%list_elem_of_fmap.
      rewrite Forall_forall in Hnone. by eapply Hnone.
Qed.

(** C6.  [deleteSession] takes out the sessions with the given id and
    nothing else: what it returns and writes is the stored list without
    them, the remaining sessions as they were and in their order.  When no
    stored session has the id, the list is the stored one. *)
Theorem deleteSession_frame sessionId ls :
  ∃ sessions newSessions removed,
    getSessions ls = JS.Return sessions ∧
    deleteSession sessionId ls =
      JS.Return
        (newSessions,
         LocalStorage.setItem Storage.STORAGE_KEY (JSON_stringify newSessions) ls) ∧
    newSessions `sublist_of` sessions ∧
    sessions ≡ₚ newSessions ++ removed ∧
    Forall (λ x, ChatSession.id x ≠ sessionId) newSessions ∧
    Forall (λ x, ChatSession.id x = sessionId) removed ∧
    (∀ x, x ∈ newSessions ↔ x ∈ sessions ∧ ChatSession.id x ≠ sessionId) ∧
    (Forall (λ x, ChatSession.id x ≠ sessionId) sessions → newSessions = sessions).
Proof.
  destruct (getSessions_returns ls) as [sessions Hget].
  exists sessions, (filter (λ s, ChatSession.id s ≠ sessionId) sessions),
    (filter (λ s, ¬ ChatSession.id s ≠ sessionId) sessions).
  split_and!.
  - done.
  - unfold Storage.deleteSession. by rewrite Hget.
  - apply sublist_filter.
  - by rewrite filter_app_complement.
  - apply Forall_forall. by intros x [Hx _]%list_elem_of_filter.
  - apply Forall_forall. intros x [Hx _]%list_elem_of_filter.
    by destruct (decide (ChatSession.id x = sessionId)).
  - intros x. rewrite list_elem_of_filter. tauto.
  - apply JSFacts.filter_all.
Qed.

(** The sessions of the updated list that carry the id of the saved
    session, when at most one stored session carried it: the saved session
    alone. *)
Lemma upsert_filter_owner session sessions :
  (length (filter (λ y, ChatSession.id y = ChatSession.id session) sessions) ≤ 1)%nat →
  filter (λ y, ChatSession.id y = ChatSession.id session)
    (Storage.upsert session sessions) = [session].
Proof.
  intros Hone.
  destruct (upsert_cases session sessions)
    as [(l1 & old & l2 & -> & Hold & Hl1 & ->) | (Hnone & ->)].
  - rewrite filter_app, filter_cons_True, length_app in Hone by done.
    simpl in Hone.
    assert (filter (λ y, ChatSession.id y = ChatSession.id session) l2 = [])
      as Hl2 by (apply length_zero_iff_nil; lia).
    rewrite filter_app, filter_cons_True, Hl2 by done.
    by rewrite (JSFacts.filter_none _ l1).
  - rewrite filter_cons_True by done.
    by rewrite (JSFacts.filter_none _ sessions).
Qed.

Lemma upsert_owner session sessions x :
  (length (filter (λ y, ChatSession.id y = ChatSession.id session) sessions) ≤ 1)%nat →
  x ∈ Storage.upsert session sessions →
  ChatSession.id x = ChatSession.id session →
  x = session.
Proof.
  intros Hone Hx Hid.
  assert (x ∈ filter (λ y, ChatSession.id y = ChatSession.id session)
                (Storage.upsert session sessions)) as Hin
    by by apply list_elem_of_filter.
  rewrite upsert_filter_owner in Hin by done. by apply list_elem_of_singleton in Hin.
Qed.

(** The saved session survives the cut when fewer than 50 other sessions
    are at least as new. *)
Lemma saved_within_cut session sessions :
  (length (filter (λ y, ChatSession.id y = ChatSession.id session) sessions) ≤ 1)%nat →
  (length (filter (λ y, ChatSession.id y ≠ ChatSession.id session ∧
                        (ChatSession.updatedAt session ≤ ChatSession.updatedAt y)%Z)
             sessions) < 50)%nat →
  session ∈ take 50 (JS.sort Storage.newest_first (Storage.upsert session sessions)).
Proof.
  intros Hone Hrank.
  set (P := λ y, ChatSession.id y ≠ ChatSession.id session ∧
                 ChatSession.updatedAt session ≤ ChatSession.updatedAt y).
  set (sorted := JS.sort Storage.newest_first (Storage.upsert session sessions)).
  assert (session ∈ sorted) as Hin
    by (apply JSFacts.elem_of_sort, elem_of_upsert).
  destruct (list_elem_of_split _ _ Hin) as (front & back & Hsplit).
  assert (Forall P front) as HP.
  { apply Forall_forall. intros y Hy. split.
    - intros Hid.
      assert (filter (λ z, ChatSession.id z = ChatSession.id session) sorted
                ≡ₚ [session]) as Hown.
      { unfold sorted. rewrite JSFacts.sort_Permutation.
        by rewrite upsert_filter_owner. }
      apply Permutation_length in Hown.
      rewrite Hsplit, filter_app, filter_cons_True, length_app in Hown by done.
      simpl in Hown.
      assert (y ∈ filter (λ z, ChatSession.id z = ChatSession.id session) front)
        as Hyin by by apply list_elem_of_filter.
      destruct (filter _ front); [by apply elem_of_nil in Hyin|simpl in Hown; lia].
    - pose proof (sort_newest_first (Storage.upsert session sessions)) as Hsorted.
      fold sorted in Hsorted. rewrite Hsplit in Hsorted.
      eapply (StronglySorted_app_1_elem_of _ _ _ y session) in Hsorted;
        [done|done|set_solver]. }
  assert (length front < 50)%nat as Hlen.
  { eapply Nat.le_lt_trans; [|exact Hrank].
    rewrite <- (upsert_filter_others P session sessions) by (by intros y [Hy _]).
    rewrite <- (JSFacts.sort_Permutation Storage.newest_first (Storage.upsert _ _)).
    fold sorted. rewrite Hsplit, filter_app, length_app.
    rewrite (JSFacts.filter_all P front) by done. lia. }
  apply elem_of_take. exists (length front). split; [|done].
  rewrite Hsplit. by rewrite list_lookup_middle.
Qed.

(** C4.  Saving and then reading by id gives the saved session back,
    provided at most one stored session has its id (the one it replaces),
    fewer than 50 other stored sessions are at least as new, and the
    written list is read back as it was written. *)
Theorem saveSession_getSessionById session ls sessions :
  getSessions ls = JS.Return sessions →
  (length (filter (λ y, ChatSession.id y = ChatSession.id session) sessions) ≤ 1)%nat →
  (length (filter (λ y, ChatSession.id y ≠ ChatSession.id session ∧
                        (ChatSession.updatedAt session ≤ ChatSession.updatedAt y)%Z)
             sessions) < 50)%nat →
  (∃ e, JSON_parse "" = JS.Throw e) →
  JSON_parse
    (JSON_stringify
       (take 50 (JS.sort Storage.newest_first (Storage.upsert session sessions))))
  = JS.Return (take 50 (JS.sort Storage.newest_first (Storage.upsert session sessions))) →
  ∃ trimmed ls',
    saveSession session ls = JS.Return (trimmed, ls') ∧
    getSessionById (ChatSession.id session) ls' = JS.Return (Some session).
Proof.
  intros Hget Hone Hrank [e0 Hempty] Hround.
  pose proof (saved_within_cut session sessions Hone Hrank) as Hin.
  set (trimmed := take 50 (JS.sort Storage.newest_first (Storage.upsert session sessions)))
    in *.
  eexists trimmed, _. split; [by apply saveSession_unfold|].
  unfold Storage.getSessionById. fold trimmed.
  rewrite getSessions_setItem; [|destruct (JSON_stringify trimmed); [congruence|done]|done].
  simpl. f_equal. unfold JS.find.
  destruct (list_find_elem_of (λ s, ChatSession.id s = ChatSession.id session)
              trimmed session Hin eq_refl) as [[i x] Hfind].
  rewrite Hfind. simpl. f_equal.
  apply list_find_Some in Hfind as (Hi & Hid & _).
  apply (upsert_owner session sessions); [done| |done].
  apply (JSFacts.elem_of_sort Storage.newest_first).
  eapply elem_of_sublist; [|apply sublist_take].
  by eapply list_elem_of_lookup_2.
Qed.

End WithJSON.
End StorageFacts.

(** ** geminiService: the friendly error message *)

Module ErrorFacts.
Import ErrorTerms.

Lemma getFriendlyErrorMessage_first_match error :
  Gemini.getFriendlyErrorMessage error =
    match first_match (msg error) with
    | Some check => check.2
    | None => generic error
    end.
Proof.
  unfold Gemini.getFriendlyErrorMessage, first_match, checks, matches, generic.
  fold (msg error). simpl.
  destruct (JS.includes (msg error) "process is not defined"); [done|].
  destruct (JS.includes (msg error) "403"); [done|].
  destruct (JS.includes (msg error) "PERMISSION_DENIED"); [done|].
  destruct (JS.includes (msg error) "429"); [done|].
  destruct (JS.includes (msg error) "RESOURCE_EXHAUSTED"); [done|].
  destruct (JS.includes (msg error) "Safety"); [done|].
  destruct (JS.includes (msg error) "API_KEY"); [done|].
  simpl. by destruct (JS.message error) as [[|c m]|].
Qed.

Lemma find_first {A} (p : A → bool) (l : list A) i x :
  l !! i = Some x → p x = true →
  (∀ j y, (j < i)%nat → l !! j = Some y → p y = false) →
  List.find p l = Some x.
Proof.
  revert i. induction l as [|z l IH]; intros i Hi Hx Hbefore; [done|].
  destruct i as [|i]; simpl in *.
  - injection Hi as ->. by rewrite Hx.
  - rewrite (Hbefore 0%nat z) by (done || lia).
    apply (IH i); [done..|]. intros j y Hj Hy. apply (Hbefore (S j)); [lia|done].
Qed.

(** C7.  [getFriendlyErrorMessage] searches one text, the error's
    [toString()] followed by its JSON text when it is an object, and goes
    through its checks in a fixed order: the configuration check, then
    403 or PERMISSION_DENIED, then 429 or RESOURCE_EXHAUSTED, then Safety,
    then API_KEY.  It returns the message of the first check the text
    triggers, whatever later checks it also triggers, and a generic
    [System Error: ...] message built from [error.message] when it
    triggers none.  Two errors with the same text get the same message
    when the text triggers a check or their [message] is the same. *)
Theorem getFriendlyErrorMessage_priority error :
  (∀ i check,
     checks !! i = Some check →
     matches (msg error) check = true →
     (∀ j earlier, (j < i)%nat → checks !! j = Some earlier →
                   matches (msg error) earlier = false) →
     Gemini.getFriendlyErrorMessage error = check.2) ∧
  ((∀ check, check ∈ checks → matches (msg error) check = false) →
   Gemini.getFriendlyErrorMessage error = generic error) ∧
  (∀ other,
     msg other = msg error →
     (∃ check, check ∈ checks ∧ matches (msg error) check = true) →
     Gemini.getFriendlyErrorMessage other = Gemini.getFriendlyErrorMessage error) ∧
  (∀ other,
     msg other = msg error →
     JS.message other = JS.message error →
     Gemini.getFriendlyErrorMessage other = Gemini.getFriendlyErrorMessage error).
Proof.
  split_and!.
  - intros i check Hi Hmatch Hfirst.
    rewrite getFriendlyErrorMessage_first_match.
    unfold first_match. by rewrite (find_first _ _ i check).
  - intros Hnone. rewrite getFriendlyErrorMessage_first_match.
    destruct (first_match (msg error)) as [check|] eqn:Hfind; [|done].
    apply List.find_some in Hfind as [Hin Hmatch].
    apply list_elem_of_In in Hin. rewrite Hnone in Hmatch; done.
  - intros other Hmsg (check & Hin & Hmatch).
    rewrite !getFriendlyErrorMessage_first_match, Hmsg.
    destruct (first_match (msg error)) as [found|] eqn:Hfind; [done|].
    apply list_elem_of_In in Hin.
    eapply List.find_none in Hfind; [|done]. congruence.
  - intros other Hmsg Hmessage.
    rewrite !getFriendlyErrorMessage_first_match, Hmsg.
    unfold generic. by rewrite Hmessage.
Qed.

End ErrorFacts.

(** ** geminiService: the fallback chain *)

Module ChainFacts.
Import ChainTerms.

Lemma isRecoverable_marks error :
  Gemini.isRecoverable error = true ↔
  ∃ mark, mark ∈ recoverable_marks ∧
          ∃ before after, Gemini.errStr error = before +:+ mark +:+ after.
Proof.
  unfold Gemini.isRecoverable, recoverable_marks.
  rewrite !orb_true_iff, !JSFacts.includes_true_iff. split.
  - intros [[[[[Hm | Hm] | Hm] | Hm] | Hm] | Hm]; eexists;
      (split; [|exact Hm]); repeat first [apply list_elem_of_here | apply list_elem_of_further].
  - intros (mark & Hmark & Hm).
    repeat (apply elem_of_cons in Hmark as [-> | Hmark]; [tauto|]).
    by apply elem_of_nil in Hmark.
Qed.

Section Callbacks.
Context {St : Type}.
Variable onChunk : string → St → St.
Variable onSources : option (list Source.t → St → St).
Variable getAI : JS.completion unit.
Variable ai : string → Stream.t.

Local Abbreviation processChunk := (Gemini.processChunk onChunk onSources).
Local Abbreviation tryModels := (Gemini.tryModels onChunk onSources ai).
Local Abbreviation streamResponse :=
  (Gemini.streamResponse onChunk onSources getAI ai).
Local Abbreviation retried := (ChainTerms.retried ai).
Local Abbreviation retriedb := (ChainTerms.retriedb ai).
Local Abbreviation chain := (ChainTerms.chain ai).
Local Abbreviation delivered := (ChainTerms.delivered onChunk onSources ai).
Local Abbreviation last_error := (ChainTerms.last_error ai).

Lemma retriedb_true modelName : retriedb modelName = true ↔ retried modelName.
Proof.
  unfold retriedb, retried. destruct (Stream.failure (ai modelName)) as [error|].
  - split; [by exists error | by intros (e & [= <-] & He)].
  - split; [done | by intros (e & [=] & _)].
Qed.

Lemma chain_lookup models i modelName :
  chain models !! i = Some modelName ↔
  models !! i = Some modelName ∧
  ∀ j earlier, (j < i)%nat → models !! j = Some earlier → retried earlier.
Proof.
  revert i. induction models as [|m0 rest IH]; intros i; simpl.
  - rewrite !lookup_nil. by split; [|intros []].
  - destruct i as [|i]; simpl.
    + split; [intros [= ->]; split; [done|lia] | by intros []].
    + destruct (retriedb m0) eqn:Hm0.
      * rewrite IH. apply retriedb_true in Hm0. split.
        -- intros [Hi Hbefore]. split; [done|].
           intros [|j] earlier Hj Hearlier; simpl in *; [by injection Hearlier as <-|].
           apply (Hbefore j); [lia|done].
        -- intros [Hi Hbefore]. split; [done|].
           intros j earlier Hj Hearlier. apply (Hbefore (S j)); [lia|done].
      * rewrite lookup_nil. split; [done|]. intros [_ Hbefore].
        assert (retried m0) as Hr by (apply (Hbefore 0%nat); [lia|done]).
        apply retriedb_true in Hr. congruence.
Qed.

Lemma chain_prefix models : chain models `prefix_of` models.
Proof.
  induction models as [|m0 rest IH]; simpl; [done|].
  destruct (retriedb m0); [by apply prefix_cons|].
  by exists rest.
Qed.

Lemma tryModels_attempted models lastError w :
  (tryModels models lastError w).2.1 = w.1 ++ chain models.
Proof.
  revert lastError w. induction models as [|m0 rest IH]; intros lastError w; simpl.
  - rewrite app_nil_r. by destruct lastError.
  - unfold Gemini.processStream, retriedb.
    destruct (Stream.failure (ai m0)) as [error|]; [|done].
    destruct (Gemini.isRecoverable error); simpl; [|done].
    rewrite IH. simpl. by rewrite <- app_assoc.
Qed.

(** The loop ends at a model whose stream completes. *)
Lemma tryModels_completed models lastError attempted st i modelName :
  chain models !! i = Some modelName →
  Stream.failure (ai modelName) = None →
  tryModels models lastError (attempted, st) =
    (JS.Return tt,
     (attempted ++ take (S i) models, delivered st (take (S i) models))).
Proof.
  revert lastError attempted st i.
  induction models as [|m0 rest IH]; intros lastError attempted st i Hi Hdone;
    [done|].
  simpl in Hi. destruct i as [|i]; simpl in Hi.
  - injection Hi as ->. simpl. unfold Gemini.processStream. rewrite Hdone.
    by rewrite take_0.
  - destruct (retriedb m0) eqn:Hm0; [|by rewrite lookup_nil in Hi].
    unfold retriedb in Hm0. simpl. unfold Gemini.processStream.
    destruct (Stream.failure (ai m0)) as [error|]; [|done].
    rewrite Hm0. simpl. rewrite (IH _ _ _ i Hi Hdone).
    by rewrite <- app_assoc.
Qed.

(** The loop ends at a model that fails with an error that is not
    recoverable, after reporting the error. *)
Lemma tryModels_fatal models lastError attempted st i modelName error :
  chain models !! i = Some modelName →
  Stream.failure (ai modelName) = Some error →
  Gemini.isRecoverable error = false →
  tryModels models lastError (attempted, st) =
    (JS.Return tt,
     (attempted ++ take (S i) models,
      onChunk (report error) (delivered st (take (S i) models)))).
Proof.
  revert lastError attempted st i.
  induction models as [|m0 rest IH]; intros lastError attempted st i Hi Hfail Hfatal;
    [done|].
  simpl in Hi. destruct i as [|i]; simpl in Hi.
  - injection Hi as ->. simpl. unfold Gemini.processStream. rewrite Hfail, Hfatal.
    by rewrite take_0.
  - destruct (retriedb m0) eqn:Hm0; [|by rewrite lookup_nil in Hi].
    unfold retriedb in Hm0. simpl. unfold Gemini.processStream.
    destruct (Stream.failure (ai m0)) as [error0|]; [|done].
    rewrite Hm0. simpl. rewrite (IH _ _ _ i Hi Hfail Hfatal).
    by rewrite <- app_assoc.
Qed.

(** When every model is retried, the loop runs out and the last error is
    reported. *)
Lemma tryModels_exhausted models lastError attempted st :
  Forall retried models →
  tryModels models lastError (attempted, st) =
    match last_error lastError models with
    | Some error =>
        (JS.Return tt,
         (attempted ++ models, onChunk (report error) (delivered st models)))
    | None =>
        (JS.Throw Gemini.null_dereference, (attempted ++ models, delivered st models))
    end.
Proof.
  revert lastError attempted st.
  induction models as [|m0 rest IH]; intros lastError attempted st Hall.
  - simpl. rewrite app_nil_r. by destruct lastError.
  - apply Forall_cons in Hall as [(error & Hfail & Hrec) Hall]. simpl.
    unfold Gemini.processStream. rewrite Hfail, Hrec. simpl.
    by rewrite (IH _ _ _ Hall), <- app_assoc.
Qed.

(** The call either stops at [getAI()] or runs the loop. *)
Lemma streamResponse_cases st :
  (∃ error, getAI = JS.Throw error ∧
            streamResponse st = (JS.Throw error, ([], st))) ∨
  (getAI = JS.Return tt ∧
   streamResponse st = tryModels Gemini.modelsToTry None ([], st)).
Proof.
  unfold Gemini.streamResponse. destruct getAI as [[]|error]; [by right|].
  left. by exists error.
Qed.

Lemma streamResponse_attempted st modelName i :
  (streamResponse st).2.1 !! i = Some modelName ↔
  getAI = JS.Return tt ∧ chain Gemini.modelsToTry !! i = Some modelName.
Proof.
  destruct (streamResponse_cases st) as [(error & Hget & ->) | (Hget & ->)].
  - cbn [fst snd]. rewrite lookup_nil, Hget. by split; [|intros [? _]].
  - rewrite tryModels_attempted. cbn [fst snd app]. by split; [|intros [_ ?]].
Qed.

Lemma streamResponse_attempted_prefix st :
  (streamResponse st).2.1 `prefix_of` Gemini.modelsToTry.
Proof.
  destruct (streamResponse_cases st) as [(error & _ & ->) | (_ & ->)].
  - apply prefix_nil.
  - rewrite tryModels_attempted. apply chain_prefix.
Qed.

Lemma lookup_length_take {A} (l : list A) i x :
  l !! i = Some x → length (take (S i) l) = S i.
Proof. intros Hi%lookup_lt_Some. rewrite length_take. lia. Qed.

(** C1.  [streamResponse] creates its chats in the order of the list
    'gemini-3-pro-preview', 'gemini-3-flash-preview',
    'gemini-2.5-flash-latest'.  Once the client is built, a model is tried
    exactly when every model before it failed with a recoverable error,
    and when the stream of a model completes the call returns with that
    model as the last one tried. *)
Theorem streamResponse_model_order st :
  Gemini.modelsToTry =
    ["gemini-3-pro-preview"; "gemini-3-flash-preview"; "gemini-2.5-flash-latest"] ∧
  (streamResponse st).2.1 `prefix_of` Gemini.modelsToTry ∧
  (∀ i modelName,
     (streamResponse st).2.1 !! i = Some modelName ↔
     getAI = JS.Return tt ∧
     Gemini.modelsToTry !! i = Some modelName ∧
     ∀ j earlier,
       (j < i)%nat → Gemini.modelsToTry !! j = Some earlier →
       ∃ error, Stream.failure (ai earlier) = Some error ∧
                Gemini.isRecoverable error = true) ∧
  (∀ i modelName,
     (streamResponse st).2.1 !! i = Some modelName →
     Stream.failure (ai modelName) = None →
     streamResponse st =
       (JS.Return tt,
        (take (S i) Gemini.modelsToTry, delivered st (take (S i) Gemini.modelsToTry))) ∧
     length (streamResponse st).2.1 = S i).
Proof.
  split_and!.
  - done.
  - apply streamResponse_attempted_prefix.
  - intros i modelName. rewrite streamResponse_attempted.
    rewrite (chain_lookup Gemini.modelsToTry i modelName). done.
  - intros i modelName Hi Hdone.
    apply streamResponse_attempted in Hi as [Hget Hi].
    assert (streamResponse st =
              (JS.Return tt,
               (take (S i) Gemini.modelsToTry,
                delivered st (take (S i) Gemini.modelsToTry)))) as Hrun.
    { destruct (streamResponse_cases st) as [(error & Hthrow & _) | (_ & ->)];
        [congruence|].
      apply (tryModels_completed _ None [] st i modelName Hi Hdone). }
    split; [done|]. rewrite Hrun. cbn [fst snd].
    apply chain_lookup in Hi as [Hi _]. by eapply lookup_length_take.
Qed.

(** C2.  A failure is recoverable exactly when [error.toString()]
    followed by the JSON text of the error contains "403", "429", "503",
    "not found", "PERMISSION_DENIED" or "RESOURCE_EXHAUSTED".  After a
    recoverable failure the next model of the list, if there is one, is
    tried.  After any other failure [streamResponse] passes two newlines
    and the friendly message to [onChunk] and returns: the failed model is
    the last one tried. *)
Theorem streamResponse_recoverable st :
  (∀ error,
     Gemini.isRecoverable error = true ↔
     ∃ mark, mark ∈ recoverable_marks ∧
             ∃ before after, Gemini.errStr error = before +:+ mark +:+ after) ∧
  (∀ i modelName error next,
     (streamResponse st).2.1 !! i = Some modelName →
     Stream.failure (ai modelName) = Some error →
     Gemini.isRecoverable error = true →
     Gemini.modelsToTry !! S i = Some next →
     (streamResponse st).2.1 !! S i = Some next) ∧
  (∀ i modelName error,
     (streamResponse st).2.1 !! i = Some modelName →
     Stream.failure (ai modelName) = Some error →
     Gemini.isRecoverable error = false →
     streamResponse st =
       (JS.Return tt,
        (take (S i) Gemini.modelsToTry,
         onChunk (Gemini.newline +:+ Gemini.newline +:+
                  Gemini.getFriendlyErrorMessage error)
           (delivered st (take (S i) Gemini.modelsToTry)))) ∧
     length (streamResponse st).2.1 = S i).
Proof.
  split_and!.
  - apply isRecoverable_marks.
  - intros i modelName error next Hi Hfail Hrec Hnext.
    apply streamResponse_attempted in Hi as [Hget Hi].
    apply streamResponse_attempted. split; [done|].
    apply chain_lookup in Hi as [Hi Hbefore]. apply chain_lookup. split; [done|].
    intros j earlier Hj Hearlier. destruct (decide (j = i)) as [-> | Hne].
    + assert (earlier = modelName) as -> by congruence. by exists error.
    + apply (Hbefore j); [lia|done].
  - intros i modelName error Hi Hfail Hfatal.
    apply streamResponse_attempted in Hi as [Hget Hi].
    assert (streamResponse st =
              (JS.Return tt,
               (take (S i) Gemini.modelsToTry,
                onChunk (report error)
                  (delivered st (take (S i) Gemini.modelsToTry))))) as Hrun.
    { destruct (streamResponse_cases st) as [(error' & Hthrow & _) | (_ & ->)];
        [congruence|].
      apply (tryModels_fatal _ None [] st i modelName error Hi Hfail Hfatal). }
    split; [done|]. rewrite Hrun. cbn [fst snd].
    apply chain_lookup in Hi as [Hi _]. by eapply lookup_length_take.
Qed.

(** Once the client is built [streamResponse] returns: the list of models
    is not empty, so an error has been caught when the loop runs out. *)
Lemma streamResponse_returns st :
  getAI = JS.Return tt → ∃ w, streamResponse st = (JS.Return tt, w).
Proof.
  intros Hget. unfold Gemini.streamResponse, Gemini.modelsToTry. rewrite Hget.
  simpl. unfold Gemini.processStream.
  repeat (match goal with
          | |- context [Stream.failure (ai ?m)] =>
              destruct (Stream.failure (ai m)) as [?error|]; [|by eexists]
          | |- context [Gemini.isRecoverable ?e] =>
              destruct (Gemini.isRecoverable e); simpl; [|by eexists]
          end).
  by eexists.
Qed.

End Callbacks.
End ChainFacts.

(** ** geminiService and App: the streamed text *)

Module StreamFacts.
Import StreamTerms.

Lemma join_app ts1 ts2 : join (ts1 ++ ts2) = join ts1 +:+ join ts2.
Proof.
  induction ts1 as [|t ts1 IH]; simpl; [done|].
  rewrite IH. unfold String.append at 1 3 4.
  induction t as [|c t IHt]; simpl; [done|]. by rewrite IHt.
Qed.

Lemma append_nil_r (s : string) : s +:+ "" = s.
Proof. induction s as [|c s IH]; [done|]. by rewrite JSFacts.append_String, IH. Qed.

Lemma append_assoc (s1 s2 s3 : string) : (s1 +:+ s2) +:+ s3 = s1 +:+ (s2 +:+ s3).
Proof.
  induction s1 as [|c s1 IH]; [done|]. by rewrite !JSFacts.append_String, IH.
Qed.

Lemma chunk_calls_app log1 log2 :
  chunk_calls (log1 ++ log2) = chunk_calls log1 ++ chunk_calls log2.
Proof. apply omap_app. Qed.

Lemma replay_app {St} onChunk onSources log1 log2 (st : St) :
  replay onChunk onSources (log1 ++ log2) st =
  replay onChunk onSources log2 (replay onChunk onSources log1 st).
Proof. apply foldl_app. Qed.

Lemma record_processChunk log chunk :
  Gemini.processChunk record_chunk (Some record_sources) log chunk =
  log ++ Gemini.processChunk record_chunk (Some record_sources) [] chunk.
Proof.
  unfold Gemini.processChunk, record_chunk, record_sources.
  destruct (JS.truthy_opt (Chunk.text chunk)),
    (Chunk.groundingChunks chunk) as [groundingChunks|];
    simpl; rewrite ?app_nil_r; try done;
    destruct (0 <? length (omap Gemini.web_source groundingChunks))%nat;
    simpl; rewrite ?app_nil_r, <- ?app_assoc; done.
Qed.

Lemma record_foldl log chunks :
  foldl (Gemini.processChunk record_chunk (Some record_sources)) log chunks =
  log ++ calls chunks.
Proof.
  unfold calls. revert log. induction chunks as [|chunk chunks IH]; intros log; simpl.
  - by rewrite app_nil_r.
  - rewrite IH, (IH (Gemini.processChunk _ _ [] chunk)), app_assoc.
    by rewrite <- record_processChunk.
Qed.

Lemma calls_cons chunk chunks :
  calls (chunk :: chunks) = calls [chunk] ++ calls chunks.
Proof. unfold calls at 1. simpl. by rewrite record_foldl. Qed.

(** A chunk with a non-empty text gives one call of [onChunk], with that
    text; any other chunk gives none. *)
Lemma chunk_calls_one chunk :
  chunk_calls (calls [chunk]) = option_list (chunk_text chunk).
Proof.
  unfold calls, chunk_text. simpl.
  unfold Gemini.processChunk, record_chunk, record_sources.
  destruct (Chunk.text chunk) as [[|c text]|],
    (Chunk.groundingChunks chunk) as [groundingChunks|]; simpl; try done;
    by destruct (0 <? length (omap Gemini.web_source groundingChunks))%nat.
Qed.

Lemma chunk_calls_calls chunks : chunk_calls (calls chunks) = texts chunks.
Proof.
  induction chunks as [|chunk chunks IH]; [done|].
  rewrite calls_cons, chunk_calls_app, chunk_calls_one, IH.
  unfold texts. simpl. by destruct (chunk_text chunk).
Qed.

(** Whatever the callbacks are, [processStream] makes the recorded calls
    on them. *)
Lemma processChunk_replay {St} onChunk onSources (st : St) chunk :
  Gemini.processChunk onChunk onSources st chunk =
  replay onChunk onSources (calls [chunk]) st.
Proof.
  unfold calls. simpl.
  unfold Gemini.processChunk, record_chunk, record_sources.
  destruct (JS.truthy_opt (Chunk.text chunk)),
    (Chunk.groundingChunks chunk) as [groundingChunks|], onSources as [callback|];
    simpl; try done;
    by destruct (0 <? length (omap Gemini.web_source groundingChunks))%nat.
Qed.

Lemma foldl_processChunk_replay {St} onChunk onSources (st : St) chunks :
  foldl (Gemini.processChunk onChunk onSources) st chunks =
  replay onChunk onSources (calls chunks) st.
Proof.
  revert st. induction chunks as [|chunk chunks IH]; intros st; [done|].
  rewrite calls_cons, replay_app, <- processChunk_replay. simpl. apply IH.
Qed.

Lemma tryModels_replay {St} onChunk onSources ai models lastError attempted (st : St) :
  (Gemini.tryModels onChunk onSources ai models lastError (attempted, st)).2.2 =
  replay onChunk onSources (all_calls ai models lastError) st.
Proof.
  revert lastError attempted st.
  induction models as [|m0 rest IH]; intros lastError attempted st; simpl.
  - by destruct lastError.
  - unfold Gemini.processStream. rewrite replay_app, <- foldl_processChunk_replay.
    destruct (Stream.failure (ai m0)) as [error|]; [|done].
    destruct (Gemini.isRecoverable error); simpl; [apply IH|done].
Qed.

(** *** The callbacks of [processResponse] *)

Lemma update_bot_lookup botMsgId f prev i :
  App.update_bot botMsgId f prev !! i =
  (λ m, if decide (Message.id m = botMsgId) then f m else m) <$> prev !! i.
Proof. apply list_lookup_fmap. Qed.

Lemma tracks_start botMsgId start : tracks botMsgId start [] start.
Proof.
  split; [by rewrite append_nil_r|]. split; [done|].
  apply Forall2_same_length_lookup_2; [done|].
  intros i before after Hbefore Hafter.
  assert (after = before) as -> by congruence. by repeat split.
Qed.

Lemma tracks_onChunk botMsgId start ts st textChunk :
  tracks botMsgId start ts st →
  tracks botMsgId start (ts ++ [textChunk]) (App.onChunk botMsgId textChunk st).
Proof.
  intros (Htext & Hloading & Hmessages). split_and!; simpl.
  - by rewrite Htext, join_app, append_assoc; simpl; rewrite append_nil_r.
  - done.
  - unfold App.update_bot. apply Forall2_fmap_r.
    eapply Forall2_impl; [exact Hmessages|].
    intros before after (Hid & Hrole & Hstreaming & Hother & Hbot). simpl.
    destruct (decide (Message.id after = botMsgId)) as [Hafter|Hafter].
    + repeat split; simpl; try done.
      * intros Hne. congruence.
      * intros _. by destruct ts.
    + repeat split; try done. intros Hbefore. congruence.
Qed.

Lemma tracks_onSources botMsgId start ts st sources :
  tracks botMsgId start ts st →
  tracks botMsgId start ts (App.onSources botMsgId sources st).
Proof.
  intros (Htext & Hloading & Hmessages). split_and!; simpl; [done..|].
  unfold App.update_bot. apply Forall2_fmap_r.
  eapply Forall2_impl; [exact Hmessages|].
  intros before after (Hid & Hrole & Hstreaming & Hother & Hbot). simpl.
  destruct (decide (Message.id after = botMsgId)) as [Hafter|Hafter].
  - repeat split; simpl; try done. intros Hne. congruence.
  - by repeat split.
Qed.

Lemma tracks_replay botMsgId start ts st log :
  tracks botMsgId start ts st →
  tracks botMsgId start (ts ++ chunk_calls log)
    (replay (App.onChunk botMsgId) (Some (App.onSources botMsgId)) log st).
Proof.
  revert ts st. induction log as [|call log IH]; intros ts st Htracks; simpl.
  - by rewrite app_nil_r.
  - destruct call as [text|sources]; simpl.
    + rewrite (cons_middle text ts), app_assoc. fold (chunk_calls log).
      by apply IH, tracks_onChunk.
    + by apply IH, tracks_onSources.
Qed.

(** The transcript after [processStream] ran on the callbacks of
    [processResponse]. *)
Lemma processStream_tracks botMsgId stream st :
  tracks botMsgId st (texts (Stream.chunks stream))
    (Gemini.processStream (App.onChunk botMsgId) (Some (App.onSources botMsgId))
       stream st).2.
Proof.
  assert ((Gemini.processStream (App.onChunk botMsgId)
             (Some (App.onSources botMsgId)) stream st).2 =
          replay (App.onChunk botMsgId) (Some (App.onSources botMsgId))
            (calls (Stream.chunks stream)) st) as ->.
  { unfold Gemini.processStream. rewrite foldl_processChunk_replay.
    by destruct (Stream.failure stream). }
  rewrite <- chunk_calls_calls.
  apply (tracks_replay botMsgId st [] st), tracks_start.
Qed.

Lemma update_bot_other botMsgId f prev i m :
  prev !! i = Some m → Message.id m ≠ botMsgId →
  App.update_bot botMsgId f prev !! i = Some m.
Proof. intros Hi Hother. rewrite update_bot_lookup, Hi. simpl. by rewrite decide_False. Qed.

Lemma update_bot_placeholder botMsgId f prev i m :
  prev !! i = Some m → Message.id m = botMsgId →
  App.update_bot botMsgId f prev !! i = Some (f m).
Proof. intros Hi Hbot. rewrite update_bot_lookup, Hi. simpl. by rewrite decide_True. Qed.

Lemma update_bot_length botMsgId f prev :
  length (App.update_bot botMsgId f prev) = length prev.
Proof. apply length_fmap. Qed.

(** The transcript [processResponse] leaves: one message more, the
    messages with another id as they were, and the placeholder showing the
    texts [onChunk] received, or the failsafe text when the client could not
    be built. *)
Lemma processResponse_transcript getAI ai now app :
  let botMsgId := pretty (now + 1) in
  let received := chunk_calls (all_calls ai Gemini.modelsToTry None) in
  let done := App.processResponse getAI ai now app in
  App.isLoading done = false ∧
  length (App.messages done) = S (length (App.messages app)) ∧
  (∀ i m,
     App.messages app !! i = Some m → Message.id m ≠ botMsgId →
     App.messages done !! i = Some m) ∧
  (getAI = JS.Return tt →
   ∃ bot,
     App.messages done !! length (App.messages app) = Some bot ∧
     Message.id bot = botMsgId ∧
     Message.role bot = MODEL ∧
     Message.content bot = join received ∧
     Message.isStreaming bot = Some false) ∧
  (∀ error,
     getAI = JS.Throw error →
     ∃ bot,
       App.messages done !! length (App.messages app) = Some bot ∧
       Message.id bot = botMsgId ∧
       Message.content bot =
         Gemini.newline +:+ Gemini.newline +:+
         "[System Error: An unexpected error occurred. Please check console.]" ∧
       Message.isError bot = Some true ∧
       Message.isStreaming bot = Some false).
Proof.
  intros botMsgId received done.
  set (placeholder :=
         {| Message.id := botMsgId; Message.role := MODEL; Message.content := "";
            Message.isStreaming := Some true; Message.isError := None;
            Message.groundingSources := None |}).
  set (start :=
         ({| App.accumulatedText := ""; App.collectedSources := [] |},
          App.setIsLoading true
            (App.setMessages (λ prev, prev ++ [placeholder]) app)) : App.Streaming).
  assert ((App.messages app ++ [placeholder]) !! length (App.messages app)
          = Some placeholder) as Hplaceholder by by rewrite list_lookup_middle.
  destruct (ChainFacts.streamResponse_cases (App.onChunk botMsgId)
              (Some (App.onSources botMsgId)) getAI ai start)
    as [(error & Hget & Hrun) | (Hget & Hrun)].
  - (* the client could not be built *)
    assert (App.messages done =
            App.update_bot botMsgId (App.set_isStreaming false)
              (App.update_bot botMsgId App.set_failed
                 (App.messages app ++ [placeholder])) ∧
            App.isLoading done = false) as [Hdone ->].
    { unfold done, App.processResponse. fold botMsgId placeholder start.
      by rewrite Hrun. }
    rewrite Hdone. split_and!.
    + done.
    + rewrite !update_bot_length, length_app. simpl. lia.
    + intros i m Hi Hother.
      do 2 (apply update_bot_other; [|done]). by apply lookup_app_l_Some.
    + intros Hreturn. congruence.
    + intros error' _.
      exists (App.set_isStreaming false (App.set_failed placeholder)).
      split; [|done].
      apply update_bot_placeholder; [|done].
      by apply update_bot_placeholder.
  - (* the loop ran *)
    destruct (ChainFacts.streamResponse_returns (App.onChunk botMsgId)
                (Some (App.onSources botMsgId)) getAI ai start Hget)
      as [[attempted final] Hreturn].
    pose proof (tryModels_replay (App.onChunk botMsgId) (Some (App.onSources botMsgId))
                  ai Gemini.modelsToTry None [] start) as Hfinal.
    rewrite <- Hrun, Hreturn in Hfinal. cbn [fst snd] in Hfinal.
    pose proof (tracks_replay botMsgId start [] start
                  (all_calls ai Gemini.modelsToTry None) (tracks_start _ _))
      as Htracks.
    rewrite <- Hfinal, app_nil_l in Htracks. fold received in Htracks.
    destruct Htracks as (Htext & _ & Hmessages).
    change (App.accumulatedText final.1 = join received) in Htext.
    change (Forall2 (follows botMsgId received (App.accumulatedText final.1))
              (App.messages app ++ [placeholder]) (App.messages final.2))
      in Hmessages.
    assert (App.messages done =
            App.update_bot botMsgId (App.set_isStreaming false)
              (App.messages final.2) ∧
            App.isLoading done = false) as [Hdone ->].
    { unfold done, App.processResponse. fold botMsgId placeholder start.
      rewrite Hreturn. by destruct final. }
    rewrite Hdone. split_and!.
    + done.
    + rewrite update_bot_length.
      apply Forall2_length in Hmessages. rewrite <- Hmessages, length_app. simpl. lia.
    + intros i m Hi Hother.
      assert ((App.messages app ++ [placeholder]) !! i = Some m) as Hstart
        by by apply lookup_app_l_Some.
      destruct (Forall2_lookup_l _ _ _ _ _ Hmessages Hstart)
        as (after & Hafter & _ & _ & _ & Hsame & _).
      apply update_bot_other; [|done]. by rewrite Hafter, (Hsame Hother).
    + intros _.
      destruct (Forall2_lookup_l _ _ _ _ _ Hmessages Hplaceholder)
        as (after & Hafter & Hid & Hrole & _ & _ & Hcontent).
      exists (App.set_isStreaming false after).
      split; [by apply update_bot_placeholder|]. simpl in *.
      split_and!; try done.
      rewrite Hcontent by done. rewrite Htext. by destruct received.
    + intros error Hthrow. congruence.
Qed.

(** C5.  The streamed answer accumulates in the transcript.  On a finite
    sequence of chunks [processStream] calls [onChunk] once for every chunk
    with a non-empty text, in the order of arrival, with that text.  With
    the callbacks of [processResponse], the accumulated text grows by the
    concatenation of these texts, the placeholder message shows the
    accumulated text as soon as one text arrived, and every other message
    stays as it was.  When [processResponse] is done and the client was
    built, the placeholder shows the concatenation of all the texts
    [onChunk] received. *)
Theorem streamed_text_accumulates botMsgId stream st getAI ai now app :
  let recorded :=
    (Gemini.processStream record_chunk (Some record_sources) stream []).2 in
  let received := texts (Stream.chunks stream) in
  let after :=
    (Gemini.processStream (App.onChunk botMsgId) (Some (App.onSources botMsgId))
       stream st).2 in
  let done := App.processResponse getAI ai now app in
  chunk_calls recorded = received ∧
  after = replay (App.onChunk botMsgId) (Some (App.onSources botMsgId)) recorded st ∧
  App.accumulatedText after.1 = App.accumulatedText st.1 +:+ join received ∧
  length (App.messages after.2) = length (App.messages st.2) ∧
  (∀ i m,
     App.messages st.2 !! i = Some m →
     ∃ m',
       App.messages after.2 !! i = Some m' ∧
       Message.id m' = Message.id m ∧
       (Message.id m ≠ botMsgId → m' = m) ∧
       (Message.id m = botMsgId → received ≠ [] →
        Message.content m' = App.accumulatedText after.1) ∧
       (Message.id m = botMsgId → received = [] →
        Message.content m' = Message.content m)) ∧
  length (App.messages done) = S (length (App.messages app)) ∧
  (∀ i m,
     App.messages app !! i = Some m → Message.id m ≠ pretty (now + 1) →
     App.messages done !! i = Some m) ∧
  (getAI = JS.Return tt →
   ∃ bot,
     App.messages done !! length (App.messages app) = Some bot ∧
     Message.id bot = pretty (now + 1) ∧
     Message.content bot =
       join (chunk_calls (all_calls ai Gemini.modelsToTry None))) ∧
  (Stream.failure (ai "gemini-3-pro-preview") = None →
   chunk_calls (all_calls ai Gemini.modelsToTry None) =
     texts (Stream.chunks (ai "gemini-3-pro-preview"))).
Proof.
  intros recorded received after done.
  assert (recorded = calls (Stream.chunks stream)) as Hrecorded.
  { unfold recorded, Gemini.processStream. fold (calls (Stream.chunks stream)).
    by destruct (Stream.failure stream). }
  destruct (processStream_tracks botMsgId stream st) as (Htext & _ & Hmessages).
  fold after received in Htext, Hmessages.
  destruct (processResponse_transcript getAI ai now app)
    as (_ & Hlength & Hothers & Hbuilt & _).
  split_and!.
  - rewrite Hrecorded. apply chunk_calls_calls.
  - rewrite Hrecorded. unfold after, Gemini.processStream.
    rewrite foldl_processChunk_replay. by destruct (Stream.failure stream).
  - done.
  - symmetry. by eapply Forall2_length.
  - intros i m Hi.
    destruct (Forall2_lookup_l _ _ _ _ _ Hmessages Hi)
      as (m' & Hm' & Hsame_id & _ & _ & Hother & Hplaceholder).
    exists m'. split_and!; try done.
    + intros Hm Hsome. rewrite Hplaceholder by done. by destruct received.
    + intros Hm ->. by rewrite Hplaceholder.
  - done.
  - done.
  - intros Hget. destruct (Hbuilt Hget) as (bot & Hbot & Hid & _ & Hcontent & _).
    by exists bot.
  - intros Hdone. simpl. rewrite Hdone, app_nil_r. apply chunk_calls_calls.
Qed.

End StreamFacts.

(** ** The concrete runtime *)

Module RuntimeFacts.

Lemma trimStart_splits (s : string) :
  ∃ before, s = before +:+ AsciiRuntime.trimStart s.
Proof.
  induction s as [|c s [before IH]]; [by exists ""|]. simpl.
  destruct (AsciiRuntime.is_space c); [|by exists ""].
  exists (String c before). by rewrite JSFacts.append_String, <- IH.
Qed.

Lemma trimEnd_splits (s : string) :
  ∃ after, s = AsciiRuntime.trimEnd s +:+ after.
Proof.
  induction s as [|c s [after IH]]; [by exists ""|]. simpl.
  destruct (AsciiRuntime.trimEnd s) as [|d rest].
  - destruct (AsciiRuntime.is_space c); [by exists (String c s)|].
    exists s. done.
  - exists after. by rewrite JSFacts.append_String, <- IH.
Qed.

(** [trim] drops characters at the two ends only. *)
Lemma trim_splits (text : string) :
  ∃ before after, text = before +:+ AsciiRuntime.trim text +:+ after.
Proof.
  destruct (trimStart_splits text) as [before Hbefore].
  destruct (trimEnd_splits (AsciiRuntime.trimStart text)) as [after Hafter].
  exists before, after. unfold AsciiRuntime.trim. by rewrite <- Hafter.
Qed.

End RuntimeFacts.

(** ** geminiService: titles and character attributes *)

Module TextFacts.

Lemma or_else_truthy a b :
  JS.truthy b = true → JS.truthy (GeminiText.or_else a b) = true.
Proof.
  intros Hb. unfold GeminiText.or_else.
  destruct a as [[|c a]|]; simpl; done.
Qed.

Lemma remove_quotes_no_quote (s : string) :
  JS.includes (GeminiText.remove_quotes s) (String (ascii_of_nat 34) "") = false.
Proof.
  induction s as [|c s IH]; [done|]. simpl GeminiText.remove_quotes.
  destruct (Ascii.eqb c (ascii_of_nat 34)) eqn:Hc; [done|].
  rewrite JSFacts.includes_String, IH, orb_false_r.
  cbn [String.prefix].
  destruct (Ascii.ascii_dec (ascii_of_nat 34) c) as [<-|Hne]; [|done].
  by rewrite Ascii.eqb_refl in Hc.
Qed.

Section Requests.
Variable trim : string → string.
Variable getAI : JS.completion unit.

Local Abbreviation generateTitle := (GenerateTitle.generateTitle trim getAI).
Local Abbreviation generateCharacterAttribute :=
  (GenerateCharacterAttribute.generateCharacterAttribute trim getAI).

(** [generateTitle] gives a title that is not empty, and throws only when
    the client cannot be built.  It asks the second model only when the
    call to the first threw: an answer without text, or with a text that
    is empty once cleaned, gives "Untitled Story".  When both calls throw
    the title is "New Story". *)
Theorem generateTitle_result (generateContent : string → JS.completion (option string)) :
  match generateTitle generateContent with
  | JS.Return title => JS.truthy title = true
  | JS.Throw error => getAI = JS.Throw error
  end ∧
  (∀ other response,
     generateContent "gemini-3-flash-preview" = JS.Return response →
     other "gemini-3-flash-preview" = JS.Return response →
     generateTitle other = generateTitle generateContent) ∧
  (getAI = JS.Return tt →
   ∀ response,
     generateContent "gemini-3-flash-preview" = JS.Return response →
     JS.truthy_opt (trim ∘ GeminiText.remove_quotes <$> response) = false →
     generateTitle generateContent = JS.Return "Untitled Story") ∧
  (getAI = JS.Return tt →
   ∀ e1 e2,
     generateContent "gemini-3-flash-preview" = JS.Throw e1 →
     generateContent "gemini-2.5-flash-latest" = JS.Throw e2 →
     generateTitle generateContent = JS.Return "New Story").
Proof.
  unfold GenerateTitle.generateTitle, GenerateTitle.modelsToTry. split_and!.
  - destruct getAI as [[]|error]; [|done]. simpl.
    destruct (generateContent "gemini-3-flash-preview") as [response|e1]; simpl;
      [by apply or_else_truthy|].
    destruct (generateContent "gemini-2.5-flash-latest") as [response|e2]; simpl;
      [by apply or_else_truthy|done].
  - intros other response Hfirst Hother.
    destruct getAI as [[]|error]; [|done]. simpl. by rewrite Hfirst, Hother.
  - intros -> response Hfirst Hempty. simpl. rewrite Hfirst. simpl.
    unfold GeminiText.or_else.
    destruct response as [text|]; simpl in *; by rewrite ?Hempty.
  - intros -> e1 e2 Hfirst Hsecond. simpl. by rewrite Hfirst, Hsecond.
Qed.

(** [generateCharacterAttribute] throws only when the client cannot be
    built.  It gives the trimmed text of the first model that answers,
    without asking the second when the first answered.  When both calls
    throw it gives the friendly message for the error of the second: the
    error of the first is not shown, and the text of the last [return] of
    the function is not used. *)
Theorem generateCharacterAttribute_result
    (generateContent : string → JS.completion (option string)) :
  match generateCharacterAttribute generateContent with
  | JS.Return _ => True
  | JS.Throw error => getAI = JS.Throw error
  end ∧
  (∀ other response,
     generateContent "gemini-3-flash-preview" = JS.Return response →
     other "gemini-3-flash-preview" = JS.Return response →
     generateCharacterAttribute other = generateCharacterAttribute generateContent) ∧
  (getAI = JS.Return tt →
   ∀ e1 text,
     generateContent "gemini-3-flash-preview" = JS.Throw e1 →
     generateContent "gemini-2.5-flash-latest" = JS.Return (Some text) →
     generateCharacterAttribute generateContent = JS.Return (trim text)) ∧
  (getAI = JS.Return tt →
   ∀ e1 e2,
     generateContent "gemini-3-flash-preview" = JS.Throw e1 →
     generateContent "gemini-2.5-flash-latest" = JS.Throw e2 →
     generateCharacterAttribute generateContent =
       JS.Return (Gemini.getFriendlyErrorMessage e2)).
Proof.
  unfold GenerateCharacterAttribute.generateCharacterAttribute,
    GenerateCharacterAttribute.modelsToTry.
  split_and!.
  - destruct getAI as [[]|error]; [|done]. simpl.
    destruct (generateContent "gemini-3-flash-preview") as [response|e1]; simpl;
      [done|].
    by destruct (generateContent "gemini-2.5-flash-latest") as [response|e2].
  - intros other response Hfirst Hother.
    destruct getAI as [[]|error]; [|done]. simpl. by rewrite Hfirst, Hother.
  - intros -> e1 text Hfirst Hsecond. simpl. rewrite Hfirst, Hsecond. simpl.
    unfold GeminiText.or_else. simpl. by destruct (trim text).
  - intros -> e1 e2 Hfirst Hsecond. simpl. by rewrite Hfirst, Hsecond.
Qed.

(** A title that comes from a model holds no double quote, as long as
    [trim] only drops characters at the two ends. *)
Theorem generateTitle_no_quote
    (generateContent : string → JS.completion (option string)) title :
  (∀ text, ∃ before after, text = before +:+ trim text +:+ after) →
  generateTitle generateContent = JS.Return title →
  JS.includes title (String (ascii_of_nat 34) "") = false.
Proof.
  intros Htrim.
  assert (∀ response,
            JS.includes
              (GeminiText.or_else (trim ∘ GeminiText.remove_quotes <$> response)
                 "Untitled Story")
              (String (ascii_of_nat 34) "") = false) as Hclean.
  { intros response. unfold GeminiText.or_else.
    destruct response as [text|]; simpl; [|done].
    destruct (JS.truthy (trim (GeminiText.remove_quotes text))); [|done].
    apply not_true_is_false. intros (b & a & Hsplit)%JSFacts.includes_true_iff.
    destruct (Htrim (GeminiText.remove_quotes text)) as (before & after & Hwhole).
    pose proof (remove_quotes_no_quote text) as Hnone.
    apply not_true_iff_false in Hnone. apply Hnone.
    apply JSFacts.includes_true_iff.
    exists (before +:+ b), (a +:+ after).
    rewrite Hwhole at 1. rewrite Hsplit.
    by rewrite !StreamFacts.append_assoc. }
  unfold GenerateTitle.generateTitle, GenerateTitle.modelsToTry.
  destruct getAI as [[]|error]; [|done]. simpl.
  destruct (generateContent "gemini-3-flash-preview") as [response|e1]; simpl.
  { intros [= <-]. apply Hclean. }
  destruct (generateContent "gemini-2.5-flash-latest") as [response|e2]; simpl.
  { intros [= <-]. apply Hclean. }
  by intros [= <-].
Qed.

End Requests.
End TextFacts.


Module StoreFacts.
Import StorageTerms.

Lemma sort_insert_front x l :
  Forall (newer x) l → JS.sort_insert Storage.newest_first x l = x :: l.
Proof.
  destruct 1 as [|y l Hy Hl]; simpl; [done|].
  unfold Storage.newest_first, newer in *. case_match eqn:Hcmp; [lia|done].
Qed.

(** The sort leaves a list that is newest first as it is. *)
Lemma sort_sorted l :
  StronglySorted newer l → JS.sort Storage.newest_first l = l.
Proof.
  induction 1 as [|x l Hsorted IH Hx]; simpl; [done|].
  rewrite IH. by apply sort_insert_front.
Qed.

(** A session that is newer than the ones before it and not older than
    the ones behind it moves to the head, and the rest keeps its order. *)
Lemma sort_to_front l1 s l2 :
  StronglySorted newer (l1 ++ l2) →
  Forall (λ y, ChatSession.updatedAt y < ChatSession.updatedAt s) l1 →
  Forall (newer s) l2 →
  JS.sort Storage.newest_first (l1 ++ s :: l2) = s :: l1 ++ l2.
Proof.
  intros Hsorted Hbefore Hbehind. induction l1 as [|y l1 IH]; simpl in *.
  - rewrite (sort_sorted l2) by done. by apply sort_insert_front.
  - apply StronglySorted_inv in Hsorted as [Hsorted Hy].
    apply Forall_cons in Hbefore as [Hys Hbefore].
    rewrite IH by done. simpl.
    unfold Storage.newest_first at 1. case_match eqn:Hcmp; [|lia].
    f_equal. by apply sort_insert_front.
Qed.

Lemma sorted_sublist {A} (R : relation A) (k l : list A) :
  k `sublist_of` l → StronglySorted R l → StronglySorted R k.
Proof.
  induction 1 as [|x k l Hsub IH|x k l Hsub IH]; [done|..].
  - intros [Hl Hx]%StronglySorted_inv. constructor; [by apply IH|].
    eapply Forall_forall. intros y Hy.
    eapply Forall_forall in Hx; [done|]. by eapply elem_of_sublist.
  - intros [Hl Hx]%StronglySorted_inv. by apply IH.
Qed.

Lemma find_head_filter {A} (p : A → Prop) `{∀ x, Decision (p x)} l :
  JS.find p l = head (filter p l).
Proof.
  unfold JS.find. induction l as [|x l IH]; [done|]. simpl.
  destruct (decide (p x)).
  - by rewrite filter_cons_True.
  - rewrite filter_cons_False by done. rewrite <- IH.
    by destruct (list_find p l) as [[]|].
Qed.

Lemma find_filter_other (id other : string) (l : list ChatSession.t) :
  other ≠ id →
  JS.find (λ s, ChatSession.id s = other) (filter (λ s, ChatSession.id s ≠ id) l) =
  JS.find (λ s, ChatSession.id s = other) l.
Proof.
  intros Hother. rewrite !find_head_filter. f_equal.
  rewrite list_filter_filter. apply list_filter_iff.
  intros x. split; [tauto|]. intros Hx. split; [done|congruence].
Qed.

Lemma find_filter_same (id : string) (l : list ChatSession.t) :
  JS.find (λ s, ChatSession.id s = id) (filter (λ s, ChatSession.id s ≠ id) l) = None.
Proof.
  rewrite find_head_filter, list_filter_filter.
  rewrite JSFacts.filter_none; [done|].
  apply Forall_forall. intros x _. tauto.
Qed.

Lemma unique_filter_length (id : string) (l : list ChatSession.t) :
  NoDup (ids l) → (length (filter (λ y, ChatSession.id y = id) l) ≤ 1)%nat.
Proof.
  unfold ids. induction l as [|x l IH]; simpl; [lia|].
  intros [Hx Hl]%NoDup_cons.
  destruct (decide (ChatSession.id x = id)) as [Hid|Hid].
  - rewrite filter_cons_True by done. rewrite JSFacts.filter_none; [simpl; lia|].
    apply Forall_forall. intros y Hy Hsame. apply Hx.
    rewrite Hid, <- Hsame. by apply list_elem_of_fmap_2.
  - rewrite filter_cons_False by done. by apply IH.
Qed.

Lemma stringify_truthy {A} (JSON_parse : string → JS.completion A)
    (JSON_stringify : A → string) x :
  (∃ e, JSON_parse "" = JS.Throw e) →
  JSON_parse (JSON_stringify x) = JS.Return x →
  JS.truthy (JSON_stringify x) = true.
Proof.
  intros [e Hempty] Hround. destruct (JSON_stringify x); [congruence|done].
Qed.

(** The list [saveSession] sorts, when the stored list is newest first
    with unique ids and the session is newer than the others. *)
Lemma sort_upsert_newest session sessions :
  StronglySorted newer sessions →
  NoDup (ids sessions) →
  Forall (λ y, ChatSession.id y ≠ ChatSession.id session →
               ChatSession.updatedAt y < ChatSession.updatedAt session) sessions →
  JS.sort Storage.newest_first (Storage.upsert session sessions) =
  session :: filter (λ y, ChatSession.id y ≠ ChatSession.id session) sessions.
Proof.
  intros Hsorted Hunique Hnewest.
  destruct (StorageFacts.upsert_cases session sessions)
    as [(l1 & old & l2 & -> & Hold & Hl1 & ->) | (Hnone & ->)].
  - assert (Forall (λ x, ChatSession.id x ≠ ChatSession.id session) l2) as Hl2.
    { unfold ids in Hunique. rewrite fmap_app, fmap_cons in Hunique.
      apply NoDup_app in Hunique as (_ & _ & [Hfresh _]%NoDup_cons).
      apply Forall_forall. intros y Hy Hsame. apply Hfresh.
      rewrite Hold, <- Hsame. by apply list_elem_of_fmap_2. }
    rewrite filter_app, filter_cons_False by tauto.
    rewrite !JSFacts.filter_all by done.
    apply Forall_app in Hnewest as [Hn1 [_ Hn2]%Forall_cons].
    apply sort_to_front.
    + eapply sorted_sublist; [|done].
      apply sublist_app; [done|]. by apply sublist_cons.
    + apply Forall_forall. intros y Hy.
      eapply Forall_forall in Hl1; [|done]. eapply Forall_forall in Hn1; [|done].
      by apply Hn1.
    + apply Forall_forall. intros y Hy. unfold newer.
      eapply Forall_forall in Hl2; [|done]. eapply Forall_forall in Hn2; [|done].
      specialize (Hn2 Hl2). lia.
  - simpl. rewrite sort_sorted by done. rewrite JSFacts.filter_all by done.
    apply sort_insert_front.
    apply Forall_forall. intros y Hy. unfold newer.
    eapply Forall_forall in Hnone; [|done]. eapply Forall_forall in Hnewest; [|done].
    specialize (Hnewest Hnone). lia.
Qed.

Lemma Permutation_short {A} (l k : list A) :
  l ≡ₚ k → (length k ≤ 1)%nat → l = k.
Proof.
  intros Hperm Hshort. destruct k as [|x [|y k]]; simpl in *; [| |lia].
  - by apply Permutation_nil_r.
  - by apply Permutation_singleton_r.
Qed.

Section WithJSON.
Variable JSON_parse : string → JS.completion (list ChatSession.t).
Variable JSON_stringify : list ChatSession.t → string.

Local Abbreviation getSessions := (Storage.getSessions JSON_parse).
Local Abbreviation saveSession := (Storage.saveSession JSON_parse JSON_stringify).
Local Abbreviation deleteSession := (Storage.deleteSession JSON_parse JSON_stringify).
Local Abbreviation getSessionById := (Storage.getSessionById JSON_parse).

(** What is read after [sessions] was written. *)
Lemma getSessions_written ls sessions :
  (∃ e, JSON_parse "" = JS.Throw e) →
  JSON_parse (JSON_stringify sessions) = JS.Return sessions →
  getSessions
    (LocalStorage.setItem Storage.STORAGE_KEY (JSON_stringify sessions) ls)
  = JS.Return sessions.
Proof.
  intros Hempty Hround.
  apply StorageFacts.getSessions_setItem; [|done]. by eapply stringify_truthy.
Qed.

(** X: a session that is newer than the stored ones goes to the head. *)
Theorem saveSession_moves_to_front session ls sessions :
  getSessions ls = JS.Return sessions →
  StronglySorted newer sessions →
  NoDup (ids sessions) →
  Forall (λ y, ChatSession.id y ≠ ChatSession.id session →
               ChatSession.updatedAt y < ChatSession.updatedAt session) sessions →
  ∃ trimmed,
    saveSession session ls =
      JS.Return
        (trimmed,
         LocalStorage.setItem Storage.STORAGE_KEY (JSON_stringify trimmed) ls) ∧
    trimmed =
      take 50
        (session :: filter (λ y, ChatSession.id y ≠ ChatSession.id session) sessions) ∧
    head trimmed = Some session.
Proof.
  intros Hget Hsorted Hunique Hnewest. eexists. split_and!.
  - by apply StorageFacts.saveSession_unfold.
  - by rewrite sort_upsert_newest.
  - by rewrite sort_upsert_newest.
Qed.

Lemma saved_list_fixed session sessions :
  (length (filter (λ y, ChatSession.id y = ChatSession.id session) sessions) ≤ 1)%nat →
  (length (filter (λ y, ChatSession.id y ≠ ChatSession.id session ∧
                        (ChatSession.updatedAt session ≤ ChatSession.updatedAt y)%Z)
             sessions) < 50)%nat →
  let trimmed :=
    take 50 (JS.sort Storage.newest_first (Storage.upsert session sessions)) in
  take 50 (JS.sort Storage.newest_first (Storage.upsert session trimmed)) = trimmed.
Proof.
  intros Hone Hrank trimmed.
  pose proof (StorageFacts.saved_within_cut JSON_parse JSON_stringify session sessions
                Hone Hrank) as Hin.
  fold trimmed in Hin.
  assert (trimmed `sublist_of`
            JS.sort Storage.newest_first (Storage.upsert session sessions)) as Hsub
    by apply sublist_take.
  assert (Storage.upsert session trimmed = trimmed) as ->.
  { destruct (StorageFacts.upsert_cases session trimmed)
      as [(l1 & old & l2 & Htrimmed & Hold & _ & ->) | (Hnone & _)].
    - rewrite Htrimmed. do 2 f_equal. symmetry.
      apply (StorageFacts.upsert_owner session sessions); [done| |done].
      apply (JSFacts.elem_of_sort Storage.newest_first).
      eapply elem_of_sublist; [|done]. rewrite Htrimmed. set_solver.
    - eapply Forall_forall in Hnone; [|done]. done. }
  rewrite sort_sorted.
  - apply take_ge. unfold trimmed. rewrite length_take. lia.
  - eapply sorted_sublist; [done|]. apply StorageFacts.sort_newest_first.
Qed.

(** X: saving the same session again changes nothing. *)
Theorem saveSession_twice session ls sessions :
  getSessions ls = JS.Return sessions →
  (length (filter (λ y, ChatSession.id y = ChatSession.id session) sessions) ≤ 1)%nat →
  (length (filter (λ y, ChatSession.id y ≠ ChatSession.id session ∧
                        (ChatSession.updatedAt session ≤ ChatSession.updatedAt y)%Z)
             sessions) < 50)%nat →
  (∃ e, JSON_parse "" = JS.Throw e) →
  JSON_parse
    (JSON_stringify
       (take 50 (JS.sort Storage.newest_first (Storage.upsert session sessions))))
  = JS.Return (take 50 (JS.sort Storage.newest_first (Storage.upsert session sessions))) →
  ∃ trimmed ls',
    saveSession session ls = JS.Return (trimmed, ls') ∧
    saveSession session ls' = JS.Return (trimmed, ls').
Proof.
  intros Hget Hone Hrank Hempty Hround.
  pose proof (saved_list_fixed session sessions Hone Hrank) as Hfixed.
  set (trimmed := take 50 (JS.sort Storage.newest_first (Storage.upsert session sessions)))
    in *.
  eexists trimmed, _. split; [by apply StorageFacts.saveSession_unfold|].
  rewrite (StorageFacts.saveSession_unfold _ _ session _ trimmed)
    by by apply getSessions_written.
  cbn zeta in Hfixed. rewrite Hfixed. do 2 f_equal.
  unfold LocalStorage.setItem, LocalStorage.t. by rewrite insert_insert_eq.
Qed.

(** X: while there is room, saving a session leaves the others where a
    lookup finds them. *)
Theorem saveSession_frame session ls sessions other :
  getSessions ls = JS.Return sessions →
  NoDup (ids sessions) →
  (length sessions < 50)%nat →
  (∃ e, JSON_parse "" = JS.Throw e) →
  JSON_parse
    (JSON_stringify
       (take 50 (JS.sort Storage.newest_first (Storage.upsert session sessions))))
  = JS.Return (take 50 (JS.sort Storage.newest_first (Storage.upsert session sessions))) →
  other ≠ ChatSession.id session →
  ∃ trimmed ls',
    saveSession session ls = JS.Return (trimmed, ls') ∧
    getSessionById other ls' = getSessionById other ls.
Proof.
  intros Hget Hunique Hroom Hempty Hround Hother.
  eexists _, _. split; [by apply StorageFacts.saveSession_unfold|].
  unfold Storage.getSessionById. rewrite Hget, getSessions_written by done.
  simpl. f_equal. rewrite !find_head_filter. f_equal.
  rewrite take_ge.
  2:{ rewrite JSFacts.sort_length.
      pose proof (StorageFacts.upsert_length_le session sessions). lia. }
  apply Permutation_short; [|by apply unique_filter_length].
  rewrite JSFacts.sort_Permutation.
  rewrite StorageFacts.upsert_filter_others; [done|].
  intros x Hx. congruence.
Qed.

(** X: a deleted session is not found any more, and the lookup of any
    other id gives what it gave before. *)
Theorem deleteSession_getSessionById sessionId ls sessions :
  getSessions ls = JS.Return sessions →
  (∃ e, JSON_parse "" = JS.Throw e) →
  JSON_parse
    (JSON_stringify (filter (λ s, ChatSession.id s ≠ sessionId) sessions))
  = JS.Return (filter (λ s, ChatSession.id s ≠ sessionId) sessions) →
  ∃ newSessions ls',
    deleteSession sessionId ls = JS.Return (newSessions, ls') ∧
    getSessions ls' = JS.Return newSessions ∧
    getSessionById sessionId ls' = JS.Return None ∧
    ∀ other, other ≠ sessionId → getSessionById other ls' = getSessionById other ls.
Proof.
  intros Hget Hempty Hround. eexists _, _. split_and!.
  - unfold Storage.deleteSession. by rewrite Hget.
  - by apply getSessions_written.
  - unfold Storage.getSessionById. rewrite getSessions_written by done. simpl.
    by rewrite find_filter_same.
  - intros other Hother.
    unfold Storage.getSessionById. rewrite Hget, getSessions_written by done. simpl.
    by rewrite find_filter_other.
Qed.

End WithJSON.
End StoreFacts.

(** ** components/CharacterBuilder.tsx *)

Module BuilderFacts.
Import BuilderTerms.

Lemma get_set_eq k v c : CharacterProfile.get k (CharacterProfile.set k v c) = v.
Proof. by destruct k. Qed.

Lemma get_set_ne k k' v c :
  k ≠ k' → CharacterProfile.get k' (CharacterProfile.set k v c) = CharacterProfile.get k' c.
Proof. by destruct k, k'. Qed.

Lemma id_set k v c :
  k ≠ CharacterProfile.key_id →
  CharacterProfile.id (CharacterProfile.set k v c) = CharacterProfile.id c.
Proof. by destruct k. Qed.

Lemma ids_replace_active c l :
  ids (CharacterBuilder.replace_active (Some (CharacterProfile.id c)) c l) = ids l.
Proof.
  unfold ids, CharacterBuilder.replace_active. rewrite <- list_fmap_compose.
  apply list_fmap_ext. intros i x _. simpl. case_decide; congruence.
Qed.

Lemma selectCharacter_shown char st :
  char ∈ CharacterBuilder.characters st →
  shown (CharacterBuilder.selectCharacter char st).
Proof. intros Hin. split; [done|]. simpl. by apply list_elem_of_fmap_2. Qed.

Lemma createNew_shown now st : shown (CharacterBuilder.createNew now st).
Proof.
  split; [done|]. simpl. unfold ids. rewrite fmap_app. set_solver.
Qed.

Lemma replace_active_shown st :
  shown st →
  shown
    (CharacterBuilder.setCharacters
       (CharacterBuilder.replace_active (CharacterBuilder.activeCharId st)
          (CharacterBuilder.formData st)) st).
Proof.
  intros [Hactive Hlisted]. split; [done|]. simpl.
  by rewrite Hactive, ids_replace_active.
Qed.

Lemma deleteCurrent_shown now st :
  shown st → shown (CharacterBuilder.deleteCurrent now st).
Proof.
  intros Hshown. unfold CharacterBuilder.deleteCurrent.
  case_match; [done|].
  destruct (filter _ _) as [|first rest] eqn:Hothers.
  - apply createNew_shown.
  - apply selectCharacter_shown. simpl. set_solver.
Qed.

Lemma step_shown event st :
  writes_id event = false → shown st → shown (step event st).
Proof.
  intros Hevent Hshown. destruct event as [i|now| |now|field value| |field|field result|];
    simpl.
  - destruct (CharacterBuilder.characters st !! i) as [char|] eqn:Hi; [|done].
    apply selectCharacter_shown. by eapply list_elem_of_lookup_2.
  - apply createNew_shown.
  - unfold CharacterBuilder.saveCurrent. case_match; [done|].
    by apply replace_active_shown.
  - by apply deleteCurrent_shown.
  - destruct Hshown as [Hactive Hlisted]. by destruct field.
  - unfold CharacterBuilder.syncBasics. case_match; [|done].
    by apply replace_active_shown.
  - by destruct (CharacterBuilder.loadingField st).
  - destruct Hshown as [Hactive Hlisted]. by destruct field.
  - done.
Qed.

Lemma run_shown events st :
  Forall (λ event, writes_id event = false) events → shown st → shown (run events st).
Proof.
  intros Hevents. revert st. induction Hevents as [|event events Hevent _ IH];
    intros st Hshown; [done|].
  simpl. by apply IH, step_shown.
Qed.

Lemma ids_filter_unique (P : CharacterProfile.t → Prop) `{∀ x, Decision (P x)} l :
  NoDup (ids l) → NoDup (ids (filter P l)).
Proof.
  intros Hunique. eapply sublist_NoDup; [done|].
  apply fmap_sublist, sublist_filter.
Qed.

Lemma step_unique event st :
  shown st → fresh event st →
  NoDup (ids (CharacterBuilder.characters st)) →
  NoDup (ids (CharacterBuilder.characters (step event st))).
Proof.
  intros [Hactive Hlisted] Hfresh Hunique.
  destruct event as [i|now| |now|field value| |field|field result|]; simpl.
  - by destruct (CharacterBuilder.characters st !! i).
  - unfold ids. rewrite fmap_app. apply NoDup_app. split_and!; [done| |].
    + intros x Hx [->|[]%elem_of_nil]%elem_of_cons. by apply Hfresh.
    + apply NoDup_singleton.
  - unfold CharacterBuilder.saveCurrent. case_match; [done|]. simpl.
    by rewrite Hactive, ids_replace_active.
  - unfold CharacterBuilder.deleteCurrent. case_match; [done|].
    pose proof (ids_filter_unique
                  (λ c, Some (CharacterProfile.id c) ≠ CharacterBuilder.activeCharId st)
                  _ Hunique) as Hothers.
    destruct (filter _ _) as [|first rest]; [|done].
    simpl. apply NoDup_singleton.
  - done.
  - unfold CharacterBuilder.syncBasics. case_match; [|done]. simpl.
    by rewrite Hactive, ids_replace_active.
  - by destruct (CharacterBuilder.loadingField st).
  - done.
  - done.
Qed.

(** X: the ids of the characters stay unique. *)
Theorem builder_ids_stay_unique events st :
  shown st →
  NoDup (ids (CharacterBuilder.characters st)) →
  Forall (λ event, writes_id event = false) events →
  fresh_clock events st →
  NoDup (ids (CharacterBuilder.characters (run events st))).
Proof.
  intros Hshown Hunique Hevents. revert st Hshown Hunique.
  induction Hevents as [|event events Hevent _ IH]; intros st Hshown Hunique Hclock;
    [done|].
  destruct Hclock as [Hfresh Hclock]. simpl. apply IH; [|by apply step_unique|done].
  by apply step_shown.
Qed.

Lemma find_replace_active c l :
  CharacterProfile.id c ∈ ids l →
  JS.find (λ x, CharacterProfile.id x = CharacterProfile.id c)
    (CharacterBuilder.replace_active (Some (CharacterProfile.id c)) c l) = Some c.
Proof.
  unfold JS.find, ids, CharacterBuilder.replace_active.
  induction l as [|x l IH]; [by intros ?%elem_of_nil|].
  intros Hin. rewrite fmap_cons. simpl.
  destruct (decide (Some (CharacterProfile.id x) = Some (CharacterProfile.id c)))
    as [Hx|Hx].
  - by rewrite decide_True.
  - rewrite decide_False by congruence.
    rewrite fmap_cons in Hin. apply elem_of_cons in Hin as [Hin|Hin]; [congruence|].
    specialize (IH Hin). destruct (list_find _ _) as [[i y]|]; [|done].
    exact IH.
Qed.

(** X: [saveCurrent] puts the form where a search by its id finds it,
    and leaves the other characters alone. *)
Theorem saveCurrent_lookup st :
  shown st →
  let active := CharacterProfile.id (CharacterBuilder.formData st) in
  let saved := CharacterBuilder.saveCurrent st in
  if JS.truthy active then
    JS.find (λ c, CharacterProfile.id c = active) (CharacterBuilder.characters saved)
      = Some (CharacterBuilder.formData st) ∧
    ids (CharacterBuilder.characters saved) = ids (CharacterBuilder.characters st) ∧
    (∀ i c,
       CharacterBuilder.characters st !! i = Some c →
       CharacterProfile.id c ≠ active →
       CharacterBuilder.characters saved !! i = Some c) ∧
    CharacterBuilder.formData saved = CharacterBuilder.formData st ∧
    CharacterBuilder.activeCharId saved = CharacterBuilder.activeCharId st
  else saved = st.
Proof.
  intros [Hactive Hlisted] active saved. unfold saved, CharacterBuilder.saveCurrent.
  rewrite Hactive. simpl. fold active.
  destruct (JS.truthy active) eqn:Htruthy; [|done]. simpl. split_and!.
  - by apply find_replace_active.
  - apply ids_replace_active.
  - intros i c Hi Hother. unfold CharacterBuilder.replace_active.
    rewrite list_lookup_fmap, Hi. simpl. rewrite decide_False; [done|].
    by intros [= Hsame].
  - done.
  - done.
Qed.

(** X: [deleteCurrent] removes the active character and no other, and
    leaves a list that is not empty. *)
Theorem deleteCurrent_removes now st :
  shown st →
  let active := CharacterProfile.id (CharacterBuilder.formData st) in
  let after := CharacterBuilder.deleteCurrent now st in
  JS.truthy active = true →
  pretty now ≠ active →
  (active ∉ ids (CharacterBuilder.characters after)) ∧
  CharacterBuilder.characters after ≠ [] ∧
  (filter (λ c, CharacterProfile.id c ≠ active) (CharacterBuilder.characters after)
     = CharacterBuilder.characters after) ∧
  (filter (λ c, CharacterProfile.id c ≠ active) (CharacterBuilder.characters st)
     `prefix_of` CharacterBuilder.characters after) ∧
  (length (CharacterBuilder.characters after) ≤ length (CharacterBuilder.characters st))%nat.
Proof.
  intros [Hactive Hlisted] active after Htruthy Hclock.
  assert (filter (λ c, Some (CharacterProfile.id c) ≠ CharacterBuilder.activeCharId st)
            (CharacterBuilder.characters st) =
          filter (λ c, CharacterProfile.id c ≠ active) (CharacterBuilder.characters st))
    as Hothers.
  { apply list_filter_iff. intros c. rewrite Hactive. fold active.
    split; intros Hc; congruence. }
  assert (Forall (λ c, CharacterProfile.id c ≠ active)
            (filter (λ c, CharacterProfile.id c ≠ active) (CharacterBuilder.characters st)))
    as Hclean.
  { apply Forall_forall. by intros c [Hc _]%list_elem_of_filter. }
  assert (length (CharacterBuilder.characters st) ≠ 0%nat) as Hsome.
  { unfold ids in Hlisted. destruct (CharacterBuilder.characters st); [|done].
    by apply elem_of_nil in Hlisted. }
  assert (length (filter (λ c, CharacterProfile.id c ≠ active)
                    (CharacterBuilder.characters st))
          < length (CharacterBuilder.characters st))%nat as Hless.
  { unfold ids in Hlisted. apply list_elem_of_fmap in Hlisted as (c & Hc & Hin).
    apply (length_filter_lt _ _ c); [done|]. intros Hne. by apply Hne. }
  unfold after, CharacterBuilder.deleteCurrent.
  assert (JS.truthy_opt (CharacterBuilder.activeCharId st) = true) as ->
    by by rewrite Hactive.
  cbn [negb]. rewrite Hothers.
  remember (filter (λ c, CharacterProfile.id c ≠ active) (CharacterBuilder.characters st))
    as others eqn:Hfilter.
  destruct others as [|first rest]; simpl.
  - split_and!.
    + intros [Hnew|[]%elem_of_nil]%elem_of_cons. simpl in Hnew. congruence.
    + done.
    + rewrite filter_cons_True; [done|]. simpl. congruence.
    + apply prefix_nil.
    + lia.
  - split_and!.
    + intros Hin.
      assert (active ∈ ids (first :: rest)) as (c & Hc & Hc')%list_elem_of_fmap
        by exact Hin.
      eapply Forall_forall in Hclean; [|done]. by apply Hclean.
    + done.
    + by apply JSFacts.filter_all.
    + done.
    + simpl in Hless. lia.
Qed.

(** [generateContent] is its request followed by the answer or the
    failure. *)
Lemma generateContent_events attribute field st :
  CharacterBuilder.loadingField st = None →
  (CharacterBuilder.generateContent attribute field st).2 =
  run (Request field ::
       match attribute with
       | JS.Return result => [Answer field result]
       | JS.Throw _ => [Failure]
       end) st.
Proof.
  intros Hidle. unfold CharacterBuilder.generateContent. rewrite Hidle.
  destruct attribute; simpl; by rewrite Hidle.
Qed.

(** X: [generateContent] adds to one field of the form and to nothing
    else. *)
Theorem generateContent_adds_to_one_field attribute field st :
  let outcome := (CharacterBuilder.generateContent attribute field st).1 in
  let after := (CharacterBuilder.generateContent attribute field st).2 in
  match CharacterBuilder.loadingField st with
  | Some _ => outcome = JS.Return tt ∧ after = st
  | None =>
      match attribute with
      | JS.Return result =>
          outcome = JS.Return tt ∧
          ∃ between,
            CharacterProfile.get field (CharacterBuilder.formData after) =
              CharacterProfile.get field (CharacterBuilder.formData st)
              +:+ between +:+ result
      | JS.Throw error =>
          outcome = JS.Throw error ∧
          CharacterBuilder.formData after = CharacterBuilder.formData st
      end ∧
      CharacterBuilder.loadingField after = None ∧
      CharacterBuilder.characters after = CharacterBuilder.characters st ∧
      CharacterBuilder.activeCharId after = CharacterBuilder.activeCharId st ∧
      ∀ other,
        other ≠ field →
        CharacterProfile.get other (CharacterBuilder.formData after) =
        CharacterProfile.get other (CharacterBuilder.formData st)
  end.
Proof.
  intros outcome after. unfold outcome, after, CharacterBuilder.generateContent.
  destruct (CharacterBuilder.loadingField st); [done|].
  destruct attribute as [result|error]; simpl; [|done].
  split_and!; try done.
  - unfold CharacterBuilder.with_result. rewrite get_set_eq.
    destruct (JS.truthy _) eqn:Hold.
    + exists (Gemini.newline +:+ Gemini.newline).
      by rewrite !StreamFacts.append_assoc.
    + exists "". by destruct (CharacterProfile.get field _).
  - intros other Hother. unfold CharacterBuilder.with_result. by rewrite get_set_ne.
Qed.

Section WithService.
Variable trim : string → string.
Variable getAI : JS.completion unit.
Variable generateContent : string → JS.completion (option string).

Local Abbreviation generateCharacterAttribute :=
  (GenerateCharacterAttribute.generateCharacterAttribute trim getAI generateContent).

(** X: what the button of a field writes into the form: the text of the
    service, which is the friendly message of the last error when both
    models failed. *)
Theorem generateContent_writes_the_answer field st :
  getAI = JS.Return tt →
  CharacterBuilder.loadingField st = None →
  let old := CharacterProfile.get field (CharacterBuilder.formData st) in
  ∃ text after,
    generateCharacterAttribute = JS.Return text ∧
    CharacterBuilder.generateContent generateCharacterAttribute field st
      = (JS.Return tt, after) ∧
    CharacterProfile.get field (CharacterBuilder.formData after) =
      (if JS.truthy old
       then old +:+ Gemini.newline +:+ Gemini.newline +:+ text
       else text) ∧
    CharacterBuilder.loadingField after = None ∧
    (∀ e1 e2,
       generateContent "gemini-3-flash-preview" = JS.Throw e1 →
       generateContent "gemini-2.5-flash-latest" = JS.Throw e2 →
       text = Gemini.getFriendlyErrorMessage e2).
Proof.
  intros Hclient Hidle old.
  assert (∃ text,
            generateCharacterAttribute = JS.Return text ∧
            ∀ e1 e2,
              generateContent "gemini-3-flash-preview" = JS.Throw e1 →
              generateContent "gemini-2.5-flash-latest" = JS.Throw e2 →
              text = Gemini.getFriendlyErrorMessage e2) as (text & Htext & Hfail).
  { unfold GenerateCharacterAttribute.generateCharacterAttribute,
      GenerateCharacterAttribute.modelsToTry.
    rewrite Hclient. simpl.
    destruct (generateContent "gemini-3-flash-preview") as [response|e1]; simpl.
    { eexists. split; [done|]. by intros e1 e2 [=]. }
    destruct (generateContent "gemini-2.5-flash-latest") as [response|e2]; simpl.
    { eexists. split; [done|]. by intros e1' e2 _ [=]. }
    eexists. split; [done|]. by intros e1' e2' _ [= ->]. }
  exists text. rewrite Htext. unfold CharacterBuilder.generateContent.
  rewrite Hidle. eexists. split_and!; try done.
  simpl. unfold CharacterBuilder.with_result. by rewrite get_set_eq.
Qed.

End WithService.

Section WithJSON.
Variable JSON_parse : string → JS.completion (list CharacterProfile.t).
Variable JSON_stringify : list CharacterProfile.t → string.

Local Abbreviation loadEffect := (CharacterBuilder.loadEffect JSON_parse).
Local Abbreviation saveEffect := (CharacterBuilder.saveEffect JSON_stringify).

Lemma loadEffect_shown now ls st : shown (loadEffect now ls st).
Proof.
  unfold CharacterBuilder.loadEffect.
  case_match; [|apply createNew_shown].
  destruct (JSON_parse _) as [[|first rest]|e]; try apply createNew_shown.
  apply selectCharacter_shown. simpl. set_solver.
Qed.

(** X: the form always shows a character of the list. *)
Theorem builder_shows_a_listed_character now ls st events :
  Forall (λ event, writes_id event = false) events →
  shown (run events (loadEffect now ls st)) ∧
  CharacterBuilder.characters (run events (loadEffect now ls st)) ≠ [].
Proof.
  intros Hevents.
  pose proof (run_shown events _ Hevents (loadEffect_shown now ls st)) as Hshown.
  split; [done|]. destruct Hshown as [_ Hlisted].
  destruct (CharacterBuilder.characters _); [|done]. by apply elem_of_nil in Hlisted.
Qed.

(** X: the list that the save effect wrote is the list the next visit
    starts with, and its first character is the one shown. *)
Theorem characters_survive_reload now st ls other :
  CharacterBuilder.characters st ≠ [] →
  (∃ e, JSON_parse "" = JS.Throw e) →
  JSON_parse (JSON_stringify (CharacterBuilder.characters st))
    = JS.Return (CharacterBuilder.characters st) →
  let reloaded := loadEffect now (saveEffect st ls) other in
  CharacterBuilder.characters reloaded = CharacterBuilder.characters st ∧
  head (CharacterBuilder.characters st) = Some (CharacterBuilder.formData reloaded) ∧
  CharacterBuilder.activeCharId reloaded
    = Some (CharacterProfile.id (CharacterBuilder.formData reloaded)).
Proof.
  intros Hsome Hempty Hround reloaded.
  unfold reloaded, CharacterBuilder.loadEffect, CharacterBuilder.saveEffect.
  destruct (CharacterBuilder.characters st) as [|first rest] eqn:Hlist; [done|].
  simpl length. cbn [Nat.ltb Nat.leb].
  unfold LocalStorage.getItem, LocalStorage.setItem, LocalStorage.t.
  rewrite lookup_insert_eq. simpl.
  rewrite (StoreFacts.stringify_truthy JSON_parse JSON_stringify (first :: rest))
    by done.
  by rewrite Hround.
Qed.

End WithJSON.
End BuilderFacts.

(** ** App.tsx: sending, regenerating and the sessions *)

Module AppFacts.
Import StorageTerms AppTerms.

Lemma pretty_N_go_length x s :
  (String.length s ≤ String.length (pretty_N_go x s))%nat.
Proof.
  revert s. induction (N.lt_wf_0 x) as [x _ IH]; intros s.
  assert (x = 0 ∨ 0 < x)%N as [->|Hpos] by lia; [by rewrite pretty_N_go_0|].
  rewrite pretty_N_go_step by done.
  etrans; [|by eapply IH, N.div_lt]. simpl. lia.
Qed.

(** [Date.now().toString()] is not the empty text. *)
Lemma pretty_truthy (now : Z) : JS.truthy (pretty now) = true.
Proof.
  assert (∀ p : positive, pretty p ≠ "") as Hpositive.
  { intros p. unfold pretty, pretty_positive, pretty, pretty_N.
    rewrite decide_False by done. rewrite pretty_N_go_step by done.
    intros Hempty.
    pose proof (pretty_N_go_length (N.pos p `div` 10)
                  (String (pretty_N_char (N.pos p `mod` 10)) "")) as Hlength.
    rewrite Hempty in Hlength. simpl in Hlength. lia. }
  unfold pretty, pretty_Z. destruct now as [|p|p]; [done| |done].
  specialize (Hpositive p). by destruct (pretty p).
Qed.

Lemma lastUserMsgIndex_none n messages :
  Forall (λ m, Message.role m ≠ USER) messages →
  AppFlow.lastUserMsgIndex n messages = -1.
Proof.
  intros Hnone. induction n as [|n IH]; [done|]. simpl.
  destruct (messages !! n) as [m|] eqn:Hn; [|done].
  rewrite decide_False; [done|]. eapply Forall_forall in Hnone; [done|].
  by eapply list_elem_of_lookup_2.
Qed.

Lemma lastUserMsgIndex_found before user behind k :
  Message.role user = USER →
  Forall (λ m, Message.role m ≠ USER) behind →
  (k ≤ length behind)%nat →
  AppFlow.lastUserMsgIndex (S (length before) + k) (before ++ user :: behind)
    = Z.of_nat (length before).
Proof.
  intros Huser Hbehind. induction k as [|k IH]; intros Hk.
  - rewrite Nat.add_0_r. simpl. rewrite list_lookup_middle by done.
    by rewrite decide_True.
  - rewrite Nat.add_succ_r. simpl.
    replace (S (length before + k)) with (length before + S k)%nat by lia.
    rewrite lookup_app_r by lia.
    replace (length before + S k - length before)%nat with (S k) by lia. simpl.
    destruct (behind !! k) as [m|] eqn:Hm.
    + rewrite decide_False.
      * rewrite <- IH by lia. done.
      * eapply Forall_forall in Hbehind; [done|]. by eapply list_elem_of_lookup_2.
    + apply lookup_ge_None in Hm. lia.
Qed.

(** A transcript has a last message of the user or none at all. *)
Lemma last_user_split (messages : list Message.t) :
  Forall (λ m, Message.role m ≠ USER) messages ∨
  ∃ before user behind,
    messages = before ++ user :: behind ∧ Message.role user = USER ∧
    Forall (λ m, Message.role m ≠ USER) behind.
Proof.
  induction messages as [|m messages IH]; [by left|].
  destruct IH as [Hnone|(before & user & behind & -> & Huser & Hbehind)].
  - destruct (decide (Message.role m = USER)) as [Hm|Hm].
    + right. by exists [], m, messages.
    + left. by constructor.
  - right. by exists (m :: before), user, behind.
Qed.

Section WithRuntime.
Variable trim : string → string.
Variable getAI : JS.completion unit.
Variable ai : string → Stream.t.

Local Abbreviation processResponse := (AppFlow.processResponse getAI ai).
Local Abbreviation handleSend := (AppFlow.handleSend trim getAI ai).
Local Abbreviation handleRegenerate := (AppFlow.handleRegenerate getAI ai).

(** What [processResponse] leaves of a state. *)
Lemma processResponse_state now st :
  let done := processResponse now st in
  let received := StreamTerms.chunk_calls (StreamTerms.all_calls ai Gemini.modelsToTry None) in
  AppFlow.isLoading done = false ∧
  length (AppFlow.messages done) = S (length (AppFlow.messages st)) ∧
  (∀ i m,
     AppFlow.messages st !! i = Some m → Message.id m ≠ botMsgId now →
     AppFlow.messages done !! i = Some m) ∧
  (∃ bot,
     AppFlow.messages done !! length (AppFlow.messages st) = Some bot ∧
     Message.id bot = botMsgId now ∧
     Message.isStreaming bot = Some false ∧
     (getAI = JS.Return tt →
      Message.role bot = MODEL ∧ Message.content bot = StreamTerms.join received)) ∧
  AppFlow.sessions done = AppFlow.sessions st ∧
  AppFlow.currentSessionId done = AppFlow.currentSessionId st ∧
  AppFlow.inputText done = AppFlow.inputText st ∧
  AppFlow.mode done = AppFlow.mode st ∧
  AppFlow.settings done = AppFlow.settings st.
Proof.
  intros done received.
  destruct (StreamFacts.processResponse_transcript getAI ai now
              {| App.messages := AppFlow.messages st;
                 App.isLoading := AppFlow.isLoading st |})
    as (Hloading & Hlength & Hothers & Hanswer & Hfailure).
  cbn [App.messages App.isLoading] in *.
  split_and!; try done.
  destruct getAI as [[]|error] eqn:Hclient.
  - destruct (Hanswer eq_refl) as (bot & Hbot & Hid & Hrole & Hcontent & Hstreaming).
    exists bot. by split_and!.
  - destruct (Hfailure error eq_refl) as (bot & Hbot & Hid & _ & _ & Hstreaming).
    exists bot. by split_and!.
Qed.

(** X: [handleSend]. *)
Theorem handleSend_transcript nowSession nowUser nowBot st :
  nowUser ≤ nowBot →
  let text := trim (AppFlow.inputText st) in
  let done := handleSend nowSession nowUser nowBot st in
  if negb (JS.truthy text) || AppFlow.isLoading st then done = st
  else
    AppFlow.inputText done = "" ∧
    AppFlow.isLoading done = false ∧
    AppFlow.currentSessionId done =
      (if JS.truthy_opt (AppFlow.currentSessionId st)
       then AppFlow.currentSessionId st else Some (pretty nowSession)) ∧
    JS.truthy_opt (AppFlow.currentSessionId done) = true ∧
    length (AppFlow.messages done) = S (S (length (AppFlow.messages st))) ∧
    (∀ i m,
       AppFlow.messages st !! i = Some m → Message.id m ≠ botMsgId nowBot →
       AppFlow.messages done !! i = Some m) ∧
    AppFlow.messages done !! length (AppFlow.messages st)
      = Some (userMsg nowUser text) ∧
    (∃ bot,
       AppFlow.messages done !! S (length (AppFlow.messages st)) = Some bot ∧
       Message.id bot = botMsgId nowBot ∧
       Message.isStreaming bot = Some false ∧
       (getAI = JS.Return tt → Message.role bot = MODEL)) ∧
    AppFlow.sessions done = AppFlow.sessions st ∧
    AppFlow.mode done = AppFlow.mode st ∧
    AppFlow.settings done = AppFlow.settings st.
Proof.
  intros Hclock text done. unfold done, AppFlow.handleSend. fold text.
  destruct (negb (JS.truthy text) || AppFlow.isLoading st) eqn:Hguard; [done|].
  match goal with
  | |- context [AppFlow.processResponse _ _ _ ?s] => set (sent := s)
  end.
  assert (AppFlow.messages sent = AppFlow.messages st ++ [userMsg nowUser text])
    as Hsent by by destruct (negb (JS.truthy_opt (AppFlow.currentSessionId st))).
  assert (AppFlow.currentSessionId sent =
          (if JS.truthy_opt (AppFlow.currentSessionId st)
           then AppFlow.currentSessionId st else Some (pretty nowSession)))
    as Hid by by destruct (JS.truthy_opt (AppFlow.currentSessionId st)).
  assert (AppFlow.sessions sent = AppFlow.sessions st ∧
          AppFlow.inputText sent = "" ∧
          AppFlow.mode sent = AppFlow.mode st ∧
          AppFlow.settings sent = AppFlow.settings st)
    as (Hsessions & Hinput & Hmode & Hsettings)
    by by destruct (negb (JS.truthy_opt (AppFlow.currentSessionId st))).
  destruct (processResponse_state nowBot sent)
    as (Hloading & Hlength & Hothers & (bot & Hbot & Hbotid & Hstreaming & Hanswer)
        & Hsessions' & Hid' & Hinput' & Hmode' & Hsettings').
  rewrite Hsent in Hlength, Hothers, Hbot.
  rewrite length_app in Hlength, Hbot. simpl in Hlength, Hbot.
  rewrite Nat.add_1_r in Hlength, Hbot.
  split_and!.
  - congruence.
  - done.
  - congruence.
  - rewrite Hid', Hid.
    destruct (JS.truthy_opt (AppFlow.currentSessionId st)) eqn:Hhas; [done|].
    apply pretty_truthy.
  - done.
  - intros i m Hi Hother. apply Hothers; [|done]. by apply lookup_app_l_Some.
  - apply Hothers; [by rewrite list_lookup_middle|].
    unfold botMsgId. simpl. intros Hsame%(inj pretty). lia.
  - exists bot. split_and!; try done. intros Hclient. by apply Hanswer.
  - congruence.
  - congruence.
  - congruence.
Qed.

(** X: [handleRegenerate]. *)
Theorem handleRegenerate_transcript nowBot st :
  let done := handleRegenerate nowBot st in
  (AppFlow.isLoading st = true ∨ (length (AppFlow.messages st) < 2)%nat ∨
   Forall (λ m, Message.role m ≠ USER) (AppFlow.messages st) →
   done = st) ∧
  (AppFlow.isLoading st = false →
   (2 ≤ length (AppFlow.messages st))%nat →
   ∀ before user behind,
     AppFlow.messages st = before ++ user :: behind →
     Message.role user = USER →
     Forall (λ m, Message.role m ≠ USER) behind →
     length (AppFlow.messages done) = S (S (length before)) ∧
     (∀ i m,
        (before ++ [user]) !! i = Some m → Message.id m ≠ botMsgId nowBot →
        AppFlow.messages done !! i = Some m) ∧
     (∃ bot,
        AppFlow.messages done !! S (length before) = Some bot ∧
        Message.id bot = botMsgId nowBot ∧
        Message.isStreaming bot = Some false ∧
        (getAI = JS.Return tt → Message.role bot = MODEL)) ∧
     AppFlow.isLoading done = false ∧
     AppFlow.sessions done = AppFlow.sessions st ∧
     AppFlow.currentSessionId done = AppFlow.currentSessionId st ∧
     AppFlow.inputText done = AppFlow.inputText st).
Proof.
  intros done. unfold done, AppFlow.handleRegenerate. split.
  - intros [Hloading|[Hshort|Hnone]].
    + by rewrite Hloading.
    + apply Nat.ltb_lt in Hshort. rewrite Hshort. by rewrite orb_true_r.
    + rewrite lastUserMsgIndex_none by done. simpl. by case_match.
  - intros Hloading Hlong before user behind Hsplit Huser Hbehind.
    rewrite Hloading. apply Nat.ltb_ge in Hlong. rewrite Hlong. cbn [orb].
    assert (AppFlow.lastUserMsgIndex (length (AppFlow.messages st)) (AppFlow.messages st)
            = Z.of_nat (length before)) as ->.
    { rewrite Hsplit at 1. rewrite length_app. simpl length.
      replace (length before + S (length behind))%nat
        with (S (length before) + length behind)%nat by lia.
      rewrite Hsplit. by apply lastUserMsgIndex_found. }
    destruct (Z.of_nat (length before) =? -1) eqn:Hindex; [lia|].
    replace (Z.to_nat (Z.of_nat (length before) + 1)) with (S (length before)) by lia.
    match goal with
    | |- context [AppFlow.processResponse _ _ _ ?s] => set (kept := s)
    end.
    assert (AppFlow.messages kept = before ++ [user]) as Hkept.
    { unfold kept. simpl. rewrite Hsplit.
      rewrite (cons_middle user before behind), app_assoc.
      rewrite take_app_length'; [done|]. rewrite length_app. simpl. lia. }
    destruct (processResponse_state nowBot kept)
      as (Hdone & Hlength & Hothers & (bot & Hbot & Hbotid & Hstreaming & Hanswer)
          & Hsessions & Hid & Hinput & _).
    rewrite Hkept in Hlength, Hothers, Hbot.
    rewrite length_app in Hlength, Hbot. simpl in Hlength, Hbot.
    rewrite Nat.add_1_r in Hlength, Hbot.
    split_and!; try done.
    exists bot. split_and!; try done. intros Hclient. by apply Hanswer.
Qed.

End WithRuntime.

Lemma rename_sorted id title sessions :
  StronglySorted newer sessions → StronglySorted newer (rename id title sessions).
Proof.
  unfold rename. induction 1 as [|x l Hsorted IH Hx]; [constructor|].
  rewrite fmap_cons. constructor; [done|].
  apply Forall_fmap. eapply Forall_impl; [done|].
  intros y Hy. unfold newer in *. simpl. by repeat case_decide.
Qed.

Lemma rename_others id title sessions :
  Forall (λ s, ChatSession.id s ≠ id) sessions → rename id title sessions = sessions.
Proof.
  unfold rename. induction 1 as [|x l Hx Hl IH]; [done|].
  rewrite fmap_cons, IH. by rewrite decide_False.
Qed.

Lemma rename_app id title l1 l2 :
  rename id title (l1 ++ l2) = rename id title l1 ++ rename id title l2.
Proof. apply fmap_app. Qed.

Lemma rename_cons id title s l :
  rename id title (s :: l) =
  (if decide (ChatSession.id s = id) then AppFlow.set_title title s else s)
    :: rename id title l.
Proof. done. Qed.

(** Replacing a stored session by itself under the new title is renaming
    it where it stands. *)
Lemma upsert_set_title id title stored s :
  NoDup (ids stored) →
  JS.find (λ x, ChatSession.id x = id) stored = Some s →
  Storage.upsert (AppFlow.set_title title s) stored = rename id title stored.
Proof.
  intros Hunique Hfind. unfold JS.find in Hfind.
  destruct (list_find _ stored) as [[i x]|] eqn:Hlist; [|done].
  injection Hfind as ->.
  apply list_find_Some in Hlist as (Hi & Hs & Hfirst).
  destruct (StorageFacts.upsert_cases (AppFlow.set_title title s) stored)
    as [(l1 & old & l2 & Hstored & Hold & Hl1 & ->) | (Hnone & _)];
    cbn [AppFlow.set_title ChatSession.id] in *.
  - rewrite Hs in *.
    assert (i = length l1) as ->.
    { destruct (Nat.lt_trichotomy i (length l1)) as [Hlt|[Heq|Hgt]]; [|done|].
      - rewrite Hstored, lookup_app_l in Hi by done.
        eapply Forall_forall in Hl1; [|by eapply list_elem_of_lookup_2]. done.
      - destruct (Hfirst (length l1) old); [|done..].
        rewrite Hstored. by apply list_lookup_middle. }
    rewrite Hstored, list_lookup_middle in Hi by done. injection Hi as ->.
    assert (Forall (λ x, ChatSession.id x ≠ ChatSession.id s) l2) as Hl2.
    { rewrite Hstored in Hunique. unfold ids in Hunique.
      rewrite fmap_app, fmap_cons in Hunique.
      apply NoDup_app in Hunique as (_ & _ & [Hfresh _]%NoDup_cons).
      apply Forall_forall. intros y Hy Hsame. apply Hfresh.
      rewrite <- Hsame. by apply list_elem_of_fmap_2. }
    rewrite Hs in Hl2. rewrite Hstored, rename_app, rename_cons.
    rewrite !rename_others by done. by rewrite decide_True.
  - eapply Forall_forall in Hnone; [|by eapply list_elem_of_lookup_2]. done.
Qed.

Lemma find_ids id (sessions : list ChatSession.t) :
  (id ∈ ids sessions → ∃ s, JS.find (λ x, ChatSession.id x = id) sessions = Some s) ∧
  (id ∉ ids sessions → JS.find (λ x, ChatSession.id x = id) sessions = None).
Proof.
  unfold JS.find, ids. split.
  - intros (s & Hs & Hin)%list_elem_of_fmap.
    destruct (list_find_elem_of (λ x, ChatSession.id x = id) sessions s Hin (eq_sym Hs))
      as [[i x] Hfind].
    exists x. by rewrite Hfind.
  - intros Hnone. destruct (list_find _ sessions) as [[i x]|] eqn:Hfind; [|done].
    apply list_find_Some in Hfind as (Hi & Hx & _). destruct Hnone.
    rewrite <- Hx. apply list_elem_of_fmap_2. by eapply list_elem_of_lookup_2.
Qed.

Section WithStorage.
Variable JSON_parse : string → JS.completion (list ChatSession.t).
Variable JSON_stringify : list ChatSession.t → string.
Variable substring_0_60 : string → string.

Local Abbreviation getSessions := (Storage.getSessions JSON_parse).
Local Abbreviation getSessionById := (Storage.getSessionById JSON_parse).
Local Abbreviation updatedSession := (AppFlow.updatedSession substring_0_60).
Local Abbreviation saveEffect :=
  (AppFlow.saveEffect JSON_parse JSON_stringify substring_0_60).
Local Abbreviation deleteChatSession :=
  (AppFlow.deleteChatSession JSON_parse JSON_stringify).
Local Abbreviation onTitle := (AppFlow.onTitle JSON_parse JSON_stringify).

(** The save effect when it has something to save. *)
Lemma saveEffect_unfold now st ls stored id :
  (1 < length (AppFlow.messages st))%nat →
  AppFlow.currentSessionId st = Some id →
  JS.truthy id = true →
  getSessions ls = JS.Return stored →
  ∃ lastMessage,
    last (AppFlow.messages st) = Some lastMessage ∧
    let session := updatedSession now id lastMessage st in
    let trimmed :=
      take 50 (JS.sort Storage.newest_first (Storage.upsert session stored)) in
    saveEffect now st ls =
      JS.Return
        (AppFlow.setSessions (λ _, trimmed) st,
         LocalStorage.setItem Storage.STORAGE_KEY (JSON_stringify trimmed) ls).
Proof.
  intros Hlong Hid Htruthy Hget.
  destruct (last (AppFlow.messages st)) as [lastMessage|] eqn:Hlast.
  2:{ apply last_None in Hlast. rewrite Hlast in Hlong. simpl in Hlong. lia. }
  exists lastMessage. split; [done|]. intros session trimmed.
  unfold AppFlow.saveEffect. apply Nat.ltb_lt in Hlong. rewrite Hlong, Hid, Hlast.
  simpl JS.truthy_opt. rewrite Htruthy. cbn [andb default].
  fold session.
  by rewrite (StorageFacts.saveSession_unfold _ _ session _ stored Hget).
Qed.

(** X: the save effect never throws, writes nothing while there is only
    the greeting or no session, and touches [sessions] only. *)
Theorem saveEffect_returns now st ls :
  ∃ st' ls',
    saveEffect now st ls = JS.Return (st', ls') ∧
    same_view st' st ∧
    ((length (AppFlow.messages st) ≤ 1)%nat ∨
     JS.truthy_opt (AppFlow.currentSessionId st) = false →
     st' = st ∧ ls' = ls).
Proof.
  destruct (decide (1 < length (AppFlow.messages st))%nat) as [Hlong|Hshort].
  - destruct (AppFlow.currentSessionId st) as [[|c id]|] eqn:Hid.
    + exists st, ls. unfold AppFlow.saveEffect. rewrite Hid. simpl.
      rewrite andb_false_r. by repeat split.
    + destruct (StorageFacts.getSessions_returns JSON_parse ls) as [stored Hget].
      destruct (saveEffect_unfold now st ls stored (String c id) Hlong Hid eq_refl Hget)
        as (lastMessage & _ & Hsave).
      eexists _, _. split; [exact Hsave|]. split; [by repeat split|].
      intros [Hshort|Hnone]; [lia|done].
    + exists st, ls. unfold AppFlow.saveEffect. rewrite Hid. simpl.
      rewrite andb_false_r. by repeat split.
  - exists st, ls. unfold AppFlow.saveEffect.
    apply Nat.ltb_nlt in Hshort. rewrite Hshort. by repeat split.
Qed.

(** X: with a clock that moved on, the save effect puts the open session
    at the head of the list. *)
Theorem saveEffect_puts_session_first now st ls stored id :
  (1 < length (AppFlow.messages st))%nat →
  AppFlow.currentSessionId st = Some id →
  JS.truthy id = true →
  getSessions ls = JS.Return stored →
  StronglySorted newer stored →
  NoDup (ids stored) →
  Forall (λ y, ChatSession.id y ≠ id → ChatSession.updatedAt y < now) stored →
  ∃ session st' ls',
    saveEffect now st ls = JS.Return (st', ls') ∧
    AppFlow.sessions st' =
      take 50 (session :: filter (λ y, ChatSession.id y ≠ id) stored) ∧
    head (AppFlow.sessions st') = Some session ∧
    LocalStorage.getItem Storage.STORAGE_KEY ls'
      = Some (JSON_stringify (AppFlow.sessions st')) ∧
    ChatSession.id session = id ∧
    ChatSession.messages session = AppFlow.messages st ∧
    ChatSession.mode session = AppFlow.mode st ∧
    ChatSession.settings session = AppFlow.settings st ∧
    ChatSession.updatedAt session = now.
Proof.
  intros Hlong Hid Htruthy Hget Hsorted Hunique Hnewest.
  destruct (saveEffect_unfold now st ls stored id Hlong Hid Htruthy Hget)
    as (lastMessage & _ & Hsave).
  cbn zeta in Hsave.
  rewrite (StoreFacts.sort_upsert_newest (updatedSession now id lastMessage st) stored)
    in Hsave by done.
  eexists _, _, _. split; [exact Hsave|]. split_and!; try done.
  unfold LocalStorage.getItem, LocalStorage.setItem, LocalStorage.t.
  by rewrite lookup_insert_eq.
Qed.

(** X: a session that the save effect wrote opens with the transcript,
    the mode and the settings it was saved with. *)
Theorem saveEffect_loadSession now st ls stored id :
  (1 < length (AppFlow.messages st))%nat →
  AppFlow.currentSessionId st = Some id →
  JS.truthy id = true →
  getSessions ls = JS.Return stored →
  (length (filter (λ y, ChatSession.id y = id) stored) ≤ 1)%nat →
  (length (filter (λ y, ChatSession.id y ≠ id ∧ (now ≤ ChatSession.updatedAt y)%Z)
             stored) < 50)%nat →
  ∃ session st' ls',
    saveEffect now st ls = JS.Return (st', ls') ∧
    JS.find (λ s, ChatSession.id s = id) (AppFlow.sessions st') = Some session ∧
    ∀ narrow other,
      let back := AppFlow.loadSession session narrow other in
      AppFlow.currentSessionId back = Some id ∧
      AppFlow.messages back = AppFlow.messages st ∧
      AppFlow.mode back = AppFlow.mode st ∧
      AppFlow.settings back = AppFlow.settings st.
Proof.
  intros Hlong Hid Htruthy Hget Hone Hrank.
  destruct (saveEffect_unfold now st ls stored id Hlong Hid Htruthy Hget)
    as (lastMessage & _ & Hsave).
  cbn zeta in Hsave. set (session := updatedSession now id lastMessage st) in *.
  set (trimmed := take 50 (JS.sort Storage.newest_first (Storage.upsert session stored)))
    in *.
  assert (session ∈ trimmed) as Hin
    by by apply (StorageFacts.saved_within_cut JSON_parse JSON_stringify).
  exists session. eexists _, _. split; [exact Hsave|]. split.
  - cbn [AppFlow.sessions AppFlow.setSessions]. unfold JS.find.
    destruct (list_find_elem_of (λ s, ChatSession.id s = id) trimmed session Hin eq_refl)
      as [[i x] Hfind].
    rewrite Hfind. simpl. f_equal.
    apply list_find_Some in Hfind as (Hi & Hx & _).
    apply (StorageFacts.upsert_owner session stored); [done| |done].
    apply (JSFacts.elem_of_sort Storage.newest_first).
    eapply elem_of_sublist; [|apply sublist_take]. by eapply list_elem_of_lookup_2.
  - intros narrow other back. unfold back, AppFlow.loadSession.
    by destruct narrow.
Qed.

(** X: [deleteChatSession]. *)
Theorem deleteChatSession_result id now narrow st ls stored :
  getSessions ls = JS.Return stored →
  (∃ e, JSON_parse "" = JS.Throw e) →
  JSON_parse (JSON_stringify (filter (λ s, ChatSession.id s ≠ id) stored))
    = JS.Return (filter (λ s, ChatSession.id s ≠ id) stored) →
  ∃ st' ls',
    deleteChatSession id now narrow st ls = JS.Return (st', ls') ∧
    AppFlow.sessions st' = filter (λ s, ChatSession.id s ≠ id) stored ∧
    getSessions ls' = JS.Return (AppFlow.sessions st') ∧
    getSessionById id ls' = JS.Return None ∧
    AppFlow.settings st' = AppFlow.settings st ∧
    AppFlow.inputText st' = AppFlow.inputText st ∧
    if decide (AppFlow.currentSessionId st = Some id) then
      AppFlow.messages st' = [AppFlow.INITIAL_MESSAGE] ∧
      AppFlow.currentSessionId st' = Some (pretty now) ∧
      AppFlow.mode st' = CHAT ∧
      ∀ later, saveEffect later st' ls' = JS.Return (st', ls')
    else
      AppFlow.messages st' = AppFlow.messages st ∧
      AppFlow.currentSessionId st' = AppFlow.currentSessionId st ∧
      AppFlow.mode st' = AppFlow.mode st.
Proof.
  intros Hget Hempty Hround. eexists _, _. split.
  { unfold AppFlow.deleteChatSession, Storage.deleteSession. rewrite Hget. done. }
  cbn [AppFlow.currentSessionId AppFlow.setSessions].
  assert (getSessions
            (LocalStorage.setItem Storage.STORAGE_KEY
               (JSON_stringify (filter (λ s, ChatSession.id s ≠ id) stored)) ls)
          = JS.Return (filter (λ s, ChatSession.id s ≠ id) stored)) as Hread
    by by apply StoreFacts.getSessions_written.
  destruct (decide (AppFlow.currentSessionId st = Some id)) as [Hcurrent|Hother].
  - split_and!; try by destruct narrow.
    unfold Storage.getSessionById. rewrite Hread. simpl.
    by rewrite StoreFacts.find_filter_same.
  - split_and!; try done.
    unfold Storage.getSessionById. rewrite Hread. simpl.
    by rewrite StoreFacts.find_filter_same.
Qed.

(** X: a title that arrives renames the session where it stands, in the
    list shown and in the stored one. *)
Theorem onTitle_renames id title st ls stored :
  getSessions ls = JS.Return stored →
  StronglySorted newer stored →
  NoDup (ids stored) →
  (length stored ≤ 50)%nat →
  ∃ st' ls',
    onTitle id title st ls = JS.Return (st', ls') ∧
    AppFlow.sessions st' = rename id title (AppFlow.sessions st) ∧
    same_view st' st ∧
    (id ∈ ids stored →
     ls' = LocalStorage.setItem Storage.STORAGE_KEY
             (JSON_stringify (rename id title stored)) ls) ∧
    (id ∉ ids stored → ls' = ls).
Proof.
  intros Hget Hsorted Hunique Hroom.
  destruct (find_ids id stored) as [Hsome Hnone].
  destruct (decide (id ∈ ids stored)) as [Hin|Hout].
  - destruct (Hsome Hin) as [s Hfind].
    eexists _, _. split.
    { unfold AppFlow.onTitle. rewrite Hget. simpl. rewrite Hfind.
      rewrite (StorageFacts.saveSession_unfold _ _ _ _ stored Hget). simpl.
      rewrite (upsert_set_title id title stored s) by done.
      rewrite StoreFacts.sort_sorted by by apply rename_sorted.
      rewrite take_ge; [done|]. unfold rename. by rewrite length_fmap. }
    split_and!; done.
  - eexists _, _. split.
    { unfold AppFlow.onTitle. rewrite Hget. simpl. by rewrite (Hnone Hout). }
    split_and!; done.
Qed.

End WithStorage.
End AppFacts.

(** ** geminiService.ts and App.tsx: sources, exhausted models, the error flag *)

Module ResponseFacts.
Import ChainTerms StreamTerms.

Lemma replay_record log start :
  replay record_chunk (Some record_sources) log start = start ++ log.
Proof.
  revert start. induction log as [|call log IH]; intros start; simpl.
  - by rewrite app_nil_r.
  - destruct call; rewrite IH; unfold record_chunk, record_sources;
      by rewrite <- app_assoc.
Qed.

Lemma web_source_complete w s :
  Gemini.web_source w = Some s →
  w = Some {| Web.uri := Some (Source.uri s); Web.title := Some (Source.title s) |} ∧
  JS.truthy (Source.uri s) = true ∧ JS.truthy (Source.title s) = true.
Proof.
  unfold Gemini.web_source. destruct w as [[[u|] [t|]]|]; try done.
  destruct (JS.truthy u) eqn:Hu, (JS.truthy t) eqn:Ht; simpl; try done.
  by intros [= <-].
Qed.

Lemma calls_sources chunks sources :
  OnSources sources ∈ calls chunks →
  ∃ chunk groundingChunks,
    chunk ∈ chunks ∧
    Chunk.groundingChunks chunk = Some groundingChunks ∧
    sources = omap Gemini.web_source groundingChunks ∧
    sources ≠ [].
Proof.
  induction chunks as [|chunk chunks IH]; [by intros ?%elem_of_nil|].
  rewrite StreamFacts.calls_cons. intros [Hhere|Hlater]%elem_of_app.
  - exists chunk. unfold calls in Hhere. simpl in Hhere.
    unfold Gemini.processChunk, record_chunk, record_sources in Hhere.
    destruct (Chunk.groundingChunks chunk) as [groundingChunks|] eqn:Hgrounding.
    + exists groundingChunks.
      destruct (0 <? length (omap Gemini.web_source groundingChunks))%nat eqn:Hsome.
      * assert (sources = omap Gemini.web_source groundingChunks) as ->.
        { destruct (JS.truthy_opt (Chunk.text chunk)); simpl in Hhere;
            repeat (apply elem_of_cons in Hhere as [Hhere|Hhere];
                    [first [discriminate Hhere | by injection Hhere]|]);
            by apply elem_of_nil in Hhere. }
        split_and!; [apply list_elem_of_here|done..|].
        apply Nat.ltb_lt in Hsome. intros Hnone. rewrite Hnone in Hsome.
        simpl in Hsome. lia.
      * destruct (JS.truthy_opt (Chunk.text chunk)); simpl in Hhere;
          repeat (apply elem_of_cons in Hhere as [Hhere|Hhere]; [discriminate Hhere|]);
          by apply elem_of_nil in Hhere.
    + destruct (JS.truthy_opt (Chunk.text chunk)); simpl in Hhere;
        repeat (apply elem_of_cons in Hhere as [Hhere|Hhere]; [discriminate Hhere|]);
        by apply elem_of_nil in Hhere.
  - destruct (IH Hlater) as (chunk' & groundingChunks & Hin & Hrest).
    exists chunk', groundingChunks. split; [by apply list_elem_of_further|done].
Qed.

Lemma all_calls_sources ai models lastError sources :
  OnSources sources ∈ all_calls ai models lastError →
  ∃ modelName, modelName ∈ models ∧
               OnSources sources ∈ calls (Stream.chunks (ai modelName)).
Proof.
  revert lastError. induction models as [|m0 rest IH]; intros lastError; simpl.
  - destruct lastError; [|by intros ?%elem_of_nil].
    intros [[=]|[]%elem_of_nil]%elem_of_cons.
  - intros [Hhere|Hlater]%elem_of_app.
    + exists m0. split; [apply list_elem_of_here|done].
    + destruct (Stream.failure (ai m0)) as [error|]; [|by apply elem_of_nil in Hlater].
      destruct (Gemini.isRecoverable error).
      * destruct (IH _ Hlater) as (modelName & Hin & Hcalls).
        exists modelName. split; [by apply list_elem_of_further|done].
      * by apply elem_of_cons in Hlater as [[=]|[]%elem_of_nil].
Qed.

Section Service.
Variable getAI : JS.completion unit.
Variable ai : string → Stream.t.

(** What [streamResponse] did to the callbacks, whatever they are. *)
Lemma streamResponse_replay {St} onChunk onSources (st : St) :
  (Gemini.streamResponse onChunk onSources getAI ai st).2.2 =
  match getAI with
  | JS.Return _ => replay onChunk onSources (all_calls ai Gemini.modelsToTry None) st
  | JS.Throw _ => st
  end.
Proof.
  unfold Gemini.streamResponse. destruct getAI; [|done].
  apply StreamFacts.tryModels_replay.
Qed.

(** X: [onSources] is only called with sources that have a uri and a
    title, and never with none. *)
Theorem onSources_receives_complete_sources sources :
  OnSources sources
    ∈ (Gemini.streamResponse record_chunk (Some record_sources) getAI ai []).2.2 →
  sources ≠ [] ∧
  Forall (λ s, JS.truthy (Source.uri s) = true ∧ JS.truthy (Source.title s) = true)
    sources ∧
  ∃ modelName chunk groundingChunks,
    modelName ∈ Gemini.modelsToTry ∧
    chunk ∈ Stream.chunks (ai modelName) ∧
    Chunk.groundingChunks chunk = Some groundingChunks ∧
    sources = omap Gemini.web_source groundingChunks.
Proof.
  rewrite streamResponse_replay. destruct getAI; [|by intros ?%elem_of_nil].
  rewrite replay_record, app_nil_l.
  intros (modelName & Hmodel & Hcalls)%all_calls_sources.
  destruct (calls_sources _ _ Hcalls) as (chunk & groundingChunks & Hin & Hg & -> & Hsome).
  split_and!; [done| |by exists modelName, chunk, groundingChunks].
  apply Forall_forall. intros s (w & Hw & Hs)%list_elem_of_omap.
  by destruct (web_source_complete w s Hs) as (_ & Huri & Htitle).
Qed.

(** X: when every model fails with an error that is retried, the call
    returns after it reported the error of the last model. *)
Theorem streamResponse_exhausted {St} onChunk onSources (st : St) e1 e2 e3 :
  getAI = JS.Return tt →
  Stream.failure (ai "gemini-3-pro-preview") = Some e1 →
  Stream.failure (ai "gemini-3-flash-preview") = Some e2 →
  Stream.failure (ai "gemini-2.5-flash-latest") = Some e3 →
  Gemini.isRecoverable e1 = true →
  Gemini.isRecoverable e2 = true →
  Gemini.isRecoverable e3 = true →
  Gemini.streamResponse onChunk onSources getAI ai st =
    (JS.Return tt,
     (Gemini.modelsToTry,
      onChunk (Gemini.newline +:+ Gemini.newline +:+ Gemini.getFriendlyErrorMessage e3)
        (delivered onChunk onSources ai st Gemini.modelsToTry))) ∧
  chunk_calls
    (Gemini.streamResponse record_chunk (Some record_sources) getAI ai []).2.2 =
    texts (Stream.chunks (ai "gemini-3-pro-preview")) ++
    texts (Stream.chunks (ai "gemini-3-flash-preview")) ++
    texts (Stream.chunks (ai "gemini-2.5-flash-latest")) ++
    [Gemini.newline +:+ Gemini.newline +:+ Gemini.getFriendlyErrorMessage e3].
Proof.
  intros Hclient Hf1 Hf2 Hf3 Hr1 Hr2 Hr3. split.
  - unfold Gemini.streamResponse. rewrite Hclient.
    rewrite (ChainFacts.tryModels_exhausted onChunk onSources ai).
    + unfold last_error, Gemini.modelsToTry. simpl. by rewrite Hf1, Hf2, Hf3.
    + unfold Gemini.modelsToTry. repeat constructor; eexists; eauto.
  - rewrite streamResponse_replay, Hclient, replay_record, app_nil_l.
    unfold Gemini.modelsToTry. simpl. rewrite Hf1, Hr1, Hf2, Hr2, Hf3, Hr3.
    by rewrite !StreamFacts.chunk_calls_app, !StreamFacts.chunk_calls_calls.
Qed.

Lemma replay_isError botMsgId log st :
  Message.isError <$>
    App.messages
      (replay (App.onChunk botMsgId) (Some (App.onSources botMsgId)) log st).2 =
  Message.isError <$> App.messages st.2.
Proof.
  revert st. induction log as [|call log IH]; intros st; [done|]. simpl.
  destruct call as [text|sources]; rewrite IH; simpl; unfold App.update_bot;
    rewrite <- list_fmap_compose; apply list_fmap_ext; intros i m _; simpl;
    by case_decide.
Qed.

(** X: an error of the service never flags a message. *)
Theorem processResponse_flags_no_service_error now app :
  getAI = JS.Return tt →
  Message.isError <$> App.messages (App.processResponse getAI ai now app) =
  (Message.isError <$> App.messages app) ++ [None].
Proof.
  intros Hclient. unfold App.processResponse.
  match goal with
  | |- context [Gemini.streamResponse ?c ?s _ _ ?start] =>
      pose proof (streamResponse_replay c s start) as Hreplay;
      destruct (ChainFacts.streamResponse_returns c s getAI ai start Hclient)
        as [[attempted final] Hreturn];
      rewrite Hreturn in Hreplay |- *
  end.
  rewrite Hclient in Hreplay. cbn [fst snd] in Hreplay.
  destruct final as [locals final]. cbn [App.messages App.setMessages App.setIsLoading].
  unfold App.update_bot. rewrite <- list_fmap_compose.
  transitivity (Message.isError <$> App.messages final).
  { apply list_fmap_ext. intros i m _. simpl. by case_decide. }
  change (App.messages final) with (App.messages (locals, final).2).
  rewrite Hreplay, replay_isError. simpl. by rewrite fmap_app.
Qed.

End Service.

(** X: what [onSources] of [processResponse] collects. *)
Theorem onSources_collects botMsgId sources st :
  let collected := App.collectedSources st.1 in
  let after := App.collectedSources (App.onSources botMsgId sources st).1 in
  collected `prefix_of` after ∧
  (∀ s, s ∈ sources → Source.uri s ∈ Source.uri <$> after) ∧
  (∀ s, s ∈ after → s ∈ collected ∨ s ∈ sources) ∧
  (NoDup (Source.uri <$> collected) → NoDup (Source.uri <$> sources) →
   NoDup (Source.uri <$> after)) ∧
  App.accumulatedText (App.onSources botMsgId sources st).1 = App.accumulatedText st.1.
Proof.
  intros collected after. unfold after. simpl. fold collected.
  set (seen := λ s : Source.t,
         existsb (λ existing, String.eqb (Source.uri existing) (Source.uri s)) collected).
  assert (∀ s, seen s = true ↔ Source.uri s ∈ Source.uri <$> collected) as Hseen.
  { intros s. unfold seen. rewrite existsb_exists, list_elem_of_fmap. split.
    - intros (x & Hx%list_elem_of_In & Heq%String.eqb_eq). by exists x.
    - intros (x & Hx & Hin). exists x. split; [by apply list_elem_of_In|].
      by apply String.eqb_eq. }
  split_and!.
  - by apply prefix_app_r.
  - intros s Hs. rewrite fmap_app, elem_of_app.
    destruct (seen s) eqn:Hs'.
    + left. by apply Hseen.
    + right. apply list_elem_of_fmap_2, list_elem_of_In, filter_In.
      split; [by apply list_elem_of_In|]. fold (seen s). by rewrite Hs'.
  - intros s [Hold|Hnew]%elem_of_app; [by left|right].
    apply list_elem_of_In, filter_In in Hnew as [Hnew _]. by apply list_elem_of_In.
  - intros Hcollected Hsources. rewrite fmap_app. apply NoDup_app. split_and!.
    + done.
    + intros u Hu (s & -> & Hs)%list_elem_of_fmap.
      apply list_elem_of_In, filter_In in Hs as [_ Hs]. fold (seen s) in Hs.
      apply Hseen in Hu. by rewrite Hu in Hs.
    + eapply sublist_NoDup; [done|]. apply fmap_sublist.
      clear. induction sources as [|s sources IH]; simpl; [done|].
      case_match; [by apply sublist_skip|by apply sublist_cons].
  - done.
Qed.

End ResponseFacts.

(* ================================================================== *)
(** * Part V: the properties on concrete stores and answers *)
(* ================================================================== *)

Module Concrete.

Local Abbreviation getSessions := (Storage.getSessions SexpCodec.parse).
Local Abbreviation saveSession :=
  (Storage.saveSession SexpCodec.parse SexpCodec.stringify).
Local Abbreviation deleteSession :=
  (Storage.deleteSession SexpCodec.parse SexpCodec.stringify).
Local Abbreviation getSessionById := (Storage.getSessionById SexpCodec.parse).

Lemma parse_empty : ∃ e, SexpCodec.parse "" = JS.Throw e.
Proof. eexists. vm_compute. reflexivity. Defined.

Lemma sample_store : getSessions Sample.store = JS.Return Sample.stored.
Proof. vm_compute. reflexivity. Defined.

(** The sample store is read as written, and an empty [localStorage]
    gives the empty list. *)
Lemma getSessions_never_throws_witness :
  (∃ e, SexpCodec.parse "" = JS.Throw e) ∧
  getSessions Sample.store = JS.Return Sample.stored ∧
  getSessions ∅ = JS.Return [].
Proof.
  split; [exact parse_empty|]. split.
  - destruct (StorageFacts.getSessions_never_throws SexpCodec.parse
                Sample.store parse_empty) as (_ & _ & _ & Hparsed).
    apply (Hparsed (SexpCodec.stringify Sample.stored)); vm_compute; reflexivity.
  - destruct (StorageFacts.getSessions_never_throws SexpCodec.parse
                ∅ parse_empty) as (_ & Habsent & _).
    apply Habsent. reflexivity.
Defined.

(** Saving a newer version of session [b] replaces the stored one. *)
Lemma saveSession_keeps_ids_unique_witness :
  getSessions Sample.store = JS.Return Sample.stored ∧
  NoDup (StorageTerms.ids Sample.stored) ∧
  ∃ trimmed,
    saveSession (Sample.session "b" 40) Sample.store =
      JS.Return
        (trimmed,
         LocalStorage.setItem Storage.STORAGE_KEY (SexpCodec.stringify trimmed)
           Sample.store) ∧
    NoDup (StorageTerms.ids trimmed) ∧
    StorageTerms.ids trimmed = ["b"; "a"; "c"].
Proof.
  assert (NoDup (StorageTerms.ids Sample.stored)) as Hnodup.
  { apply (bool_decide_unpack _). vm_compute. reflexivity. }
  split; [exact sample_store|]. split; [exact Hnodup|].
  destruct (StorageFacts.saveSession_keeps_ids_unique SexpCodec.parse
              SexpCodec.stringify (Sample.session "b" 40) Sample.store
              Sample.stored sample_store Hnodup)
    as (trimmed & Hsave & Hunique & Htrimmed & _).
  exists trimmed. split; [exact Hsave|]. split; [exact Hunique|].
  rewrite Htrimmed. vm_compute. reflexivity.
Defined.

(** Saving a newer version of session [b] and reading [b] back. *)
Lemma saveSession_getSessionById_witness :
  getSessions Sample.store = JS.Return Sample.stored ∧
  ∃ trimmed ls',
    saveSession (Sample.session "b" 40) Sample.store = JS.Return (trimmed, ls') ∧
    getSessionById "b" ls' = JS.Return (Some (Sample.session "b" 40)).
Proof.
  split; [exact sample_store|].
  apply (StorageFacts.saveSession_getSessionById SexpCodec.parse SexpCodec.stringify
           (Sample.session "b" 40) Sample.store Sample.stored sample_store).
  - vm_compute. lia.
  - vm_compute. lia.
  - exact parse_empty.
  - vm_compute. reflexivity.
Defined.

(** Deleting an id that no stored session has leaves the sample list as
    it is. *)
Lemma deleteSession_frame_witness :
  Forall (λ x, ChatSession.id x ≠ "z") Sample.stored ∧
  ∃ ls', deleteSession "z" Sample.store = JS.Return (Sample.stored, ls').
Proof.
  assert (Forall (λ x, ChatSession.id x ≠ "z") Sample.stored) as Hnone
    by (repeat constructor; discriminate).
  split; [exact Hnone|].
  destruct (StorageFacts.deleteSession_frame SexpCodec.parse SexpCodec.stringify
              "z" Sample.store)
    as (sessions & newSessions & removed & Hget & Hdelete & _ & _ & _ & _ & _ & Hsame).
  rewrite sample_store in Hget. injection Hget as <-.
  rewrite (Hsame Hnone) in Hdelete. eexists. exact Hdelete.
Defined.

(** An error that names both a refused key and an exhausted quota
    triggers the second check and the third, not the first: the message is
    that of the second. *)
Lemma getFriendlyErrorMessage_priority_witness :
  ErrorTerms.matches (ErrorTerms.msg Sample.denied_and_exhausted)
    (["403"; "PERMISSION_DENIED"],
     "[System Error: Access Denied. Your API key may not have access to the selected model. Check your project permissions.]")
  = true ∧
  ErrorTerms.matches (ErrorTerms.msg Sample.denied_and_exhausted)
    (["429"; "RESOURCE_EXHAUSTED"],
     "[System Error: Quota Exceeded. You are strictly rate-limited.]")
  = true ∧
  Gemini.getFriendlyErrorMessage Sample.denied_and_exhausted =
  "[System Error: Access Denied. Your API key may not have access to the selected model. Check your project permissions.]".
Proof.
  split; [vm_compute; reflexivity|]. split; [vm_compute; reflexivity|].
  destruct (ErrorFacts.getFriendlyErrorMessage_priority Sample.denied_and_exhausted)
    as (Hfirst & _ & _ & _).
  apply (Hfirst 1%nat
           (["403"; "PERMISSION_DENIED"],
            "[System Error: Access Denied. Your API key may not have access to the selected model. Check your project permissions.]")).
  - reflexivity.
  - vm_compute. reflexivity.
  - intros [|j] earlier Hj Hearlier; [|lia].
    injection Hearlier as <-. vm_compute. reflexivity.
Defined.

(** The first model is overloaded and the second answers: the second is
    the last model tried. *)
Lemma streamResponse_model_order_witness :
  (Gemini.streamResponse StreamTerms.record_chunk (Some StreamTerms.record_sources)
     (JS.Return tt) Sample.second_answers []).2.1 !! 1%nat
  = Some "gemini-3-flash-preview" ∧
  Stream.failure (Sample.second_answers "gemini-3-flash-preview") = None ∧
  length (Gemini.streamResponse StreamTerms.record_chunk
            (Some StreamTerms.record_sources) (JS.Return tt)
            Sample.second_answers []).2.1 = 2%nat.
Proof.
  assert ((Gemini.streamResponse StreamTerms.record_chunk
             (Some StreamTerms.record_sources) (JS.Return tt)
             Sample.second_answers []).2.1 !! 1%nat
          = Some "gemini-3-flash-preview") as Htried by (vm_compute; reflexivity).
  assert (Stream.failure (Sample.second_answers "gemini-3-flash-preview") = None)
    as Hdone by (vm_compute; reflexivity).
  split; [exact Htried|]. split; [exact Hdone|].
  destruct (ChainFacts.streamResponse_model_order StreamTerms.record_chunk
              (Some StreamTerms.record_sources) (JS.Return tt)
              Sample.second_answers [])
    as (_ & _ & _ & Hcompleted).
  exact (proj2 (Hcompleted 1%nat "gemini-3-flash-preview" Htried Hdone)).
Defined.

(** The first model is overloaded, which is recoverable, and the second
    rejects the request, which is not: the second is the last model tried
    and the rejection is reported. *)
Lemma streamResponse_recoverable_witness :
  Gemini.isRecoverable Sample.unavailable = true ∧
  Gemini.isRecoverable Sample.bad_request = false ∧
  Gemini.streamResponse StreamTerms.record_chunk (Some StreamTerms.record_sources)
    (JS.Return tt) Sample.second_rejects [] =
  (JS.Return tt,
   (["gemini-3-pro-preview"; "gemini-3-flash-preview"],
    [StreamTerms.OnChunk
       (Gemini.newline +:+ Gemini.newline +:+ "[System Error: 400 Invalid argument]")])).
Proof.
  assert (Gemini.isRecoverable Sample.bad_request = false) as Hfatal
    by (vm_compute; reflexivity).
  split; [vm_compute; reflexivity|]. split; [exact Hfatal|].
  destruct (ChainFacts.streamResponse_recoverable StreamTerms.record_chunk
              (Some StreamTerms.record_sources) (JS.Return tt)
              Sample.second_rejects [])
    as (_ & _ & Hstops).
  destruct (Hstops 1%nat "gemini-3-flash-preview" Sample.bad_request) as [Hrun _].
  - vm_compute. reflexivity.
  - vm_compute. reflexivity.
  - exact Hfatal.
  - rewrite Hrun. vm_compute. reflexivity.
Defined.

(** The answer of the second model in the transcript. *)
Lemma streamed_text_accumulates_witness :
  ∃ bot,
    App.messages
      (App.processResponse (JS.Return tt) (λ _, Sample.story) 1700000000500
         Sample.asked) !! 2%nat = Some bot ∧
    Message.id bot = "1700000000501" ∧
    Message.content bot = "The train left at dusk.".
Proof.
  destruct (StreamFacts.streamed_text_accumulates "1700000000501" Sample.story
              ({| App.accumulatedText := ""; App.collectedSources := [] |},
               Sample.asked)
              (JS.Return tt) (λ _, Sample.story) 1700000000500 Sample.asked)
    as (_ & _ & _ & _ & _ & _ & _ & Hbuilt & Hfirst).
  destruct (Hbuilt eq_refl) as (bot & Hbot & Hid & Hcontent).
  exists bot. split; [exact Hbot|]. split; [exact Hid|].
  rewrite Hcontent, (Hfirst eq_refl). vm_compute. reflexivity.
Defined.

(** A store of 60 sessions is cut to the 50 newest, the saved one first. *)
Example saveSession_crowded :
  ∃ trimmed ls',
    saveSession (Sample.session "new" 1000) Sample.crowded_store
      = JS.Return (trimmed, ls') ∧
    length trimmed = 50%nat ∧
    ChatSession.updatedAt <$> take 3 trimmed = [1000; 59; 58] ∧
    ChatSession.updatedAt <$> last trimmed = Some 11.
Proof. eexists _, _. split; [reflexivity|]. vm_compute. done. Qed.

(** Deleting [b] leaves [a] and [c], in that order. *)
Example deleteSession_sample :
  ∃ ls', deleteSession "b" Sample.store
         = JS.Return ([Sample.session "a" 30; Sample.session "c" 10], ls').
Proof. eexists. vm_compute. reflexivity. Qed.

(** An error that names both a refused key and an exhausted quota is
    reported as a refused key. *)
Example friendly_message_first_check :
  Gemini.getFriendlyErrorMessage Sample.denied_and_exhausted =
  "[System Error: Access Denied. Your API key may not have access to the selected model. Check your project permissions.]".
Proof. vm_compute. reflexivity. Qed.

Example friendly_message_generic :
  Gemini.getFriendlyErrorMessage Sample.bad_request =
  "[System Error: 400 Invalid argument]".
Proof. vm_compute. reflexivity. Qed.

(** The first model is overloaded and the second answers: two chats, and
    the calls for the chunks of the second. *)
Example streamResponse_second_answers :
  Gemini.streamResponse StreamTerms.record_chunk (Some StreamTerms.record_sources)
    (JS.Return tt) Sample.second_answers [] =
  (JS.Return tt,
   (["gemini-3-pro-preview"; "gemini-3-flash-preview"],
    [StreamTerms.OnChunk "The train ";
     StreamTerms.OnSources
       [{| Source.uri := "https://example.org/trains"; Source.title := "Night trains" |}];
     StreamTerms.OnChunk "left at dusk."])).
Proof. vm_compute. reflexivity. Qed.

(** The second model rejects the request: the third is not tried. *)
Example streamResponse_second_rejects :
  Gemini.streamResponse StreamTerms.record_chunk (Some StreamTerms.record_sources)
    (JS.Return tt) Sample.second_rejects [] =
  (JS.Return tt,
   (["gemini-3-pro-preview"; "gemini-3-flash-preview"],
    [StreamTerms.OnChunk
       (Gemini.newline +:+ Gemini.newline +:+ "[System Error: 400 Invalid argument]")])).
Proof. vm_compute. reflexivity. Qed.

(** Every model is overloaded: all three are tried, in order. *)
Example streamResponse_all_fail :
  (Gemini.streamResponse StreamTerms.record_chunk (Some StreamTerms.record_sources)
     (JS.Return tt) (λ _, Sample.fails_with Sample.unavailable) []).2.1
  = Gemini.modelsToTry.
Proof. vm_compute. reflexivity. Qed.

(** The transcript after the answer of the second model. *)
Example processResponse_second_answers :
  App.messages
    (App.processResponse (JS.Return tt) Sample.second_answers 1700000000500
       Sample.asked) =
  [Sample.greeting; Sample.question;
   {| Message.id := "1700000000501";
      Message.role := MODEL;
      Message.content := "The train left at dusk.";
      Message.isStreaming := Some false;
      Message.isError := None;
      Message.groundingSources :=
        Some [{| Source.uri := "https://example.org/trains";
                 Source.title := "Night trains" |}] |}].
Proof. vm_compute. reflexivity. Qed.

(** Without a client no model is tried and the failsafe of
    [processResponse] shows. *)
Example processResponse_no_client :
  Gemini.streamResponse StreamTerms.record_chunk (Some StreamTerms.record_sources)
    (JS.Throw Sample.process_undefined) Sample.second_answers [] =
  (JS.Throw Sample.process_undefined, ([], [])) ∧
  App.messages
    (App.processResponse (JS.Throw Sample.process_undefined) Sample.second_answers
       1700000000500 Sample.asked) =
  [Sample.greeting; Sample.question;
   {| Message.id := "1700000000501";
      Message.role := MODEL;
      Message.content :=
        Gemini.newline +:+ Gemini.newline +:+
        "[System Error: An unexpected error occurred. Please check console.]";
      Message.isStreaming := Some false;
      Message.isError := Some true;
      Message.groundingSources := None |}].
Proof. split; vm_compute; reflexivity. Qed.

End Concrete.
